(** * The match-3 board engine: a shallow embedding and its properties

    The embedding follows functional/src/board.ts function by function; the
    parts of the class variant (oo/src/board.ts) that differ are in [OO].

    Conventions.
    - Coordinates, widths and heights are integers ([Z]); the source's
      [number]s are only ever used as such.
    - Tile values are of a type [T] with decidable equality, standing for
      [===] and [Array.includes]; JavaScript [undefined] is [None].
    - The board is an array of tile objects, each with a fixed position and a
      mutable value.  A reference to a tile object is its index in
      [tilePieces] (the array never changes its elements, only their [value]
      fields), paired with the fields read through it.  Mutation of the board
      is explicit state passing.
    - A thrown exception is [Throw].  The cascade, which the source writes as
      unbounded mutual recursion, takes a fuel argument; [OutOfFuel] for every
      amount of fuel is non-termination.
    - The supplier is an interface ([Generator]) over its own state, with the
      two suppliers of the test suite as instances.
    - Field names are global here, so the [boardEffects] field of the source's
      [MoveResult] is [moveEffects]. *)

From stdpp Require Import prelude strings sorting.

(** ** Outcomes of a call *)

Inductive Error : Type := TypeError | EmptyQueue.

Inductive Res (A : Type) : Type :=
| Ret (a : A)
| Throw (e : Error)
| OutOfFuel.
Arguments Ret {A} a.
Arguments Throw {A} e.
Arguments OutOfFuel {A}.

Global Instance Res_ret : MRet Res := @Ret.
Global Instance Res_bind : MBind Res := λ A B f m,
  match m with
  | Ret a => f a
  | Throw e => Throw e
  | OutOfFuel => OutOfFuel
  end.

(** A [for] loop whose body may throw. *)
Fixpoint for_each {A S : Type} (body : S → A → Res S) (s : S) (l : list A) : Res S :=
  match l with
  | [] => Ret s
  | x :: l' => s' ← body s x; for_each body s' l'
  end.

(** ** The tile supplier: [Generator<T> = { next: () => T }] *)

Class Generator (T G : Type) := next : G → Res (T * G).

(** The finite queue of the test suite: [next] shifts, and throws when empty. *)
Record GeneratorFake (T : Type) : Type := { upcoming : list T }.
Arguments upcoming {T} _.

Definition prepare {T : Type} (g : GeneratorFake T) (e : list T) : GeneratorFake T :=
  {| upcoming := upcoming g ++ e |}.

Global Instance GeneratorFake_next {T : Type} : Generator T (GeneratorFake T) := λ g,
  match upcoming g with
  | [] => Throw EmptyQueue
  | v :: rest => Ret (v, {| upcoming := rest |})
  end.

(** The cyclic supplier of the test suite, over one-character strings
    ([charAt] yields the empty string past the end).  The sequence is taken
    to be non-empty, as in the tests. *)
Record CyclicGenerator : Type := { sequence : string; index : nat }.

Definition charAt (s : string) (i : nat) : string :=
  match String.get i s with
  | Some a => String a EmptyString
  | None => EmptyString
  end.

Global Instance CyclicGenerator_next : Generator string CyclicGenerator := λ g,
  Ret (charAt (sequence g) (index g),
       {| sequence := sequence g;
          index := (index g + 1) `mod` String.length (sequence g) |}).

(** ** Data model *)

Record Position : Type := { row : Z; col : Z }.

Global Instance Position_eq_dec : EqDecision Position.
Proof. solve_decision. Defined.

Inductive DIRECTION : Type := UP | DOWN | LEFT | RIGHT.

Global Instance DIRECTION_eq_dec : EqDecision DIRECTION.
Proof. solve_decision. Defined.

Section Engine.
Context {T : Type} `{EqDecision T}.

Record TilePiece : Type := { position : Position; value : option T }.

Record Board : Type := { width : Z; height : Z; tilePieces : list TilePiece }.

(** A tile reference: index in [tilePieces] and the object found there. *)
Definition Ref : Type := nat * TilePiece.

Record Match : Type := { matched : option T; positions : list Position }.

(** [kind: `Match`] carries the match; [kind: `Refill`] carries the board
    object itself (an alias of the live board, so no contents of its own). *)
Inductive BoardEffect : Type :=
| MatchEffect (m : Match)
| RefillEffect.

Definition kind (e : BoardEffect) : string :=
  match e with
  | MatchEffect _ => "Match"
  | RefillEffect => "Refill"
  end.

Record MatchResult : Type := { boardEffects : list BoardEffect; matches : list Ref }.

Record MoveResult : Type := { board : Board; moveEffects : list BoardEffect }.

(** ** Grid store *)

Definition IsPositionOutsideBoard (board : Board) (p : Position) : bool :=
  if bool_decide ((width board ≤ col p)%Z ∨ (col p < 0)%Z) then false
  else if bool_decide ((height board ≤ row p)%Z ∨ (row p < 0)%Z) then false
  else true.

Definition FindTilePieceOnPosition (board : Board) (p : Position) : option Ref :=
  list_find (λ element, col (position element) = col p ∧ row (position element) = row p)
            (tilePieces board).

Definition setValue (v : option T) (t : TilePiece) : TilePiece :=
  {| position := position t; value := v |}.

(** [indexOf] of a found piece is its index; of [undefined] it is -1 ([None]). *)
Definition indexOf (piece : option Ref) : option nat := fst <$> piece.

(** The [swapProperties] closure attached to the array by [Init], at
    [propertyToSwap = `value`]: both reads come before both writes, and a read
    through a missing element throws. *)
Definition swapProperties (pieces : list TilePiece) (firstIndex secondIndex : option nat)
  : Res (list TilePiece) :=
  match firstIndex ≫= (pieces !!.), secondIndex ≫= (pieces !!.) with
  | Some firstPiece, Some secondPiece =>
      match firstIndex, secondIndex with
      | Some i, Some j =>
          Ret (alter (setValue (value firstPiece)) j
                 (alter (setValue (value secondPiece)) i pieces))
      | _, _ => Throw TypeError
      end
  | _, _ => Throw TypeError
  end.

Definition SwapPieces (board : Board) (first second : Position) : Res Board :=
  let firstPiece := FindTilePieceOnPosition board first in
  let secondPiece := FindTilePieceOnPosition board second in
  let firstIndex := indexOf firstPiece in
  let secondIndex := indexOf secondPiece in
  pieces ← swapProperties (tilePieces board) firstIndex secondIndex;
  Ret {| width := width board; height := height board; tilePieces := pieces |}.

Definition tilePiece (board : Board) (p : Position) : Res (option T) :=
  if negb (IsPositionOutsideBoard board p) then Ret None
  else match FindTilePieceOnPosition board p with
       | Some found => Ret (value found.2)
       | None => Throw TypeError
       end.

Definition FindAllTilePiecesInRow (board : Board) (rowIndex : Z) : list Ref :=
  filter (λ element : Ref, row (position element.2) = rowIndex) (imap pair (tilePieces board)).

Definition FindAllTilePiecesInColumn (board : Board) (columnIndex : Z) : list Ref :=
  filter (λ element : Ref, col (position element.2) = columnIndex) (imap pair (tilePieces board)).

(** ** Match finder *)

Definition FindNextPiecePosition (currentPiece : Ref) (direction : DIRECTION) : Position :=
  let p := position currentPiece.2 in
  match direction with
  | DOWN => {| row := (row p + 1)%Z; col := col p |}
  | UP => {| row := (row p - 1)%Z; col := col p |}
  | LEFT => {| row := row p; col := (col p - 1)%Z |}
  | RIGHT => {| row := row p; col := (col p + 1)%Z |}
  end.

(** The recursive neighbour walk.  The accumulator is the array the source
    pushes onto.  Each step moves one cell further in a fixed direction, so
    the walk visits every tile at most once; [fuel] is the number of tiles
    (see [CheckNeighbours_fuel]). *)
Fixpoint CheckNeighbours (fuel : nat) (board : Board) (currentPiece : option Ref)
    (matchingPieces : list Ref) (v : option T) (Direction : DIRECTION) : list Ref :=
  match currentPiece with
  | None => matchingPieces
  | Some piece =>
      if decide (value piece.2 = v) then
        match fuel with
        | O => matchingPieces ++ [piece]
        | S fuel' =>
            let nextPiece :=
              FindTilePieceOnPosition board (FindNextPiecePosition piece Direction) in
            CheckNeighbours fuel' board nextPiece (matchingPieces ++ [piece]) v Direction
        end
      else matchingPieces
  end.

(** The call both neighbour checks make, once per direction:
    [CheckNeighbours(board, FindTilePieceOnPosition(board,
    FindNextPiecePosition(startPiece, d)), [], startPiece.value, d)]. *)
Definition walk (board : Board) (start : Ref) (Direction : DIRECTION) : list Ref :=
  CheckNeighbours (length (tilePieces board)) board
    (FindTilePieceOnPosition board (FindNextPiecePosition start Direction))
    [] (value start.2) Direction.

Definition noMatch : MatchResult := {| boardEffects := []; matches := [] |}.

Definition CreateBoardEffectForMatch (matchedPieces : list Ref) : MatchResult :=
  {| boardEffects :=
       [MatchEffect {| matched := head matchedPieces ≫= (λ piece, value piece.2);
                       positions := (λ piece : Ref, position piece.2) <$> matchedPieces |}];
     matches := matchedPieces |}.

Definition AllNeighboursInRowCheck (board : Board) (startPiece : Ref) : MatchResult :=
  let leftSideElements := walk board startPiece LEFT in
  let rightSideElements := walk board startPiece RIGHT in
  if bool_decide (3 ≤ length leftSideElements + length rightSideElements + 1) then
    CreateBoardEffectForMatch (leftSideElements ++ [startPiece] ++ rightSideElements)
  else noMatch.

Definition AllNeighboursInColCheck (board : Board) (startPiece : Ref) : MatchResult :=
  let topElements := walk board startPiece UP in
  let downElements := walk board startPiece DOWN in
  if bool_decide (3 ≤ length topElements + length downElements + 1) then
    CreateBoardEffectForMatch (topElements ++ [startPiece] ++ downElements)
  else noMatch.

(** One line of a scan: the inner [for ... of] loop, with [checkedValues] and
    the two accumulators as loop state. *)
Definition scanLine (check : Ref → MatchResult)
    (st : list (option T) * MatchResult) (element : Ref) : list (option T) * MatchResult :=
  let '(checkedValues, acc) := st in
  if bool_decide (value element.2 ∈ checkedValues) then st
  else
    let result := check element in
    (checkedValues ++ [value element.2],
     {| boardEffects := boardEffects acc ++ boardEffects result;
        matches := matches acc ++ matches result |}).

(** The outer loop shared by both scans: [matches] and [boardEffects] run
    through all lines, [checkedValues] starts empty on each line. *)
Definition scanLines (check : Ref → MatchResult) (lines : list (list Ref)) : MatchResult :=
  foldl (λ acc elements, (foldl (scanLine check) ([], acc) elements).2) noMatch lines.

Definition FindAllRowMatches (board : Board) : MatchResult :=
  scanLines (AllNeighboursInRowCheck board)
    (FindAllTilePiecesInRow board <$> seqZ 0 (height board)).

(** [for (let i = board.width; i >= 0; i--)]: indices width, width-1, ..., 0. *)
Definition FindAllColumnMatches (board : Board) : MatchResult :=
  scanLines (AllNeighboursInColCheck board)
    (FindAllTilePiecesInColumn board <$> reverse (seqZ 0 (width board + 1)%Z)).

(** ** Move validator *)

Definition IsMoveLegal (board : Board) (originalPosition newPosition : Position)
  : Res (bool * Board) :=
  if negb (IsPositionOutsideBoard board originalPosition)
     || negb (IsPositionOutsideBoard board newPosition) then Ret (false, board)
  else if bool_decide (col originalPosition = col newPosition)
          && bool_decide (row originalPosition = row newPosition) then Ret (false, board)
  else if bool_decide (col originalPosition ≠ col newPosition)
          && bool_decide (row originalPosition ≠ row newPosition) then Ret (false, board)
  else
    board1 ← SwapPieces board originalPosition newPosition;
    let matchesInRows := FindAllRowMatches board1 in
    let matchesInColumns := FindAllColumnMatches board1 in
    board2 ← SwapPieces board1 originalPosition newPosition;
    if bool_decide (length (matches matchesInRows) = 0)
       && bool_decide (length (matches matchesInColumns) = 0)
    then Ret (false, board2)
    else Ret (true, board2).

Definition canMove (board : Board) (originalPosition newPosition : Position)
  : Res (bool * Board) :=
  IsMoveLegal board originalPosition newPosition.

(** ** Resolver and cascade driver *)

Context {G : Type} `{Generator T G}.

Definition Init (generator : G) (height width : Z) : Res (list TilePiece * G) :=
  for_each (λ st r,
      for_each (λ (st : list TilePiece * G) c,
          let '(pieces, generator) := st in
          '(v, generator) ← next generator;
          Ret (pieces ++ [{| value := Some v; position := {| row := r; col := c |} |}],
               generator))
        st (seqZ 0 width))
    ([], generator) (seqZ 0 height).

Definition create (generator : G) (width height : Z) : Res (Board * G) :=
  '(pieces, generator) ← Init generator height width;
  Ret ({| width := width; height := height; tilePieces := pieces |}, generator).

(** [match.value = undefined] through each reference, rows first. *)
Definition MatchValuesRemoved (board : Board) (matchesRows matchesColumn : list Ref) : Board :=
  let clear := foldl (λ pieces (m : Ref), alter (setValue None) m.1 pieces) in
  {| width := width board; height := height board;
     tilePieces := clear (clear (tilePieces board) matchesRows) matchesColumn |}.

(** [for (let row = fromRow; row > 0; row--)]. *)
Definition ShiftElementsInColumn (board : Board) (fromRow c : Z) : Res Board :=
  for_each (λ board r,
      SwapPieces board {| row := r; col := c |} {| row := (r - 1)%Z; col := c |})
    board (reverse (seqZ 1 fromRow)).

(** The body of the two nested loops of [UpdateBoard].  In the assignment to
    the top cell the target is looked up first, then the supplier is called,
    then the value is stored. *)
Definition UpdateBoard_cell (st : Board * G) (r c : Z) : Res (Board * G) :=
  let '(board, generator) := st in
  match FindTilePieceOnPosition board {| row := r; col := c |} with
  | None => Throw TypeError
  | Some foundElement =>
      if decide (value foundElement.2 = None) then
        board ← ShiftElementsInColumn board
                  (row (position foundElement.2)) (col (position foundElement.2));
        let top := FindTilePieceOnPosition board
                     {| row := 0; col := col (position foundElement.2) |} in
        '(v, generator) ← next generator;
        match top with
        | None => Throw TypeError
        | Some topPiece =>
            Ret ({| width := width board; height := height board;
                    tilePieces := alter (setValue (Some v)) topPiece.1 (tilePieces board) |},
                 generator)
        end
      else Ret (board, generator)
  end.

Definition UpdateBoard_loops (board : Board) (generator : G) : Res (Board * G) :=
  for_each (λ st r, for_each (λ st c, UpdateBoard_cell st r c) st (seqZ 0 (width board)))
    (board, generator) (seqZ 0 (height board)).

Definition RemoveMatches : Type := Board → list Ref → list Ref → Board.

(** [UpdateBoard] and [CheckBoard] call each other; [UpdateBoard] takes the
    recursive call as [CheckBoard]. *)
Definition UpdateBoard
    (CheckBoard : Board → G → list BoardEffect → RemoveMatches → Res (Board * G * list BoardEffect))
    (board : Board) (generator : G) (effects : list BoardEffect)
  : Res (Board * G * list BoardEffect) :=
  '(board, generator) ← UpdateBoard_loops board generator;
  let effects := effects ++ [RefillEffect] in
  CheckBoard board generator effects MatchValuesRemoved.

Fixpoint CheckBoard (fuel : nat) (board : Board) (generator : G)
    (effects : list BoardEffect) (removeMatchesFn : RemoveMatches)
  : Res (Board * G * list BoardEffect) :=
  match fuel with
  | O => OutOfFuel
  | S fuel' =>
      let rowMatchResults := FindAllRowMatches board in
      let columnMatchResults := FindAllColumnMatches board in
      let effects := effects ++ boardEffects rowMatchResults in
      let effects := effects ++ boardEffects columnMatchResults in
      if negb (bool_decide (length (matches rowMatchResults) = 0))
         || negb (bool_decide (length (matches columnMatchResults) = 0)) then
        let board := removeMatchesFn board (matches rowMatchResults)
                       (matches columnMatchResults) in
        UpdateBoard (CheckBoard fuel') board generator effects
      else Ret (board, generator, effects)
  end.

Definition move (fuel : nat) (generator : G) (board : Board)
    (originalPosition newPosition : Position) : Res (MoveResult * G) :=
  '(legal, board) ← IsMoveLegal board originalPosition newPosition;
  if (legal : bool) then
    board ← SwapPieces board originalPosition newPosition;
    '(board, generator, boardEffects) ← CheckBoard fuel board generator [] MatchValuesRemoved;
    Ret ({| board := board; moveEffects := boardEffects |}, generator)
  else Ret ({| board := board; moveEffects := [] |}, generator).

End Engine.

Arguments TilePiece : clear implicits.
Arguments Board : clear implicits.
Arguments Ref : clear implicits.
Arguments Match : clear implicits.
Arguments BoardEffect : clear implicits.
Arguments MatchResult : clear implicits.
Arguments MoveResult : clear implicits.

(** ** The class variant (oo/src/board.ts)

    The class keeps the same array of tiles.  Its lookup, swap, neighbour walk
    and line filters are the functions above under other names
    ([FindTilePieceAtPosition], [SwapTilePieces], [NeighbourOfTilePieceCheck],
    [FindPiecesInRow], [FindPiecesInCol]).  It differs in the order of the
    validator's tests and in how a scan skips tiles: by reference, against the
    tiles already matched, instead of by value.  The calls to listeners are
    left out. *)
Module OO.
Section OO.
Context {T : Type} `{EqDecision T}.

Definition IsPositionWithinBoard (b : Board T) (p : Position) : bool :=
  if bool_decide (((row p < height b)%Z ∧ (0 ≤ row p)%Z)
                  ∧ ((col p < width b)%Z ∧ (0 ≤ col p)%Z)) then true
  else false.

Definition piece (b : Board T) (tilePiece : Position) : Res (option T) :=
  if negb (IsPositionWithinBoard b tilePiece) then Ret None
  else match FindTilePieceOnPosition b tilePiece with
       | Some found => Ret (value found.2)
       | None => Throw TypeError
       end.

Definition IsSameTile (originalPosition positionToBeChecked : Position) : bool :=
  if bool_decide (row originalPosition = row positionToBeChecked
                  ∧ col originalPosition = col positionToBeChecked) then true
  else false.

Definition IsTileSameRowOrColumn (originalPosition positionToBeChecked : Position) : bool :=
  if bool_decide (row originalPosition ≠ row positionToBeChecked
                  ∧ col originalPosition ≠ col positionToBeChecked) then false
  else true.

Definition AllNeighboursInRowCheck (b : Board T) (originalTilePiece : Ref T) : list (Ref T) :=
  let tilePiecesToTheLeft := walk b originalTilePiece LEFT in
  let tilePiecesToTheRight := walk b originalTilePiece RIGHT in
  if bool_decide (3 ≤ length tilePiecesToTheLeft + length tilePiecesToTheRight + 1) then
    tilePiecesToTheLeft ++ [originalTilePiece] ++ tilePiecesToTheRight
  else [].

Definition AllNeighboursInColCheck (b : Board T) (originalTilePiece : Ref T) : list (Ref T) :=
  let tilePiecesAbove := walk b originalTilePiece UP in
  let tilePiecesBelow := walk b originalTilePiece DOWN in
  if bool_decide (3 ≤ length tilePiecesAbove + length tilePiecesBelow + 1) then
    tilePiecesAbove ++ [originalTilePiece] ++ tilePiecesBelow
  else [].

(** [rowMatches.includes(tilePiece)] compares object references. *)
Definition includes (found : list (Ref T)) (tilePiece : Ref T) : bool :=
  bool_decide (tilePiece.1 ∈ fst <$> found).

Definition FindRowMatches (b : Board T) : list (Ref T) :=
  foldl (λ rowMatches i,
      foldl (λ rowMatches tilePiece,
          if negb (includes rowMatches tilePiece) then
            rowMatches ++ AllNeighboursInRowCheck b tilePiece
          else rowMatches)
        rowMatches (FindAllTilePiecesInRow b i))
    [] (seqZ 0 (height b)).

Definition FindColMatches (b : Board T) : list (Ref T) :=
  foldl (λ colMatches i,
      foldl (λ colMatches tilePiece,
          if negb (includes colMatches tilePiece) then
            colMatches ++ AllNeighboursInColCheck b tilePiece
          else colMatches)
        colMatches (FindAllTilePiecesInColumn b i))
    [] (reverse (seqZ 0 (width b + 1)%Z)).

Definition IsAnyMatch (b : Board T) : bool :=
  let rowMatchesList := FindRowMatches b in
  let colMatchesList := FindColMatches b in
  if bool_decide (length rowMatchesList = 0) && bool_decide (length colMatchesList = 0)
  then false
  else true.

Definition MoveResultInMatches (b : Board T) (originalPosition newPosition : Position)
  : Res (bool * Board T) :=
  b1 ← SwapPieces b originalPosition newPosition;
  let isMatches := IsAnyMatch b1 in
  b2 ← SwapPieces b1 newPosition originalPosition;
  Ret (isMatches, b2).

Definition IsMoveLegal (b : Board T) (originalPosition newPosition : Position)
  : Res (bool * Board T) :=
  if IsSameTile originalPosition newPosition then Ret (false, b)
  else if negb (IsTileSameRowOrColumn originalPosition newPosition) then Ret (false, b)
  else if negb (IsPositionWithinBoard b originalPosition)
          || negb (IsPositionWithinBoard b newPosition) then Ret (false, b)
  else MoveResultInMatches b originalPosition newPosition.

Definition canMove (b : Board T) (originalPosition newPosition : Position)
  : Res (bool * Board T) :=
  IsMoveLegal b originalPosition newPosition.

End OO.
End OO.

(** ** The fixtures of the test suite *)

Definition created (tiles : list string) (w h : Z) : Board string :=
  match create {| upcoming := tiles |} w h with
  | Ret (b, _) => b
  | _ => {| width := w; height := h; tilePieces := [] |}
  end.

Definition values {T : Type} (b : Board T) : list (option T) := value <$> tilePieces b.

Definition at_ (r c : Z) : Position := {| row := r; col := c |}.

(** "valid moves": a 4 by 4 board. *)
Definition board4x4 : Board string :=
  created ["A";"B";"A";"C"; "D";"C";"A";"C"; "D";"A";"D";"D"; "C";"C";"D";"C"] 4 4.

(** "replacing tiles" and "Cascading": 3 wide, 4 high. *)
Definition tiles3x4 : list string :=
  ["A";"B";"A"; "D";"B";"C"; "D";"A";"C"; "C";"D";"D"].

Definition board3x4 : Board string := created tiles3x4 3 4.

(** What "replaces missing top row with generated tiles" expects of
    [move] on [board3x4] with B, C, D queued. *)
Definition result3x4 : MoveResult string :=
  {| board := created ["B";"C";"D"; "D";"B";"C"; "D";"B";"C"; "C";"D";"D"] 3 4;
     moveEffects :=
       [MatchEffect {| matched := Some "A"; positions := [at_ 0 0; at_ 0 1; at_ 0 2] |};
        RefillEffect] |}.

Definition queueBCD : GeneratorFake string := {| upcoming := ["B";"C";"D"] |}.

(** One row holding two separate runs of the same value. *)
Definition rowAAABAAA : Board string := created ["A";"A";"A";"B";"A";"A";"A"] 7 1.

(** One row on which a refill completes a run behind an earlier, lone tile of
    the same value. *)
Definition row1x8 : Board string := created ["A";"B";"A";"A";"C";"C";"D";"C"] 8 1.

(** [new CyclicGenerator('A')] and the 3 by 1 board it fills. *)
Definition cyclicA : CyclicGenerator := {| sequence := "A"; index := 0 |}.

Definition boardAAA : Board string :=
  {| width := 3; height := 1;
     tilePieces := (λ c, {| position := {| row := 0; col := c |}; value := Some "A" |})
                     <$> [0; 1; 2]%Z |}.

(** [board4x4] with the values of (0,0) and (0,1) exchanged. *)
Definition swapped4x4 : Board string :=
  created ["B";"A";"A";"C"; "D";"C";"A";"C"; "D";"A";"D";"D"; "C";"C";"D";"C"] 4 4.

(** References to the three tiles of the top row of [board3x4], and the board
    with those tiles cleared. *)
Definition topRow3x4 : list (Ref string) := take 3 (imap pair (tilePieces board3x4)).

Definition holed3x4 : Board string := MatchValuesRemoved board3x4 topRow3x4 [].

(** [new CyclicGenerator('ABC')]. *)
Definition cyclicABC : CyclicGenerator := {| sequence := "ABC"; index := 0 |}.

(** ** Boards as [create] builds them *)

(** The positions of a [w] by [h] board in the order [Init] pushes them. *)
Definition grid (w h : Z) : list Position :=
  r ← seqZ 0 h; c ← seqZ 0 w; [{| row := r; col := c |}].

Definition wf {T : Type} (b : Board T) : Prop :=
  position <$> tilePieces b = grid (width b) (height b).

(** Same dimensions and the same tile positions, cell for cell: only the
    [value] fields may differ. *)
Definition same_shape {T : Type} (b b' : Board T) : Prop :=
  width b = width b' ∧ height b = height b' ∧
  position <$> tilePieces b = position <$> tilePieces b'.

Definition in_bounds {T : Type} (b : Board T) (p : Position) : Prop :=
  (0 ≤ row p < height b)%Z ∧ (0 ≤ col p < width b)%Z.

(** The position [n] cells further from [p] in direction [d]. *)
Definition advance (d : DIRECTION) (p : Position) (n : Z) : Position :=
  match d with
  | DOWN => {| row := (row p + n)%Z; col := col p |}
  | UP => {| row := (row p - n)%Z; col := col p |}
  | LEFT => {| row := row p; col := (col p - n)%Z |}
  | RIGHT => {| row := row p; col := (col p + n)%Z |}
  end.

(** [q] lies at [p] or beyond it in direction [d], on the same line. *)
Definition ahead (d : DIRECTION) (p q : Position) : Prop :=
  match d with
  | DOWN => col q = col p ∧ (row p ≤ row q)%Z
  | UP => col q = col p ∧ (row q ≤ row p)%Z
  | LEFT => row q = row p ∧ (col q ≤ col p)%Z
  | RIGHT => row q = row p ∧ (col p ≤ col q)%Z
  end.

Global Instance ahead_dec d p q : Decision (ahead d p q).
Proof. destruct d; simpl; apply _. Defined.

(** A result of one neighbour check appended to the accumulators of a scan. *)
Definition addResult {T : Type} (acc result : MatchResult T) : MatchResult T :=
  {| boardEffects := boardEffects acc ++ boardEffects result;
     matches := matches acc ++ matches result |}.

Definition valid_ref {T : Type} (b : Board T) (x : Ref T) : Prop :=
  tilePieces b !! x.1 = Some x.2.

(** The common form of [AllNeighboursInRowCheck] (walking LEFT then RIGHT) and
    [AllNeighboursInColCheck] (UP then DOWN). *)
Definition neighbourCheck {T : Type} `{EqDecision T} (back forth : DIRECTION)
    (b : Board T) (startPiece : Ref T) : MatchResult T :=
  if bool_decide (3 ≤ length (walk b startPiece back) + length (walk b startPiece forth) + 1)
  then CreateBoardEffectForMatch
         (walk b startPiece back ++ [startPiece] ++ walk b startPiece forth)
  else noMatch.

Definition is_match {T : Type} (e : BoardEffect T) : Prop :=
  match e with MatchEffect _ => True | RefillEffect => False end.

(** Effects and matched tiles of a scan go together: none of either, or some
    of both; and a scan emits [Match] effects only. *)
Definition coherent {T : Type} (r : MatchResult T) : Prop :=
  (matches r = [] ↔ boardEffects r = []) ∧ Forall is_match (boardEffects r).

(** [k] consecutive positions from [p] on, in direction [d]: increasing
    column for [RIGHT], increasing row for [DOWN]. *)
Definition run (d : DIRECTION) (p : Position) (k : nat) : list Position :=
  (λ n : nat, advance d p (Z.of_nat n)) <$> seq 0 k.

(** A [Match] effect read against the board [b] it was found on: at least
    three consecutive positions along [d], each holding the matched value. *)
Definition good_match {T : Type} `{EqDecision T} (d : DIRECTION) (b : Board T)
    (e : BoardEffect T) : Prop :=
  match e with
  | MatchEffect m =>
      ∃ p k, 3 ≤ k ∧ positions m = run d p k ∧
             ∀ q, q ∈ positions m → tilePiece b q = Ret (matched m)
  | RefillEffect => False
  end.

(** The column scan as the specification words it: valid columns only,
    from [width - 1] down to [0]. *)
Definition FindAllColumnMatches_valid {T : Type} `{EqDecision T} (board : Board T)
  : MatchResult T :=
  scanLines (AllNeighboursInColCheck board)
    (FindAllTilePiecesInColumn board <$> reverse (seqZ 0 (width board))).

(** The effects of one resolution pass started on board [b]: the row scan's,
    then the column scan's, then the refill marker. *)
Definition pass_log {T : Type} `{EqDecision T} (b : Board T) : list (BoardEffect T) :=
  boardEffects (FindAllRowMatches b) ++ boardEffects (FindAllColumnMatches b)
    ++ [RefillEffect].

(** Neither scan of [b] reports a match. *)
Definition quiescent {T : Type} `{EqDecision T} (b : Board T) : Prop :=
  matches (FindAllRowMatches b) = [] ∧ matches (FindAllColumnMatches b) = [].

(** The run of a cascade, read off [CheckBoard] and [UpdateBoard]: started on
    [b] with supplier [g] it rests at once when neither scan matches a tile;
    otherwise it clears the matched tiles, runs the refill loops, and goes on
    from the board and the supplier the loops leave.
    [cascade rows cols b g boards b' g'] lists the boards that started a
    pass, first to last, and gives the board and supplier the cascade rests
    on.  [rows] and [cols] are the tiles the two scans match. *)
Inductive cascade {T G : Type} `{!Generator T G} (rows cols : Board T → list (Ref T))
  : Board T → G → list (Board T) → Board T → G → Prop :=
| cascade_rest b g :
    rows b = [] → cols b = [] → cascade rows cols b g [] b g
| cascade_pass b g b1 g1 boards b' g' :
    ¬ (rows b = [] ∧ cols b = []) →
    UpdateBoard_loops (MatchValuesRemoved b (rows b) (cols b)) g = Ret (b1, g1) →
    cascade rows cols b1 g1 boards b' g' →
    cascade rows cols b g (b :: boards) b' g'.

(** The passes of the functional [move], and those of the class's. *)
Definition passes {T G : Type} `{EqDecision T} `{!Generator T G}
  : Board T → G → list (Board T) → Board T → G → Prop :=
  cascade (λ b, matches (FindAllRowMatches b)) (λ b, matches (FindAllColumnMatches b)).

Definition OO_passes {T G : Type} `{EqDecision T} `{!Generator T G}
  : Board T → G → list (Board T) → Board T → G → Prop :=
  cascade OO.FindRowMatches OO.FindColMatches.

(** The cell at [p] holds a value. *)
Definition filled {T : Type} (b : Board T) (p : Position) : Prop :=
  ∃ x, FindTilePieceOnPosition b p = Some x ∧ value x.2 ≠ None.

(** Tiles at or beyond [p]: the measure that bounds a walk. *)
Definition tilesAhead {T : Type} (b : Board T) (d : DIRECTION) (p : Position) : nat :=
  length (filter (λ t, ahead d p (position t)) (tilePieces b)).

(** ** Views of a board *)

(** What the cell at [p] holds: [None] for a hole, and for no cell at all. *)
Definition valueAt {T : Type} (b : Board T) (p : Position) : option T :=
  match FindTilePieceOnPosition b p with
  | Some x => value x.2
  | None => None
  end.

(** The number of tiles whose value is [undefined]. *)
Definition holes {T : Type} (b : Board T) : nat :=
  length (filter (λ t, value t = None) (tilePieces b)).

(** [k] successive calls of [next], collecting the values. *)
Fixpoint draw {T G : Type} `{!Generator T G} (k : nat) (g : G) : Res (list T * G) :=
  match k with
  | O => Ret ([], g)
  | S k' => '(v, g1) ← next g; '(vs, g2) ← draw k' g1; Ret (v :: vs, g2)
  end.

(** There is a tile at [p] and it holds [v]. *)
Definition holds {T : Type} (b : Board T) (p : Position) (v : option T) : Prop :=
  ∃ x, FindTilePieceOnPosition b p = Some x ∧ value x.2 = v.

(** Three tiles in a line from [p] on in direction [d], holding one value. *)
Definition has_run3 {T : Type} (b : Board T) (d : DIRECTION) : Prop :=
  ∃ p v, holds b p v ∧ holds b (advance d p 1) v ∧ holds b (advance d p 2) v.

(** The two axes of a scan: the direction walked back and the one walked
    forth. *)
Definition axis (back forth : DIRECTION) : Prop :=
  (back = LEFT ∧ forth = RIGHT) ∨ (back = UP ∧ forth = DOWN).

(** The loop shared by the class's two scans: one accumulator through all
    lines, a tile skipped when it is among the tiles matched so far. *)
Definition OO_scan {T : Type} (check : Ref T → list (Ref T)) (lines : list (list (Ref T)))
  : list (Ref T) :=
  foldl (λ found line,
      foldl (λ found tilePiece,
          if negb (OO.includes found tilePiece) then found ++ check tilePiece else found)
        found line)
    [] lines.

(** A scan of the class with the events it raises when [isEventsEnabled] is
    on: the tiles matched, and one [Match] event for every neighbour check
    that found a match. *)
Definition OO_scan_log {T : Type} (check : Ref T → MatchResult T)
    (lines : list (list (Ref T))) : MatchResult T :=
  foldl (λ acc line,
      foldl (λ acc tilePiece,
          if negb (OO.includes (matches acc) tilePiece)
          then addResult acc (check tilePiece) else acc)
        acc line)
    noMatch lines.

Definition OO_rows {T : Type} `{EqDecision T} (b : Board T) : MatchResult T :=
  OO_scan_log (neighbourCheck LEFT RIGHT b) (FindAllTilePiecesInRow b <$> seqZ 0 (height b)).

Definition OO_columns {T : Type} `{EqDecision T} (b : Board T) : MatchResult T :=
  OO_scan_log (neighbourCheck UP DOWN b)
    (FindAllTilePiecesInColumn b <$> reverse (seqZ 0 (width b + 1)%Z)).

(** What holds of the accumulators of a scan of the class on [b], walking
    [back] and [forth], after the tiles [pre] of the line at hand: the tiles
    matched are tiles of the board; the tile next to a matched tile, if it
    holds the same value, is matched too; a tile of [pre] is matched or lies
    in no run of three; and every event is a run read in the direction
    [forth]. *)
Definition scanned {T : Type} `{EqDecision T} (b : Board T) (back forth : DIRECTION)
    (pre : list (Ref T)) (acc : MatchResult T) : Prop :=
  Forall (valid_ref b) (matches acc) ∧
  (∀ y z, y ∈ matches acc → valid_ref b z →
          position z.2 = advance forth (position y.2) 1 → value z.2 = value y.2 →
          z ∈ matches acc) ∧
  (∀ y, y ∈ pre →
        y ∈ matches acc ∨ length (walk b y back) + length (walk b y forth) + 1 < 3) ∧
  Forall (good_match forth b) (boardEffects acc).

(** What the listeners hear in one resolution pass of the class started on
    board [b]: the row scan's events, the column scan's, and the refill. *)
Definition OO_pass_log {T : Type} `{EqDecision T} (b : Board T) : list (BoardEffect T) :=
  boardEffects (OO_rows b) ++ boardEffects (OO_columns b) ++ [RefillEffect].

(** The values read down column [c], top row first. *)
Definition column {T : Type} (b : Board T) (c : Z) : list (option T) :=
  (λ r, valueAt b {| row := r; col := c |}) <$> seqZ 0 (height b).

(** ** The class as an object with state (oo/src/board.ts)

    [canMove] runs the class's scans with [isEventsEnabled] off, where they
    call no listener; [move] turns the flag on.  Here every method threads the
    fields of the object: the dimensions and the tiles, the supplier, the
    flag, and for [boardListeners] the events that a listener added before
    the call has been called with, oldest first.  A listener only observes:
    it does not call back into the board.  The two loops of [UpdateBoard],
    [shiftElementsInColumn] and [DestroyMatchedTilePieces] are statement by
    statement those of the functional variant. *)
Module OOBoard.
Section OOBoard.
Context {T : Type} `{EqDecision T} {G : Type} `{!Generator T G}.

Record Object : Type := {
  tiles : Board T;
  boardGenerator : G;
  isEventsEnabled : bool;
  heard : list (BoardEffect T) }.

Definition setTiles (o : Object) (b : Board T) : Object :=
  {| tiles := b; boardGenerator := boardGenerator o;
     isEventsEnabled := isEventsEnabled o; heard := heard o |}.

Definition setEventsEnabled (o : Object) (flag : bool) : Object :=
  {| tiles := tiles o; boardGenerator := boardGenerator o;
     isEventsEnabled := flag; heard := heard o |}.

(** [boardListeners.forEach((boardListener) => boardListener(event))]. *)
Definition notify (o : Object) (event : BoardEffect T) : Object :=
  {| tiles := tiles o; boardGenerator := boardGenerator o;
     isEventsEnabled := isEventsEnabled o; heard := heard o ++ [event] |}.

(** The constructor: [CreateBoard] runs the loops of [Init]. *)
Definition new (boardGenerator : G) (boardColumns boardRows : Z) : Res Object :=
  '(pieces, generator) ← Init boardGenerator boardRows boardColumns;
  Ret {| tiles := {| width := boardColumns; height := boardRows; tilePieces := pieces |};
         boardGenerator := generator; isEventsEnabled := false; heard := [] |}.

Definition piece (o : Object) (tilePiece : Position) : Res (option T) :=
  OO.piece (tiles o) tilePiece.

Definition CallAllListenersOnMatch (o : Object) (tilePiecesInMatch : list (Ref T)) : Object :=
  notify o (MatchEffect
              {| matched := head tilePiecesInMatch ≫= (λ piece, value piece.2);
                 positions := (λ m : Ref T, position m.2) <$> tilePiecesInMatch |}).

Definition AllNeighboursInRowCheck (o : Object) (originalTilePiece : Ref T)
  : list (Ref T) * Object :=
  let tilePiecesToTheLeft := walk (tiles o) originalTilePiece LEFT in
  let tilePiecesToTheRight := walk (tiles o) originalTilePiece RIGHT in
  if bool_decide (3 ≤ length tilePiecesToTheLeft + length tilePiecesToTheRight + 1) then
    let tilePiecesInMatch := tilePiecesToTheLeft ++ [originalTilePiece] ++ tilePiecesToTheRight in
    (tilePiecesInMatch,
     if isEventsEnabled o then CallAllListenersOnMatch o tilePiecesInMatch else o)
  else ([], o).

Definition AllNeighboursInColCheck (o : Object) (originalTilePiece : Ref T)
  : list (Ref T) * Object :=
  let tilePiecesAbove := walk (tiles o) originalTilePiece UP in
  let tilePiecesBelow := walk (tiles o) originalTilePiece DOWN in
  if bool_decide (3 ≤ length tilePiecesAbove + length tilePiecesBelow + 1) then
    let tilePiecesInMatch := tilePiecesAbove ++ [originalTilePiece] ++ tilePiecesBelow in
    (tilePiecesInMatch,
     if isEventsEnabled o then CallAllListenersOnMatch o tilePiecesInMatch else o)
  else ([], o).

(** The body of the inner loop of both scans. *)
Definition scanTile (check : Object → Ref T → list (Ref T) * Object)
    (st : list (Ref T) * Object) (tilePiece : Ref T) : list (Ref T) * Object :=
  if negb (OO.includes st.1 tilePiece) then
    let '(found, o) := check st.2 tilePiece in (st.1 ++ found, o)
  else st.

Definition FindRowMatches (o : Object) : list (Ref T) * Object :=
  foldl (λ st i, foldl (scanTile AllNeighboursInRowCheck) st
                   (FindAllTilePiecesInRow (tiles st.2) i))
    ([], o) (seqZ 0 (height (tiles o))).

Definition FindColMatches (o : Object) : list (Ref T) * Object :=
  foldl (λ st i, foldl (scanTile AllNeighboursInColCheck) st
                   (FindAllTilePiecesInColumn (tiles st.2) i))
    ([], o) (reverse (seqZ 0 (width (tiles o) + 1)%Z)).

Definition IsAnyMatch (o : Object) : bool * Object :=
  let '(rowMatchesList, o) := FindRowMatches o in
  let '(colMatchesList, o) := FindColMatches o in
  if bool_decide (length rowMatchesList = 0) && bool_decide (length colMatchesList = 0)
  then (false, o)
  else (true, o).

Definition SwapTilePieces (o : Object) (originalPosition newPosition : Position)
  : Res Object :=
  b ← SwapPieces (tiles o) originalPosition newPosition; Ret (setTiles o b).

Definition MoveResultInMatches (o : Object) (originalPosition newPosition : Position)
  : Res (bool * Object) :=
  o ← SwapTilePieces o originalPosition newPosition;
  let '(isMatches, o) := IsAnyMatch o in
  o ← SwapTilePieces o newPosition originalPosition;
  Ret (isMatches, o).

Definition IsMoveLegal (o : Object) (originalPosition newPosition : Position)
  : Res (bool * Object) :=
  if OO.IsSameTile originalPosition newPosition then Ret (false, o)
  else if negb (OO.IsTileSameRowOrColumn originalPosition newPosition) then Ret (false, o)
  else if negb (OO.IsPositionWithinBoard (tiles o) originalPosition)
          || negb (OO.IsPositionWithinBoard (tiles o) newPosition) then Ret (false, o)
  else MoveResultInMatches o originalPosition newPosition.

Definition canMove (o : Object) (originalPosition newPosition : Position)
  : Res (bool * Object) :=
  IsMoveLegal o originalPosition newPosition.

Definition DestroyMatchedTilePieces (o : Object) (rowMatches colMatches : list (Ref T))
  : Object :=
  setTiles o (MatchValuesRemoved (tiles o) rowMatches colMatches).

(** [UpdateBoard] and [CheckBoard] call each other; [UpdateBoard] takes the
    recursive call as [CheckBoard].  The listeners hear of the refill before
    the loops run. *)
Definition UpdateBoard (CheckBoard : Object → Res Object) (o : Object) : Res Object :=
  let o := notify o RefillEffect in
  '(board, generator) ← UpdateBoard_loops (tiles o) (boardGenerator o);
  CheckBoard {| tiles := board; boardGenerator := generator;
                isEventsEnabled := isEventsEnabled o; heard := heard o |}.

Fixpoint CheckBoard (fuel : nat) (o : Object) : Res Object :=
  match fuel with
  | O => OutOfFuel
  | S fuel' =>
      let '(rowMatches, o) := FindRowMatches o in
      let '(colMatches, o) := FindColMatches o in
      if negb (bool_decide (length rowMatches = 0))
         || negb (bool_decide (length colMatches = 0)) then
        UpdateBoard (CheckBoard fuel') (DestroyMatchedTilePieces o rowMatches colMatches)
      else Ret o
  end.

(** [move] returns [null]; what it does is in the object afterwards. *)
Definition move (fuel : nat) (o : Object) (originalPosition newPosition : Position)
  : Res Object :=
  '(legal, o) ← IsMoveLegal o originalPosition newPosition;
  if (legal : bool) then
    let o := setEventsEnabled o true in
    o ← SwapTilePieces o originalPosition newPosition;
    o ← CheckBoard fuel o;
    Ret (setEventsEnabled o false)
  else Ret o.

End OOBoard.
End OOBoard.

Arguments OOBoard.Object : clear implicits.


(** The class's object on [board3x4] with B, C, D queued, between two moves;
    and the object the move of (0,1) to (2,1) leaves. *)
Definition object3x4 : OOBoard.Object string (GeneratorFake string) :=
  {| OOBoard.tiles := board3x4; OOBoard.boardGenerator := queueBCD;
     OOBoard.isEventsEnabled := false; OOBoard.heard := [] |}.

Definition moved3x4 : OOBoard.Object string (GeneratorFake string) :=
  {| OOBoard.tiles := board result3x4; OOBoard.boardGenerator := {| upcoming := [] |};
     OOBoard.isEventsEnabled := false; OOBoard.heard := moveEffects result3x4 |}.

(** The object [o] after its listeners have been called with [events] more. *)
Definition hears {T G : Type} (o : OOBoard.Object T G) (events : list (BoardEffect T))
  : OOBoard.Object T G :=
  {| OOBoard.tiles := OOBoard.tiles o; OOBoard.boardGenerator := OOBoard.boardGenerator o;
     OOBoard.isEventsEnabled := OOBoard.isEventsEnabled o;
     OOBoard.heard := OOBoard.heard o ++ events |}.

(** What a scan of the class lets the listeners hear, against the tiles it
    has matched: nothing with the flag off; with the flag on [Match] events
    only, and none exactly when no tile is matched. *)
Definition scan_heard {T : Type} (flag : bool) (found : list (Ref T))
    (events : list (BoardEffect T)) : Prop :=
  (flag = false → events = []) ∧ (flag = true → (events = [] ↔ found = [])) ∧
  Forall is_match events.

(** * Properties *)

Lemma Res_bind_Ret {A B : Type} (m : Res A) (f : A → Res B) (y : B) :
  m ≫= f = Ret y → ∃ x, m = Ret x ∧ f x = Ret y.
Proof. destruct m; simpl; intros E; try discriminate. eauto. Qed.

Ltac inv_bind H :=
  let x := fresh "x" in
  let Hx := fresh "Hx" in
  apply Res_bind_Ret in H as (x & Hx & H).

Section Theory.
Context {T : Type} `{EqDecision T}.
Implicit Types (b board : Board T) (p q : Position) (t : TilePiece T) (x : Ref T).

(** *** The grid *)

Lemma grid_rows_lookup (w : Z) (n : nat) (r0 : Z) (i : nat) (p : Position) :
  (seqZ r0 (Z.of_nat n) ≫= λ r, c ← seqZ 0 w; [{| row := r; col := c |}]) !! i = Some p ↔
  (r0 ≤ row p < r0 + Z.of_nat n)%Z ∧ (0 ≤ col p < w)%Z ∧
  Z.of_nat i = ((row p - r0) * w + col p)%Z.
Proof.
  revert r0 i. induction n as [|n IH]; intros r0 i.
  - rewrite (seqZ_nil r0) by lia. simpl. split; [done | intros ?; lia].
  - rewrite (seqZ_cons r0) by lia. rewrite bind_cons.
    replace (Z.pred (Z.of_nat (S n))) with (Z.of_nat n) by lia.
    assert (Hlen : length (seqZ 0 w ≫= λ c, [{| row := r0; col := c |}]) = Z.to_nat w).
    { rewrite <- (length_seqZ 0 w). generalize (seqZ 0 w). intros l.
      induction l as [|c l IHl]; [done|]. rewrite bind_cons. simpl. by rewrite IHl. }
    destruct (decide (i < Z.to_nat w)) as [Hi|Hi].
    + rewrite lookup_app_l by lia.
      assert (Hblock : ∀ (l : list Z) j,
        (l ≫= λ c, [{| row := r0; col := c |}]) !! j =
        (λ c, {| row := r0; col := c |}) <$> l !! j).
      { intros l. induction l as [|c l IHl]; intros j; [done|].
        rewrite bind_cons. destruct j; simpl; [done | apply IHl]. }
      rewrite Hblock, lookup_seqZ_lt by lia. simpl. split.
      * intros [= <-]. simpl. lia.
      * intros (Hr & Hc & Hidx). destruct p as [pr pc]. simpl in *.
        assert (pr = r0) by nia. subst pr. f_equal. f_equal. lia.
    + rewrite lookup_app_r by lia. rewrite Hlen, IH. split.
      * intros (Hr & Hc & Hidx). split; [lia|]. split; [lia|]. lia.
      * intros (Hr & Hc & Hidx).
        assert (row p ≠ r0) by (intros Heq; rewrite Heq in *; lia).
        split; [lia|]. split; [lia|]. nia.
Qed.

Lemma grid_lookup (w h : Z) (i : nat) (p : Position) :
  grid w h !! i = Some p ↔
  (0 ≤ row p < h)%Z ∧ (0 ≤ col p < w)%Z ∧ Z.of_nat i = (row p * w + col p)%Z.
Proof.
  unfold grid. destruct (decide (0 ≤ h)%Z) as [Hh|Hh].
  - rewrite <- (Z2Nat.id h) at 1 by done. rewrite grid_rows_lookup.
    rewrite Z2Nat.id by done. replace (row p - 0)%Z with (row p) by lia. lia.
  - rewrite (seqZ_nil 0 h) by lia. simpl. split; [done | intros ?; lia].
Qed.

Lemma grid_NoDup (w h : Z) : NoDup (grid w h).
Proof.
  apply NoDup_alt. intros i j p Hi Hj.
  apply grid_lookup in Hi as (_ & _ & Hi). apply grid_lookup in Hj as (_ & _ & Hj). lia.
Qed.

(** *** Lookup by position *)

Lemma Position_eq p q : row p = row q → col p = col q → p = q.
Proof. destruct p, q; simpl; congruence. Qed.

Lemma Find_Some board p x :
  FindTilePieceOnPosition board p = Some x →
  tilePieces board !! x.1 = Some x.2 ∧ position x.2 = p.
Proof.
  destruct x as [i t]. unfold FindTilePieceOnPosition. intros Hf.
  apply list_find_Some in Hf as (Hi & [Hc Hr] & _). split; [done|].
  by apply Position_eq.
Qed.

(** The index found depends on the tile positions only. *)
Lemma Find_index board p :
  indexOf (FindTilePieceOnPosition board p) =
  fst <$> list_find (λ q, col q = col p ∧ row q = row p) (position <$> tilePieces board).
Proof.
  unfold indexOf, FindTilePieceOnPosition. rewrite list_find_fmap.
  destruct (list_find _ (tilePieces board)) as [[i t]|]; done.
Qed.

Lemma Find_same_shape b b' p :
  same_shape b b' →
  indexOf (FindTilePieceOnPosition b p) = indexOf (FindTilePieceOnPosition b' p).
Proof. intros (_ & _ & Hpos). by rewrite !Find_index, Hpos. Qed.

Lemma wf_lookup b i t :
  wf b → tilePieces b !! i = Some t →
  in_bounds b (position t) ∧
  Z.of_nat i = (row (position t) * width b + col (position t))%Z.
Proof.
  intros Hwf Hi. assert (Hg : grid (width b) (height b) !! i = Some (position t)).
  { rewrite <- Hwf, list_lookup_fmap, Hi. done. }
  apply grid_lookup in Hg. unfold in_bounds. tauto.
Qed.

Lemma wf_Find_lookup b i t :
  wf b → tilePieces b !! i = Some t → FindTilePieceOnPosition b (position t) = Some (i, t).
Proof.
  intros Hwf Hi. unfold FindTilePieceOnPosition. apply list_find_Some.
  split; [done|]. split; [done|]. intros j y Hj Hlt [Hc Hr].
  apply (wf_lookup _ _ _ Hwf) in Hi as (_ & Hi).
  apply (wf_lookup _ _ _ Hwf) in Hj as (_ & Hj). rewrite Hc, Hr in Hj. lia.
Qed.

Lemma wf_Find_in b p :
  wf b → in_bounds b p →
  ∃ x, FindTilePieceOnPosition b p = Some x ∧
       Z.of_nat x.1 = (row p * width b + col p)%Z.
Proof.
  intros Hwf [Hr Hc].
  assert (Hg : grid (width b) (height b) !! Z.to_nat (row p * width b + col p) = Some p).
  { apply grid_lookup. split; [done|]. split; [done|]. rewrite Z2Nat.id; [done | nia]. }
  rewrite <- Hwf, list_lookup_fmap in Hg.
  destruct (tilePieces b !! _) as [t|] eqn:Ht; [|done]. injection Hg as <-.
  eexists. split; [by apply wf_Find_lookup|]. simpl. rewrite Z2Nat.id; [done | nia].
Qed.

Lemma wf_Find_out b p : wf b → ¬ in_bounds b p → FindTilePieceOnPosition b p = None.
Proof.
  intros Hwf Hout. destruct (FindTilePieceOnPosition b p) as [x|] eqn:Hf; [|done].
  apply Find_Some in Hf as [Hi <-]. by apply (wf_lookup _ _ _ Hwf) in Hi as [? _].
Qed.

Lemma IsPositionOutsideBoard_spec board p :
  IsPositionOutsideBoard board p = true ↔ in_bounds board p.
Proof.
  unfold IsPositionOutsideBoard, in_bounds. repeat case_bool_decide; split; try done; lia.
Qed.

Lemma same_shape_refl b : same_shape b b.
Proof. done. Qed.

Lemma same_shape_trans b1 b2 b3 : same_shape b1 b2 → same_shape b2 b3 → same_shape b1 b3.
Proof. unfold same_shape. intros (-> & -> & ->) (-> & -> & ->). done. Qed.

Lemma same_shape_sym b1 b2 : same_shape b1 b2 → same_shape b2 b1.
Proof. unfold same_shape. intros (-> & -> & ->). done. Qed.

Lemma same_shape_wf b b' : same_shape b b' → wf b → wf b'.
Proof. unfold same_shape, wf. intros (<- & <- & <-). done. Qed.

Lemma same_shape_in_bounds b b' p : same_shape b b' → in_bounds b p → in_bounds b' p.
Proof. unfold same_shape, in_bounds. intros (<- & <- & _). done. Qed.

Lemma position_alter_setValue (v : option T) (i : nat) (l : list (TilePiece T)) :
  position <$> alter (setValue v) i l = position <$> l.
Proof.
  apply list_eq. intros k. rewrite !list_lookup_fmap, list_lookup_alter.
  case_decide as Hk; [rewrite <- Hk|done]. by destruct (l !! i).
Qed.

(** *** Swapping values *)

Lemma swapProperties_positions (l l' : list (TilePiece T)) (i j : option nat) :
  swapProperties l i j = Ret l' → position <$> l' = position <$> l.
Proof.
  unfold swapProperties. intros Hs. repeat case_match; simplify_eq.
  by rewrite !position_alter_setValue.
Qed.

Lemma SwapPieces_same_shape b b' p q : SwapPieces b p q = Ret b' → same_shape b b'.
Proof.
  unfold SwapPieces. intros Hs. inv_bind Hs. injection Hs as <-.
  split; [done|]. split; [done|]. simpl. symmetry. by eapply swapProperties_positions.
Qed.

Lemma setValue_value t : setValue (value t) t = t.
Proof. by destruct t. Qed.

Lemma alter_setValue_id (l : list (TilePiece T)) (i : nat) t :
  l !! i = Some t → alter (setValue (value t)) i l = l.
Proof.
  intros Hi. apply list_eq. intros k. rewrite list_lookup_alter.
  case_decide as Hk; [|done]. subst k. by rewrite Hi; simpl; rewrite setValue_value.
Qed.

Lemma swapProperties_involutive (l l' : list (TilePiece T)) (i j : option nat) :
  swapProperties l i j = Ret l' → swapProperties l' i j = Ret l.
Proof.
  unfold swapProperties. intros Hs.
  destruct i as [i|], j as [j|]; simpl in *; try (repeat case_match; discriminate).
  destruct (l !! i) as [ti|] eqn:Hi; [|discriminate].
  destruct (l !! j) as [tj|] eqn:Hj; [|discriminate].
  injection Hs as <-. destruct (decide (i = j)) as [->|Hne].
  - assert (ti = tj) by congruence. subst tj.
    rewrite !(alter_setValue_id l j ti) by done. rewrite Hi.
    by rewrite !(alter_setValue_id l j ti) by done.
  - rewrite list_lookup_alter_ne, list_lookup_alter_eq, Hi by done.
    rewrite list_lookup_alter_eq, list_lookup_alter_ne, Hj by done. simpl.
    f_equal. apply list_eq. intros k. rewrite !list_lookup_alter.
    repeat case_decide; subst; try done;
      repeat match goal with Hl : ?a = Some _ |- context [?a] => rewrite Hl end;
      simpl; unfold setValue; simpl; first [by destruct ti | by destruct tj].
Qed.

Lemma SwapPieces_involutive b b' p q : SwapPieces b p q = Ret b' → SwapPieces b' p q = Ret b.
Proof.
  intros Hs. pose proof (SwapPieces_same_shape _ _ _ _ Hs) as Hsh.
  unfold SwapPieces in *. rewrite <- !(Find_same_shape b b') by done.
  inv_bind Hs. injection Hs as <-. simpl.
  rewrite (swapProperties_involutive _ _ _ _ Hx). simpl. by destruct b.
Qed.

Lemma wf_SwapPieces b p q :
  wf b → in_bounds b p → in_bounds b q → ∃ b', SwapPieces b p q = Ret b'.
Proof.
  intros Hwf Hp Hq.
  destruct (wf_Find_in b p Hwf Hp) as ([i ti] & Hfp & _).
  destruct (wf_Find_in b q Hwf Hq) as ([j tj] & Hfq & _).
  unfold SwapPieces. rewrite Hfp, Hfq. unfold swapProperties. simpl.
  apply Find_Some in Hfp as [Hp1 _]. apply Find_Some in Hfq as [Hq1 _]. simpl in *.
  rewrite Hp1, Hq1. simpl. eauto.
Qed.

(** *** The neighbour walk *)

Lemma advance_0 d p : advance d p 0 = p.
Proof. destruct d, p; simpl; f_equal; lia. Qed.

Lemma FindNextPiecePosition_advance x d :
  FindNextPiecePosition x d = advance d (position x.2) 1.
Proof. by destruct d. Qed.

Lemma advance_advance d p (n : Z) : advance d (advance d p 1) n = advance d p (1 + n).
Proof. destruct d, p; simpl; f_equal; lia. Qed.

(** What a walk appends: valid references to tiles holding [v], at the
    positions [p], [p] + 1, ... along the direction walked. *)
Lemma CheckNeighbours_run fuel b p (acc : list (Ref T)) v d :
  ∃ run, CheckNeighbours fuel b (FindTilePieceOnPosition b p) acc v d = acc ++ run ∧
         Forall (λ x, valid_ref b x ∧ value x.2 = v) run ∧
         (λ x : Ref T, position x.2) <$> run =
           (λ n : nat, advance d p (Z.of_nat n)) <$> seq 0 (length run).
Proof.
  revert p acc. induction fuel as [|fuel IH]; intros p acc.
  - simpl. destruct (FindTilePieceOnPosition b p) as [piece|] eqn:Hf.
    + destruct (decide (value piece.2 = v)) as [Hv|Hv].
      * exists [piece]. apply Find_Some in Hf as [Hl Hp]. split; [done|].
        split; [by repeat constructor|]. simpl. by rewrite advance_0, Hp.
      * exists []. by rewrite app_nil_r.
    + exists []. by rewrite app_nil_r.
  - simpl. destruct (FindTilePieceOnPosition b p) as [piece|] eqn:Hf.
    + destruct (decide (value piece.2 = v)) as [Hv|Hv].
      * destruct (IH (FindNextPiecePosition piece d) (acc ++ [piece])) as (run & -> & Hall & Hpos).
        apply Find_Some in Hf as [Hl Hp].
        exists (piece :: run). split; [by rewrite <- app_assoc|].
        split; [by constructor|]. cbn [length seq]. rewrite !fmap_cons.
        cbn [Z.of_nat]. rewrite advance_0, Hp. f_equal.
        rewrite Hpos, <- fmap_S_seq, <- list_fmap_compose.
        apply list_fmap_ext. intros _ n _. simpl.
        rewrite FindNextPiecePosition_advance, Hp, advance_advance. f_equal. lia.
      * exists []. by rewrite app_nil_r.
    + exists []. by rewrite app_nil_r.
Qed.

Lemma tilesAhead_step b d p x :
  FindTilePieceOnPosition b p = Some x →
  tilesAhead b d (FindNextPiecePosition x d) < tilesAhead b d p.
Proof.
  intros Hf. apply Find_Some in Hf as [Hl Hp]. unfold tilesAhead.
  rewrite FindNextPiecePosition_advance, Hp.
  rewrite <- (list_filter_filter_l (λ t, ahead d (advance d p 1) (position t))
                                   (λ t, ahead d p (position t))).
  - apply (length_filter_lt _ _ x.2).
    + apply list_elem_of_filter. split; [|by eapply list_elem_of_lookup_2].
      rewrite Hp. destruct d; simpl; lia.
    + rewrite Hp. destruct d; simpl; lia.
  - intros t. destruct d; simpl; lia.
Qed.

Lemma CheckNeighbours_enough n m b p (acc : list (Ref T)) v d :
  tilesAhead b d p ≤ n → tilesAhead b d p ≤ m →
  CheckNeighbours n b (FindTilePieceOnPosition b p) acc v d =
  CheckNeighbours m b (FindTilePieceOnPosition b p) acc v d.
Proof.
  revert m p acc. induction n as [|n IH]; intros m p acc Hn Hm;
    destruct (FindTilePieceOnPosition b p) as [piece|] eqn:Hf;
    try (by destruct m).
  - apply tilesAhead_step with (d := d) in Hf. lia.
  - destruct m as [|m]; [apply tilesAhead_step with (d := d) in Hf; lia|].
    simpl. case_decide; [|done].
    apply tilesAhead_step with (d := d) in Hf. apply IH; lia.
Qed.

(** The fuel given to a walk is never exhausted: any larger amount gives the
    same result. *)
Lemma CheckNeighbours_fuel n b x d :
  length (tilePieces b) ≤ n →
  CheckNeighbours n b (FindTilePieceOnPosition b (FindNextPiecePosition x d)) [] (value x.2) d
  = walk b x d.
Proof.
  intros Hn. unfold walk. apply CheckNeighbours_enough; [|apply length_filter].
  etrans; [apply length_filter | done].
Qed.

(** *** Scans *)

Lemma AllNeighboursInRowCheck_eq b : AllNeighboursInRowCheck b = neighbourCheck LEFT RIGHT b.
Proof. done. Qed.

Lemma AllNeighboursInColCheck_eq b : AllNeighboursInColCheck b = neighbourCheck UP DOWN b.
Proof. done. Qed.

Lemma scanLine_invariant (P : MatchResult T → Prop) (check : Ref T → MatchResult T)
    (line : list (Ref T)) :
  (∀ acc pre e post, line = pre ++ e :: post →
     value e.2 ∉ (λ x : Ref T, value x.2) <$> pre →
     P acc → P (addResult acc (check e))) →
  ∀ post pre checked acc,
    line = pre ++ post → (∀ x, x ∈ pre → value x.2 ∈ checked) → P acc →
    P (foldl (scanLine check) (checked, acc) post).2.
Proof.
  intros Hstep post. induction post as [|e post IH]; intros pre checked acc Hline Hchk HP.
  - done.
  - simpl. case_bool_decide as Hin.
    + apply (IH (pre ++ [e])); [by rewrite <- app_assoc| |done].
      intros x [Hx|Hx%list_elem_of_singleton]%elem_of_app; [by apply Hchk | by subst].
    + apply (IH (pre ++ [e])); [by rewrite <- app_assoc| |].
      * intros x [Hx|Hx%list_elem_of_singleton]%elem_of_app; apply elem_of_app.
        -- left. by apply Hchk.
        -- right. subst. by apply list_elem_of_singleton.
      * apply (Hstep acc pre e post Hline); [|done].
        intros (x & Hv & Hx)%list_elem_of_fmap. apply Hin. rewrite Hv. by apply Hchk.
Qed.

(** Induction over a scan: every neighbour check starts from an element [e]
    of a line none of whose predecessors in that line holds the same value. *)
Lemma scanLines_ind (P : MatchResult T → Prop) (check : Ref T → MatchResult T)
    (lines : list (list (Ref T))) :
  P noMatch →
  (∀ acc line pre e post, line ∈ lines → line = pre ++ e :: post →
     value e.2 ∉ (λ x : Ref T, value x.2) <$> pre →
     P acc → P (addResult acc (check e))) →
  P (scanLines check lines).
Proof.
  intros H0 Hstep. unfold scanLines.
  assert (Hgen : ∀ ls acc, ls ⊆ lines → P acc →
    P (foldl (λ acc elements, (foldl (scanLine check) ([], acc) elements).2) acc ls)).
  { intros ls. induction ls as [|line ls IH]; intros acc Hsub HP; [done|]. simpl.
    apply IH; [set_solver|].
    apply (scanLine_invariant P check line) with (pre := []); [|done|set_solver|done].
    intros acc' pre e post Hline. apply (Hstep acc' line pre e post); [set_solver | done]. }
  by apply Hgen.
Qed.

Lemma neighbourCheck_cases back forth b e :
  neighbourCheck back forth b e = noMatch ∨
  (3 ≤ length (walk b e back ++ [e] ++ walk b e forth) ∧
   neighbourCheck back forth b e =
     CreateBoardEffectForMatch (walk b e back ++ [e] ++ walk b e forth)).
Proof.
  unfold neighbourCheck. case_bool_decide; [right|by left].
  split; [|done]. rewrite !length_app. simpl. lia.
Qed.

Lemma coherent_noMatch : coherent (@noMatch T).
Proof. split; [done | constructor]. Qed.

Lemma coherent_addResult (acc r : MatchResult T) :
  coherent acc → coherent r → coherent (addResult acc r).
Proof.
  intros [Ha Fa] [Hr Fr]. split; simpl.
  - rewrite !app_nil. tauto.
  - by apply Forall_app.
Qed.

Lemma coherent_neighbourCheck back forth b e : coherent (neighbourCheck back forth b e).
Proof.
  destruct (neighbourCheck_cases back forth b e) as [->|[Hlen ->]];
    [apply coherent_noMatch|].
  split; simpl.
  - split; [|done]. intros Hnil. by destruct (walk b e back).
  - by repeat constructor.
Qed.

Lemma coherent_scanLines back forth b lines :
  coherent (scanLines (neighbourCheck back forth b) lines).
Proof.
  apply scanLines_ind; [apply coherent_noMatch|]. intros. apply coherent_addResult; [done|].
  apply coherent_neighbourCheck.
Qed.

Lemma coherent_rows b : coherent (FindAllRowMatches b).
Proof. apply coherent_scanLines. Qed.

Lemma coherent_columns b : coherent (FindAllColumnMatches b).
Proof. apply coherent_scanLines. Qed.

(** The elements of a line are references into the board, in array order. *)
Lemma line_valid (P : Ref T → Prop) `{!∀ x, Decision (P x)} b x :
  x ∈ filter P (imap pair (tilePieces b)) → valid_ref b x.
Proof.
  intros [_ Hx]%list_elem_of_filter.
  apply elem_of_lookup_imap in Hx as (i & t & -> & Hi). done.
Qed.

Lemma line_sorted (P : Ref T → Prop) `{!∀ x, Decision (P x)} (l : list (TilePiece T)) :
  StronglySorted (λ x y : Ref T, x.1 < y.1) (filter P (imap pair l)).
Proof.
  assert (Hgen : ∀ k, StronglySorted (λ x y : Ref T, x.1 < y.1)
                        (filter P (imap (λ i, pair (k + i)) l))).
  { induction l as [|t l IH]; intros k; [constructor|].
    rewrite imap_cons.
    assert (Htail : imap ((λ i, pair (k + i)) ∘ S) l = imap (λ i, pair (S k + i)) l).
    { apply imap_ext. intros i x _. simpl. f_equal. lia. }
    rewrite Htail, filter_cons. case_decide; [|apply IH].
    apply StronglySorted_cons. split; [|apply IH].
    apply Forall_forall. intros y [_ Hy]%list_elem_of_filter.
    apply elem_of_lookup_imap in Hy as (i & x & -> & _). simpl. lia. }
  apply (Hgen 0).
Qed.

Lemma line_before (P : Ref T → Prop) `{!∀ x, Decision (P x)} b pre e post x :
  filter P (imap pair (tilePieces b)) = pre ++ e :: post →
  valid_ref b x → P x → x.1 < e.1 → x ∈ pre.
Proof.
  intros Hline Hx HP Hlt.
  assert (Hin : x ∈ pre ++ e :: post).
  { rewrite <- Hline. apply list_elem_of_filter. split; [done|].
    destruct x as [i t]. by apply (elem_of_lookup_imap_2 pair). }
  pose proof (line_sorted P (tilePieces b)) as Hs. rewrite Hline in Hs.
  apply elem_of_app in Hin as [Hin|Hin]; [done|]. exfalso.
  apply StronglySorted_app_1_r, StronglySorted_cons in Hs as [Hall _].
  apply elem_of_cons in Hin as [->|Hin]; [lia|].
  rewrite Forall_forall in Hall. apply Hall in Hin. lia.
Qed.

Lemma walk_stops b e d :
  (∀ x, FindTilePieceOnPosition b (FindNextPiecePosition e d) = Some x →
        value x.2 ≠ value e.2) →
  walk b e d = [].
Proof.
  intros Hne. unfold walk.
  destruct (FindTilePieceOnPosition b (FindNextPiecePosition e d)) as [x|] eqn:Hf.
  - specialize (Hne x eq_refl). destruct (length (tilePieces b)); simpl; by case_decide.
  - by destruct (length (tilePieces b)).
Qed.

(** The walk back from the first occurrence of a value in its line collects
    nothing: the tile behind it was scanned earlier and holds another value. *)
Lemma back_walk_empty (P : Ref T → Prop) `{!∀ x, Decision (P x)} back b pre e post :
  wf b → back = LEFT ∨ back = UP →
  filter P (imap pair (tilePieces b)) = pre ++ e :: post →
  value e.2 ∉ (λ x : Ref T, value x.2) <$> pre →
  (∀ x, valid_ref b x → position x.2 = FindNextPiecePosition e back → P x) →
  walk b e back = [].
Proof.
  intros Hwf Hback Hline Hfirst HP. apply walk_stops. intros x Hf Hv.
  apply Find_Some in Hf as [Hx Hpos].
  assert (He : valid_ref b e).
  { apply (line_valid P). rewrite Hline. apply elem_of_app. right. apply elem_of_cons. by left. }
  apply Hfirst. rewrite <- Hv. apply list_elem_of_fmap. exists x. split; [done|].
  apply (line_before P b pre e post); [done|done|by apply HP|].
  destruct (wf_lookup b _ _ Hwf Hx) as [_ Hix].
  destruct (wf_lookup b _ _ Hwf He) as [[_ Hc] Hie].
  rewrite Hpos in Hix. destruct Hback as [Hb|Hb]; rewrite Hb in Hix; simpl in Hix; nia.
Qed.

Lemma wf_tilePiece_valid b x :
  wf b → valid_ref b x → tilePiece b (position x.2) = Ret (value x.2).
Proof.
  destruct x as [i t]. unfold valid_ref. simpl. intros Hwf Hx. unfold tilePiece.
  destruct (wf_lookup b _ _ Hwf Hx) as [Hin _].
  apply IsPositionOutsideBoard_spec in Hin. rewrite Hin. simpl.
  by rewrite (wf_Find_lookup b i t).
Qed.

Lemma walk_run b e d :
  Forall (λ x, valid_ref b x ∧ value x.2 = value e.2) (walk b e d) ∧
  (λ x : Ref T, position x.2) <$> walk b e d =
    (λ n : nat, advance d (FindNextPiecePosition e d) (Z.of_nat n)) <$>
    seq 0 (length (walk b e d)).
Proof.
  unfold walk.
  destruct (CheckNeighbours_run (length (tilePieces b)) b (FindNextPiecePosition e d) []
              (value e.2) d) as (r & -> & Hall & Hpos).
  done.
Qed.

Lemma neighbourCheck_valid back forth b e :
  valid_ref b e → Forall (valid_ref b) (matches (neighbourCheck back forth b e)).
Proof.
  intros He. destruct (neighbourCheck_cases back forth b e) as [->|[_ ->]]; [constructor|].
  simpl. apply Forall_app. split; [|constructor; [done|]].
  - eapply Forall_impl; [apply (walk_run b e back)|]. by intros x [? _].
  - eapply Forall_impl; [apply (walk_run b e forth)|]. by intros x [? _].
Qed.

Lemma neighbourCheck_good back forth b e :
  wf b → valid_ref b e → walk b e back = [] →
  Forall (good_match forth b) (boardEffects (neighbourCheck back forth b e)).
Proof.
  intros Hwf He Hback.
  destruct (neighbourCheck_cases back forth b e) as [->|[Hlen ->]]; [constructor|].
  rewrite Hback in Hlen |- *. rewrite app_nil_l in Hlen |- *.
  change ([e] ++ walk b e forth) with (e :: walk b e forth) in *.
  unfold CreateBoardEffectForMatch. cbn [boardEffects]. apply Forall_singleton.
  unfold good_match. cbn [positions matched head]. rewrite fmap_cons.
  destruct (walk_run b e forth) as [Hall Hpos]. cbn [length] in Hlen.
  exists (position e.2), (S (length (walk b e forth))). split; [lia|]. split.
  - unfold run. cbn [seq]. rewrite fmap_cons. cbn [Z.of_nat]. rewrite advance_0. f_equal.
    rewrite Hpos, <- fmap_S_seq, <- list_fmap_compose.
    apply list_fmap_ext. intros _ n _. simpl.
    rewrite FindNextPiecePosition_advance, advance_advance. f_equal. lia.
  - intros q [->|Hq]%elem_of_cons; [by apply wf_tilePiece_valid|].
    apply list_elem_of_fmap in Hq as (x & -> & Hx).
    rewrite Forall_forall in Hall. destruct (Hall x Hx) as [Hvx Hv].
    simpl. rewrite <- Hv. by apply wf_tilePiece_valid.
Qed.

Lemma rows_valid b : Forall (valid_ref b) (matches (FindAllRowMatches b)).
Proof.
  apply (scanLines_ind (λ acc, Forall (valid_ref b) (matches acc))); [constructor|].
  intros acc line pre e post (k & -> & _)%list_elem_of_fmap Hline _ Hacc.
  apply Forall_app. split; [done|]. apply neighbourCheck_valid.
  eapply line_valid. unfold FindAllTilePiecesInRow in Hline. rewrite Hline. set_solver.
Qed.

Lemma columns_valid b : Forall (valid_ref b) (matches (FindAllColumnMatches b)).
Proof.
  apply (scanLines_ind (λ acc, Forall (valid_ref b) (matches acc))); [constructor|].
  intros acc line pre e post (k & -> & _)%list_elem_of_fmap Hline _ Hacc.
  apply Forall_app. split; [done|]. apply neighbourCheck_valid.
  eapply line_valid. unfold FindAllTilePiecesInColumn in Hline. rewrite Hline. set_solver.
Qed.

(** Row matches run along increasing columns, from the first tile holding the
    value in its row. *)
Lemma rows_good b :
  wf b → Forall (good_match RIGHT b) (boardEffects (FindAllRowMatches b)).
Proof.
  intros Hwf.
  apply (scanLines_ind (λ acc, Forall (good_match RIGHT b) (boardEffects acc))); [constructor|].
  intros acc line pre e post (k & -> & _)%list_elem_of_fmap Hline Hfirst Hacc.
  unfold FindAllTilePiecesInRow in Hline.
  assert (He : e ∈ filter (λ x : Ref T, row (position x.2) = k) (imap pair (tilePieces b)))
    by (rewrite Hline; set_solver).
  apply Forall_app. split; [done|]. rewrite AllNeighboursInRowCheck_eq.
  apply neighbourCheck_good; [done|by eapply line_valid|].
  eapply (back_walk_empty _ LEFT); [done|by left|done|done|].
  intros x _ Hx. simpl. rewrite Hx. apply list_elem_of_filter in He as [He _]. done.
Qed.

Lemma columns_good b :
  wf b → Forall (good_match DOWN b) (boardEffects (FindAllColumnMatches b)).
Proof.
  intros Hwf.
  apply (scanLines_ind (λ acc, Forall (good_match DOWN b) (boardEffects acc))); [constructor|].
  intros acc line pre e post (k & -> & _)%list_elem_of_fmap Hline Hfirst Hacc.
  unfold FindAllTilePiecesInColumn in Hline.
  assert (He : e ∈ filter (λ x : Ref T, col (position x.2) = k) (imap pair (tilePieces b)))
    by (rewrite Hline; set_solver).
  apply Forall_app. split; [done|]. rewrite AllNeighboursInColCheck_eq.
  apply neighbourCheck_good; [done|by eapply line_valid|].
  eapply (back_walk_empty _ UP); [done|by right|done|done|].
  intros x _ Hx. simpl. rewrite Hx. apply list_elem_of_filter in He as [He _]. done.
Qed.

(** C7: the column scan starts one index past the last column; on a board
    built by [create] no tile has that column, the extra iteration scans an
    empty line, and the result is that of scanning the valid columns only. *)
Theorem FindAllColumnMatches_extra_column b :
  wf b →
  FindAllTilePiecesInColumn b (width b) = [] ∧
  FindAllColumnMatches b = FindAllColumnMatches_valid b.
Proof.
  intros Hwf.
  assert (Hnil : FindAllTilePiecesInColumn b (width b) = []).
  { destruct (FindAllTilePiecesInColumn b (width b)) as [|e l] eqn:Hl; [done|]. exfalso.
    assert (He : e ∈ FindAllTilePiecesInColumn b (width b)) by (rewrite Hl; set_solver).
    apply list_elem_of_filter in He as He'. destruct He' as [Hcol _].
    apply line_valid in He. destruct (wf_lookup b _ _ Hwf He) as [[_ Hc] _]. lia. }
  split; [done|]. unfold FindAllColumnMatches, FindAllColumnMatches_valid.
  destruct (decide (0 ≤ width b)%Z) as [Hw|Hw].
  - rewrite seqZ_app by lia. rewrite (seqZ_cons _ 1) by lia. rewrite (seqZ_nil _ (Z.pred 1)) by lia.
    rewrite reverse_snoc, fmap_cons. replace (0 + width b)%Z with (width b) by lia.
    by rewrite Hnil.
  - by rewrite !seqZ_nil by lia.
Qed.

(** *** The move validator *)

Lemma IsMoveLegal_board b p q legal b' : IsMoveLegal b p q = Ret (legal, b') → b' = b.
Proof.
  unfold IsMoveLegal. intros Hm. repeat case_match; simplify_eq; try done.
  all: inv_bind Hm; inv_bind Hm; apply SwapPieces_involutive in Hx;
    repeat case_match; simplify_eq; congruence.
Qed.

Lemma wf_IsMoveLegal b p q : wf b → ∃ legal, IsMoveLegal b p q = Ret (legal, b).
Proof.
  intros Hwf. destruct (IsMoveLegal b p q) as [[legal b']| |] eqn:Hm.
  - apply IsMoveLegal_board in Hm as Hb. subst. eauto.
  - exfalso. unfold IsMoveLegal in Hm.
    destruct (IsPositionOutsideBoard b p) eqn:Hp; [|done].
    destruct (IsPositionOutsideBoard b q) eqn:Hq; [|done].
    apply IsPositionOutsideBoard_spec in Hp, Hq. simpl in Hm.
    repeat case_match; try done.
    destruct (wf_SwapPieces b p q Hwf Hp Hq) as [b1 Hs]. rewrite Hs in Hm. simpl in Hm.
    rewrite (SwapPieces_involutive _ _ _ _ Hs) in Hm. simpl in Hm. by case_match.
  - exfalso. unfold IsMoveLegal, SwapPieces, swapProperties in Hm.
    repeat (case_match; simpl in *; simplify_eq).
Qed.

(** C3: [canMove] answers [false], without throwing and leaving the board as
    it was, when the two positions are equal, when they share neither a row
    nor a column, or when either lies outside the board.  Adjacency is not
    required: on the 4 by 4 test board the swap of (2,1) and (0,1), two rows
    apart, is legal. *)
Theorem canMove_fails_closed b p q :
  p = q ∨ (row p ≠ row q ∧ col p ≠ col q) ∨ ¬ in_bounds b p ∨ ¬ in_bounds b q →
  canMove b p q = Ret (false, b) ∧
  canMove board4x4 (at_ 2 1) (at_ 0 1) = Ret (true, board4x4).
Proof.
  intros Hc. split; [|by vm_compute]. unfold canMove, IsMoveLegal.
  destruct (IsPositionOutsideBoard b p) eqn:Hp; [|done].
  destruct (IsPositionOutsideBoard b q) eqn:Hq; [|done].
  apply IsPositionOutsideBoard_spec in Hp, Hq. simpl.
  destruct Hc as [->|[[Hr Hcl]|[?|?]]]; try done.
  - repeat case_bool_decide; simpl; done.
  - repeat case_bool_decide; simpl; done.
Qed.

(** C4: a [canMove] call on a board built by [create] returns, and the board
    after the call is the board before it, whatever the two positions. *)
Theorem canMove_leaves_board b p q :
  wf b → ∃ legal, canMove b p q = Ret (legal, b).
Proof. apply wf_IsMoveLegal. Qed.

(** C8: the public read returns [undefined] outside the board and the value
    of the addressed tile inside it; it does not throw. *)
Theorem tilePiece_total b p :
  wf b →
  ((row p < 0 ∨ height b ≤ row p ∨ col p < 0 ∨ width b ≤ col p)%Z →
     tilePiece b p = Ret None) ∧
  ((0 ≤ row p < height b ∧ 0 ≤ col p < width b)%Z →
     ∃ t, tilePieces b !! Z.to_nat (row p * width b + col p) = Some t ∧
          position t = p ∧ tilePiece b p = Ret (value t)).
Proof.
  intros Hwf. unfold tilePiece. split.
  - intros Hout. destruct (IsPositionOutsideBoard b p) eqn:Hp; [|done].
    apply IsPositionOutsideBoard_spec in Hp. unfold in_bounds in Hp. lia.
  - intros Hin. assert (Hb : in_bounds b p) by done.
    apply IsPositionOutsideBoard_spec in Hb as Hp. rewrite Hp. simpl.
    destruct (wf_Find_in b p Hwf Hb) as ([i t] & Hf & Hi). rewrite Hf. simpl in *.
    apply Find_Some in Hf as [Hl Hpos]. simpl in *.
    exists t. rewrite <- Hi, Nat2Z.id. done.
Qed.

(** *** Loops *)

Lemma for_each_app {A S : Type} (body : S → A → Res S) (s : S) (l1 l2 : list A) :
  for_each body s (l1 ++ l2) = for_each body s l1 ≫= λ s', for_each body s' l2.
Proof.
  revert s. induction l1 as [|a l1 IH]; intros s; [done|]. simpl.
  destruct (body s a); simpl; [apply IH | done | done].
Qed.

Lemma for_each_inv {A S : Type} (I : S → Prop) (body : S → A → Res S) (l : list A) s s' :
  (∀ s1 a s2, a ∈ l → I s1 → body s1 a = Ret s2 → I s2) →
  I s → for_each body s l = Ret s' → I s'.
Proof.
  revert s. induction l as [|a l IH]; intros s Hstep HI Hf.
  - by injection Hf as <-.
  - simpl in Hf. inv_bind Hf. eapply IH; [|by eapply (Hstep s a); [set_solver|..]|done].
    intros s1 y s2 Hy. apply Hstep. set_solver.
Qed.

(** Nested row and column loops visit the cells of the grid in order. *)
Lemma for_each_grid {S : Type} (f : S → Z → Z → Res S) (s : S) (w h : Z) :
  for_each (λ st r, for_each (λ st c, f st r c) st (seqZ 0 w)) s (seqZ 0 h) =
  for_each (λ st p, f st (row p) (col p)) s (grid w h).
Proof.
  unfold grid. generalize (seqZ 0 h), (seqZ 0 w). intros rs cs.
  revert s. induction rs as [|r rs IH]; intros s; [done|].
  rewrite bind_cons, for_each_app. simpl.
  assert (Hin : ∀ s, for_each (λ st c, f st r c) s cs =
                     for_each (λ st p, f st (row p) (col p)) s
                       (cs ≫= λ c, [{| row := r; col := c |}])).
  { clear. induction cs as [|c cs IHc]; intros s; [done|].
    rewrite bind_cons. simpl. destruct (f s r c); simpl; [apply IHc | done | done]. }
  rewrite Hin. destruct (for_each _ s (cs ≫= _)); simpl; [apply IH | done | done].
Qed.

(** *** Clearing, shifting and refilling keep the shape of the board *)

Lemma clear_positions (ms : list (Ref T)) (l : list (TilePiece T)) :
  position <$> foldl (λ pieces (m : Ref T), alter (setValue None) m.1 pieces) l ms
  = position <$> l.
Proof.
  revert l. induction ms as [|m ms IH]; intros l; [done|]. simpl.
  by rewrite IH, position_alter_setValue.
Qed.

Lemma MatchValuesRemoved_same_shape b rs cs : same_shape b (MatchValuesRemoved b rs cs).
Proof.
  split; [done|]. split; [done|]. simpl. by rewrite !clear_positions.
Qed.

Lemma ShiftElementsInColumn_same_shape b fromRow c b' :
  ShiftElementsInColumn b fromRow c = Ret b' → same_shape b b'.
Proof.
  unfold ShiftElementsInColumn. apply (for_each_inv (same_shape b)); [|done].
  intros b1 r b2 _ Hsh Hs. eapply same_shape_trans; [done|].
  by eapply SwapPieces_same_shape.
Qed.

Section Cascade.
Context {G : Type} `{!Generator T G}.
Implicit Types (g : G) (effs : list (BoardEffect T)).

Lemma UpdateBoard_cell_same_shape b g r c b' g' :
  UpdateBoard_cell (b, g) r c = Ret (b', g') → same_shape b b'.
Proof.
  unfold UpdateBoard_cell. intros Hc. repeat case_match; simplify_eq; [|done].
  inv_bind Hc. inv_bind Hc. repeat case_match; simplify_eq.
  apply ShiftElementsInColumn_same_shape in Hx. eapply same_shape_trans; [done|].
  split; [done|]. split; [done|]. simpl. by rewrite position_alter_setValue.
Qed.

Lemma UpdateBoard_loops_grid b g :
  UpdateBoard_loops b g =
  for_each (λ st p, UpdateBoard_cell st (row p) (col p)) (b, g) (grid (width b) (height b)).
Proof. unfold UpdateBoard_loops. apply for_each_grid. Qed.

Lemma UpdateBoard_loops_same_shape b g b' g' :
  UpdateBoard_loops b g = Ret (b', g') → same_shape b b'.
Proof.
  rewrite UpdateBoard_loops_grid. intros Hl.
  apply (for_each_inv (λ st, same_shape b st.1)) in Hl; [done| |done].
  intros [b1 g1] p [b2 g2] _ Hsh Hc. simpl in *. eapply same_shape_trans; [done|].
  by eapply UpdateBoard_cell_same_shape.
Qed.

(** *** Construction *)

Lemma Init_positions (cells : list Position) (pieces pieces' : list (TilePiece T)) g g' :
  for_each (λ (st : list (TilePiece T) * G) p,
      let '(pieces, generator) := st in
      '(v, generator) ← next generator;
      Ret (pieces ++ [{| value := Some v; position := {| row := row p; col := col p |} |}],
           generator)) (pieces, g) cells = Ret (pieces', g') →
  position <$> pieces' = (position <$> pieces) ++ cells.
Proof.
  revert pieces g. induction cells as [|p cells IH]; intros pieces g Hf.
  - injection Hf as <- <-. by rewrite app_nil_r.
  - cbn [for_each] in Hf. inv_bind Hf. inv_bind Hx. destruct x0 as [v g1].
    injection Hx as <-. apply IH in Hf. rewrite Hf, fmap_app, <- app_assoc. simpl.
    by destruct p.
Qed.

(** Every board [create] returns is well formed. *)
Lemma create_wf g w h b g' :
  create g w h = Ret (b, g') → wf b ∧ width b = w ∧ height b = h.
Proof.
  unfold create. intros Hc. inv_bind Hc. destruct x as [pieces g1]. injection Hc as <- <-.
  split; [|done]. unfold wf. simpl. unfold Init in Hx.
  rewrite (for_each_grid (λ (st : list (TilePiece T) * G) r c,
      let '(pieces, generator) := st in
      '(v, generator) ← next generator;
      Ret (pieces ++ [{| value := Some v; position := {| row := r; col := c |} |}],
           generator))) in Hx.
  by apply Init_positions in Hx.
Qed.

(** *** The shape of an effect log *)

Lemma quiescent_no_effects b :
  quiescent b →
  boardEffects (FindAllRowMatches b) = [] ∧ boardEffects (FindAllColumnMatches b) = [].
Proof.
  intros [Hr Hc]. split; [by apply (coherent_rows b) | by apply (coherent_columns b)].
Qed.

Lemma CheckBoard_test b :
  negb (bool_decide (length (matches (FindAllRowMatches b)) = 0))
  || negb (bool_decide (length (matches (FindAllColumnMatches b)) = 0)) = false
  ↔ quiescent b.
Proof.
  unfold quiescent. rewrite orb_false_iff, !negb_false_iff, !bool_decide_eq_true.
  by rewrite !length_zero_iff_nil.
Qed.

(** A cascade has one run: the boards of its passes and where it rests are
    fixed by the board and the supplier it starts from. *)
Lemma cascade_functional (rows cols : Board T → list (Ref T)) b g boards b' g'
    boards2 b2 g2 :
  cascade rows cols b g boards b' g' → cascade rows cols b g boards2 b2 g2 →
  boards2 = boards ∧ b2 = b' ∧ g2 = g'.
Proof.
  intros Hc. revert boards2 b2 g2.
  induction Hc as [b g Hr Hcl|b g b1 g1 boards b' g' Hne Hl _ IH]; intros boards2 b2 g2 Hc2.
  - inversion Hc2 as [|? ? ? ? ? ? ? Hne2]; subst; [done|]. by destruct Hne2.
  - inversion Hc2 as [? ? Hr Hcl|? ? b1' g1' boards' ? ? _ Hl' Hc']; subst;
      [by destruct Hne|].
    rewrite Hl in Hl'. injection Hl' as <- <-.
    destruct (IH _ _ _ Hc') as (-> & -> & ->). done.
Qed.

(** Every pass of a cascade starts on a board of the shape of the first that
    still has a matched tile, the first pass on the first board; the cascade
    rests on a board of that shape on which no tile is matched. *)
Lemma cascade_boards (rows cols : Board T → list (Ref T)) b g boards b' g' :
  cascade rows cols b g boards b' g' →
  Forall (λ bi, same_shape b bi ∧ ¬ (rows bi = [] ∧ cols bi = [])) boards ∧
  same_shape b b' ∧ rows b' = [] ∧ cols b' = [] ∧
  (¬ (rows b = [] ∧ cols b = []) → head boards = Some b).
Proof.
  induction 1 as [b g Hr Hcl|b g b1 g1 boards b' g' Hne Hl _ (Hall & Hsh' & Hr & Hcl & _)].
  - split; [constructor|]. split; [done|]. split; [done|]. split; [done|]. tauto.
  - apply UpdateBoard_loops_same_shape in Hl.
    assert (Hsh : same_shape b b1).
    { eapply same_shape_trans; [apply MatchValuesRemoved_same_shape | done]. }
    split; [|split; [by eapply same_shape_trans|done]].
    constructor; [done|]. eapply Forall_impl; [done|]. intros bi [Hbi ?].
    split; [by eapply same_shape_trans | done].
Qed.

(** A returned cascade is a sequence of passes, each on a board of the same
    shape that still had a match, followed by a last look at a quiescent board. *)
Lemma CheckBoard_log fuel b g effs b' g' effs' :
  CheckBoard fuel b g effs MatchValuesRemoved = Ret (b', g', effs') →
  ∃ boards, effs' = effs ++ (boards ≫= pass_log) ∧
            Forall (λ bi, same_shape b bi ∧ ¬ quiescent bi) boards ∧
            same_shape b b' ∧ quiescent b' ∧
            (¬ quiescent b → head boards = Some b) ∧
            passes b g boards b' g'.
Proof.
  revert b g effs. induction fuel as [|fuel IH]; intros b g effs Hc; [done|].
  simpl in Hc.
  destruct (negb _ || negb _) eqn:Htest.
  - unfold UpdateBoard in Hc. inv_bind Hc. destruct x as [b1 g1].
    apply UpdateBoard_loops_same_shape in Hx as Hsh1.
    pose proof (MatchValuesRemoved_same_shape b (matches (FindAllRowMatches b))
                  (matches (FindAllColumnMatches b))) as Hrem.
    assert (Hsh : same_shape b b1) by by eapply same_shape_trans.
    assert (Hnq : ¬ quiescent b) by (intros Hqb%CheckBoard_test; congruence).
    apply IH in Hc as (boards & -> & Hall & Hsh' & Hq & _ & Hpass).
    exists (b :: boards). split; [|split; [|split; [|split; [|split; [done|]]]]].
    + rewrite bind_cons. unfold pass_log at 2. by rewrite <- !app_assoc.
    + constructor; [done|].
      eapply Forall_impl; [done|]. intros bi [Hbi ?]. split; [|done].
      by eapply same_shape_trans.
    + by eapply same_shape_trans.
    + done.
    + by eapply (cascade_pass _ _ b g b1 g1).
  - apply CheckBoard_test in Htest as Hq. injection Hc as <- <- <-.
    exists []. destruct (quiescent_no_effects b Hq) as [-> ->].
    split; [by rewrite !app_nil_r|]. split; [done|]. split; [done|]. split; [done|].
    split; [done|]. destruct Hq as [Hr Hcl]. by apply cascade_rest.
Qed.

Lemma last_passes (boards : list (Board T)) :
  boards ≠ [] → last (boards ≫= pass_log) = Some RefillEffect.
Proof.
  destruct boards as [|b0 boards _] using rev_ind; [done|]. intros _.
  rewrite bind_app, bind_singleton. unfold pass_log at 2.
  by rewrite !app_assoc, last_snoc.
Qed.

Lemma passes_nil (boards : list (Board T)) : boards ≫= pass_log = [] → boards = [].
Proof.
  destruct boards as [|b0 boards]; [done|]. rewrite bind_cons. unfold pass_log at 1.
  intros Hnil. apply (f_equal length) in Hnil. rewrite !length_app in Hnil. simpl in Hnil. lia.
Qed.

Lemma IsMoveLegal_true b p q b' :
  IsMoveLegal b p q = Ret (true, b') →
  ∃ b1, SwapPieces b p q = Ret b1 ∧ ¬ quiescent b1.
Proof.
  unfold IsMoveLegal. intros Hm. repeat case_match; simplify_eq.
  inv_bind Hm. inv_bind Hm. exists x. split; [done|].
  intros [Hr Hc]. rewrite Hr, Hc in Hm. done.
Qed.

(** What a returned [move] did: nothing on an illegal swap; on a legal one the
    swap, then one pass per board that still had a match, the first of them
    the swapped board. *)
Lemma move_log fuel g b p q r g' :
  move fuel g b p q = Ret (r, g') →
  (IsMoveLegal b p q = Ret (false, b) ∧ r = {| board := b; moveEffects := [] |} ∧ g' = g) ∨
  (IsMoveLegal b p q = Ret (true, b) ∧
   ∃ boards, boards ≠ [] ∧ moveEffects r = boards ≫= pass_log ∧
             Forall (λ bi, same_shape b bi ∧ ¬ quiescent bi) boards ∧
             same_shape b (board r) ∧ quiescent (board r) ∧
             ∃ b1, SwapPieces b p q = Ret b1 ∧ head boards = Some b1 ∧
                   passes b1 g boards (board r) g').
Proof.
  unfold move. intros Hm. inv_bind Hm. destruct x as [legal b0].
  apply IsMoveLegal_board in Hx as Hb. subst b0. destruct legal.
  - right. split; [done|]. inv_bind Hm. inv_bind Hm. destruct x0 as [[b2 g2] effs].
    injection Hm as <- <-. simpl.
    apply IsMoveLegal_true in Hx as (b1 & Hs & Hnq). rewrite Hs in Hx0. injection Hx0 as <-.
    apply SwapPieces_same_shape in Hs as Hsh1.
    apply CheckBoard_log in Hx1 as (boards & -> & Hall & Hsh & Hq & Hhead & Hpass).
    specialize (Hhead Hnq).
    exists boards. split; [|split; [done|split; [|split; [|split; [done|]]]]].
    + intros ->. done.
    + eapply Forall_impl; [done|]. intros bi [Hbi ?]. split; [|done].
      by eapply same_shape_trans.
    + by eapply same_shape_trans.
    + by exists b1.
  - left. by injection Hm as <- <-.
Qed.

(** C6: the effect log of a returned [move] is the log of its passes, one
    after the other.  The passes are those the cascade runs from the swapped
    board: each starts on a board that still has a match, lists the [Match]
    effects of its row scan, then those of its column scan, then one
    [Refill]; an illegal move has no pass.  A log that is not empty ends in
    [Refill]. *)
Theorem move_effect_order fuel g b p q r g' :
  move fuel g b p q = Ret (r, g') →
  ∃ boards,
    ((canMove b p q = Ret (false, b) ∧ boards = []) ∨
     (∃ b1, canMove b p q = Ret (true, b) ∧ SwapPieces b p q = Ret b1 ∧
            head boards = Some b1 ∧ passes b1 g boards (board r) g')) ∧
    moveEffects r =
      boards ≫= (λ bi, boardEffects (FindAllRowMatches bi)
                        ++ boardEffects (FindAllColumnMatches bi) ++ [RefillEffect]) ∧
    Forall (λ bi, same_shape b bi ∧ ¬ quiescent bi ∧
                  Forall is_match (boardEffects (FindAllRowMatches bi)) ∧
                  Forall is_match (boardEffects (FindAllColumnMatches bi))) boards ∧
    (moveEffects r ≠ [] → last (moveEffects r) = Some RefillEffect).
Proof.
  intros [(Hill & -> & _)|(Hleg & boards & Hne & Hlog & Hall & _ & _ & b1 & Hs & Hhead & Hpass)]%move_log.
  - exists []. split; [by left|]. simpl. done.
  - exists boards. split; [right; by exists b1|]. split; [done|]. split.
    + eapply Forall_impl; [done|]. intros bi [Hbi Hnq]. split; [done|]. split; [done|].
      split; [apply coherent_rows | apply coherent_columns].
    + intros _. rewrite Hlog. by apply last_passes.
Qed.

(** C10: every [Match] effect in the log of a returned [move] lists at least
    three consecutive positions, by increasing column (a row match) or by
    increasing row (a column match), and on the board of the pass that found
    it every listed tile holds the matched value.  The passes are those the
    cascade runs from the swapped board, and the log is theirs: for each in
    turn the effects of the row scan, those of the column scan and a
    [Refill].  The scan explores a value from its first tile in the line, so
    on every board of the shape of [b] the walk back ([LEFT], [UP]) from an
    explored tile collects nothing. *)
Theorem move_matches_are_runs fuel g b p q r g' :
  wf b → move fuel g b p q = Ret (r, g') →
  (∃ boards,
     ((canMove b p q = Ret (false, b) ∧ boards = []) ∨
      (∃ b1, canMove b p q = Ret (true, b) ∧ SwapPieces b p q = Ret b1 ∧
             head boards = Some b1 ∧ passes b1 g boards (board r) g')) ∧
     moveEffects r = boards ≫= pass_log ∧
     Forall (λ bi, same_shape b bi ∧
                   Forall (good_match RIGHT bi) (boardEffects (FindAllRowMatches bi)) ∧
                   Forall (good_match DOWN bi) (boardEffects (FindAllColumnMatches bi)))
       boards) ∧
  (∀ bi k pre e post,
     same_shape b bi → FindAllTilePiecesInRow bi k = pre ++ e :: post →
     value e.2 ∉ (λ x : Ref T, value x.2) <$> pre → walk bi e LEFT = []) ∧
  (∀ bi k pre e post,
     same_shape b bi → FindAllTilePiecesInColumn bi k = pre ++ e :: post →
     value e.2 ∉ (λ x : Ref T, value x.2) <$> pre → walk bi e UP = []).
Proof.
  intros Hwf Hm. split; [|split].
  - apply move_log in Hm
      as [(Hill & -> & _)|(Hleg & boards & _ & Hlog & Hall & _ & _ & b1 & Hs & Hhead & Hpass)].
    + exists []. split; [by left|]. split; [done | constructor].
    + exists boards. split; [right; by exists b1|]. split; [done|].
      eapply Forall_impl; [done|]. intros bi [Hsh _].
      assert (Hwfi : wf bi) by by eapply same_shape_wf.
      split; [done|]. split; [by apply rows_good | by apply columns_good].
  - intros bi k pre e post Hsh Hline Hfirst. unfold FindAllTilePiecesInRow in Hline.
    assert (Hwfi : wf bi) by by eapply same_shape_wf.
    assert (He : e ∈ filter (λ x : Ref T, row (position x.2) = k) (imap pair (tilePieces bi)))
      by (rewrite Hline; set_solver).
    eapply (back_walk_empty _ LEFT); [done|by left|done|done|].
    intros x _ Hx. simpl. rewrite Hx. apply list_elem_of_filter in He as [He _]. done.
  - intros bi k pre e post Hsh Hline Hfirst. unfold FindAllTilePiecesInColumn in Hline.
    assert (Hwfi : wf bi) by by eapply same_shape_wf.
    assert (He : e ∈ filter (λ x : Ref T, col (position x.2) = k) (imap pair (tilePieces bi)))
      by (rewrite Hline; set_solver).
    eapply (back_walk_empty _ UP); [done|by right|done|done|].
    intros x _ Hx. simpl. rewrite Hx. apply list_elem_of_filter in He as [He _]. done.
Qed.

End Cascade.

(** *** Termination on a finite supplier *)

Lemma for_each_total {A S : Type} (I : S → Prop) (body : S → A → Res S) (l : list A) s :
  (∀ s1 a, a ∈ l → I s1 → ∃ s2, body s1 a = Ret s2 ∧ I s2) →
  I s → ∃ s', for_each body s l = Ret s' ∧ I s'.
Proof.
  revert s. induction l as [|a l IH]; intros s Hstep HI; [by exists s|].
  destruct (Hstep s a) as (s2 & Hb & HI2); [set_solver|done|]. simpl. rewrite Hb. simpl.
  apply IH; [|done]. intros s1 y Hy. apply Hstep. set_solver.
Qed.

Lemma wf_ShiftElementsInColumn b r c :
  wf b → (0 ≤ r < height b)%Z → (0 ≤ c < width b)%Z →
  ∃ b', ShiftElementsInColumn b r c = Ret b' ∧ same_shape b b'.
Proof.
  intros Hwf Hr Hc. unfold ShiftElementsInColumn.
  apply (for_each_total (same_shape b)); [|done].
  intros b1 k Hk Hsh. apply elem_of_reverse, elem_of_seqZ in Hk.
  destruct (wf_SwapPieces b1 {| row := k; col := c |} {| row := k - 1; col := c |})
    as [b2 Hs].
  - by eapply same_shape_wf.
  - apply (same_shape_in_bounds b); [done|]. unfold in_bounds. simpl. lia.
  - apply (same_shape_in_bounds b); [done|]. unfold in_bounds. simpl. lia.
  - exists b2. split; [done|]. eapply same_shape_trans; [done|].
    by eapply SwapPieces_same_shape.
Qed.

(** One cell of the refill loop either finds a value and changes nothing, or
    finds a hole and takes a value from the supplier. *)
Lemma UpdateBoard_cell_progress (g : GeneratorFake T) b p :
  wf b → in_bounds b p →
  match UpdateBoard_cell (b, g) (row p) (col p) with
  | Ret (b', g') =>
      same_shape b b' ∧
      ((b' = b ∧ g' = g ∧ filled b p) ∨ length (upcoming g') < length (upcoming g))
  | Throw e => e = EmptyQueue
  | OutOfFuel => False
  end.
Proof.
  intros Hwf Hin. unfold UpdateBoard_cell.
  replace {| row := row p; col := col p |} with p by by destruct p.
  destruct (wf_Find_in b p Hwf Hin) as (x & Hf & _). rewrite Hf.
  apply Find_Some in Hf as Hx. destruct Hx as [_ Hpos]. rewrite Hpos.
  destruct (decide (value x.2 = None)) as [Hv|Hv].
  - destruct Hin as [Hr Hc].
    destruct (wf_ShiftElementsInColumn b (row p) (col p) Hwf Hr Hc) as (b1 & -> & Hsh).
    simpl. unfold next, GeneratorFake_next.
    destruct (upcoming g) as [|v rest] eqn:Hup; simpl; [done|].
    destruct (wf_Find_in b1 {| row := 0; col := col p |}) as (top & -> & _).
    + by eapply same_shape_wf.
    + apply (same_shape_in_bounds b); [done|]. unfold in_bounds. simpl. lia.
    + split; [|right; simpl; lia]. eapply same_shape_trans; [done|].
      split; [done|]. split; [done|]. simpl. by rewrite position_alter_setValue.
  - split; [done|]. left. split; [done|]. split; [done|]. by exists x.
Qed.

Lemma UpdateBoard_cells_progress (cells : list Position) (g : GeneratorFake T) b :
  wf b → Forall (in_bounds b) cells →
  match for_each (λ st p, UpdateBoard_cell st (row p) (col p)) (b, g) cells with
  | Ret (b', g') =>
      same_shape b b' ∧
      ((b' = b ∧ g' = g ∧ Forall (filled b) cells)
       ∨ length (upcoming g') < length (upcoming g))
  | Throw e => e = EmptyQueue
  | OutOfFuel => False
  end.
Proof.
  revert g b. induction cells as [|p cells IH]; intros g b Hwf Hall.
  - simpl. split; [done|]. left. done.
  - apply Forall_cons in Hall as [Hp Hall]. cbn [for_each].
    pose proof (UpdateBoard_cell_progress g b p Hwf Hp) as Hcell.
    destruct (UpdateBoard_cell (b, g) (row p) (col p)) as [[b1 g1]|e|]; simpl; [|done|done].
    destruct Hcell as [Hsh Hcase].
    assert (Hwf1 : wf b1) by by eapply same_shape_wf.
    assert (Hall1 : Forall (in_bounds b1) cells).
    { eapply Forall_impl; [done|]. intros p'. by apply same_shape_in_bounds. }
    specialize (IH g1 b1 Hwf1 Hall1).
    destruct (for_each _ (b1, g1) cells) as [[b2 g2]|e|]; [|done|done].
    destruct IH as [Hsh2 Hcase2]. split; [by eapply same_shape_trans|].
    destruct Hcase as [(-> & -> & Hfp)|Hlt].
    + destruct Hcase2 as [(-> & -> & Hfs)|Hlt2]; [left|by right].
      split; [done|]. split; [done|]. by constructor.
    + right. destruct Hcase2 as [(-> & -> & _)|Hlt2]; lia.
Qed.

Lemma UpdateBoard_loops_progress (g : GeneratorFake T) b i t :
  wf b → tilePieces b !! i = Some t → value t = None →
  match UpdateBoard_loops b g with
  | Ret (b', g') => same_shape b b' ∧ length (upcoming g') < length (upcoming g)
  | Throw e => e = EmptyQueue
  | OutOfFuel => False
  end.
Proof.
  intros Hwf Hi Hv. rewrite UpdateBoard_loops_grid.
  assert (Hall : Forall (in_bounds b) (grid (width b) (height b))).
  { apply Forall_forall. intros p [k Hk]%list_elem_of_lookup_1.
    apply grid_lookup in Hk. unfold in_bounds. tauto. }
  pose proof (UpdateBoard_cells_progress _ g b Hwf Hall) as Hloop.
  destruct (for_each _ (b, g) _) as [[b' g']|e|]; [|done|done].
  destruct Hloop as [Hsh [(_ & _ & Hfilled)|Hlt]]; [exfalso|done].
  rewrite Forall_forall in Hfilled.
  destruct (Hfilled (position t)) as (x & Hf & Hne).
  - rewrite <- Hwf. apply list_elem_of_fmap. exists t. split; [done|].
    by eapply list_elem_of_lookup_2.
  - rewrite (wf_Find_lookup b i t Hwf Hi) in Hf. injection Hf as <-. done.
Qed.

Lemma clear_lookup (ms : list (Ref T)) (l : list (TilePiece T)) i t :
  l !! i = Some t →
  ∃ t', foldl (λ pieces (m : Ref T), alter (setValue None) m.1 pieces) l ms !! i = Some t' ∧
        (value t = None ∨ i ∈ fst <$> ms → value t' = None).
Proof.
  revert l t. induction ms as [|m ms IH]; intros l t Hi.
  - exists t. split; [done|]. intros [?|Hin]; [done|]. by apply elem_of_nil in Hin.
  - cbn [foldl]. destruct (decide (m.1 = i)) as [Hm|Hm].
    + destruct (IH (alter (setValue None) m.1 l) (setValue None t)) as (t' & Ht' & Hnone).
      { subst i. by rewrite list_lookup_alter_eq, Hi. }
      exists t'. split; [done|]. intros _. apply Hnone. by left.
    + destruct (IH (alter (setValue None) m.1 l) t) as (t' & Ht' & Hnone).
      { by rewrite list_lookup_alter_ne. }
      exists t'. split; [done|]. intros [?|Hin]; apply Hnone; [by left|right].
      rewrite fmap_cons in Hin. apply elem_of_cons in Hin as [?|?]; [congruence|done].
Qed.

Lemma MatchValuesRemoved_hole b rs cs :
  Forall (valid_ref b) rs → Forall (valid_ref b) cs → ¬ (rs = [] ∧ cs = []) →
  ∃ i t, tilePieces (MatchValuesRemoved b rs cs) !! i = Some t ∧ value t = None.
Proof.
  intros Hrs Hcs Hne. simpl.
  destruct rs as [|x rs'] eqn:Hr.
  - destruct cs as [|x cs']; [tauto|]. apply Forall_cons in Hcs as [Hx _].
    destruct (clear_lookup (x :: cs') (tilePieces b) x.1 x.2 Hx) as (t' & Ht' & Hnone).
    exists x.1, t'. split; [done|]. apply Hnone. right. set_solver.
  - rewrite <- Hr in *. assert (Hx : valid_ref b x).
    { rewrite Forall_forall in Hrs. apply Hrs. rewrite Hr. set_solver. }
    destruct (clear_lookup rs (tilePieces b) x.1 x.2 Hx) as (t1 & Ht1 & Hn1).
    destruct (clear_lookup cs _ x.1 t1 Ht1) as (t2 & Ht2 & Hn2).
    exists x.1, t2. split; [done|]. apply Hn2. left. apply Hn1. right.
    rewrite Hr. set_solver.
Qed.

(** With [n] values left in the queue, [n + 1] units of fuel are enough: every
    pass that finds a match clears a tile and so draws from the queue. *)
Lemma CheckBoard_terminates fuel (g : GeneratorFake T) b effs :
  wf b → length (upcoming g) < fuel →
  match CheckBoard fuel b g effs MatchValuesRemoved with
  | Ret (b', g', effs') => same_shape b b' ∧ quiescent b'
  | Throw e => e = EmptyQueue
  | OutOfFuel => False
  end.
Proof.
  revert g b effs. induction fuel as [|fuel IH]; intros g b effs Hwf Hfuel; [lia|].
  simpl. destruct (negb _ || negb _) eqn:Htest.
  - assert (Hnq : ¬ quiescent b) by (intros Hq%CheckBoard_test; congruence).
    destruct (MatchValuesRemoved_hole b (matches (FindAllRowMatches b))
                (matches (FindAllColumnMatches b))) as (i & t & Hi & Hv);
      [apply rows_valid | apply columns_valid | done |].
    pose proof (MatchValuesRemoved_same_shape b (matches (FindAllRowMatches b))
                  (matches (FindAllColumnMatches b))) as Hrem.
    assert (Hwf1 : wf (MatchValuesRemoved b (matches (FindAllRowMatches b))
                         (matches (FindAllColumnMatches b)))) by by eapply same_shape_wf.
    pose proof (UpdateBoard_loops_progress g _ i t Hwf1 Hi Hv) as Hloop.
    unfold UpdateBoard.
    destruct (UpdateBoard_loops _ g) as [[b2 g2]|e|]; simpl; [|done|done].
    destruct Hloop as [Hsh2 Hlt].
    assert (Hsh : same_shape b b2) by by eapply same_shape_trans.
    assert (Hwf2 : wf b2) by by eapply same_shape_wf.
    specialize (IH g2 b2 (((effs ++ boardEffects (FindAllRowMatches b))
                  ++ boardEffects (FindAllColumnMatches b)) ++ [RefillEffect]) Hwf2).
    destruct (CheckBoard fuel b2 g2 _ MatchValuesRemoved) as [[[b3 g3] effs3]|e|].
    + destruct IH as [Hsh3 Hq]; [lia|]. split; [by eapply same_shape_trans | done].
    + apply IH. lia.
    + apply IH. lia.
  - split; [done|]. by apply CheckBoard_test.
Qed.

(** C1: on a board built by [create] the validator answers and leaves the
    board as it was; an illegal [move] returns that board and an empty log;
    a returned [move] hands back a board of the same shape, and its log is
    empty exactly when the swap was illegal.  A legal [move] does produce
    its log: with a finite queue of [n] values as supplier and more than [n]
    passes allowed it returns, with a log that is not empty, unless the
    supplier runs dry and its "Empty queue" error ends the call. *)
Theorem move_log_empty_iff_illegal {G : Type} `{!Generator T G} fuel (g : G) b p q :
  wf b →
  ∃ legal, canMove b p q = Ret (legal, b) ∧
    (legal = false → move fuel g b p q = Ret ({| board := b; moveEffects := [] |}, g)) ∧
    (∀ r g', move fuel g b p q = Ret (r, g') →
       same_shape b (board r) ∧ (moveEffects r = [] ↔ legal = false)) ∧
    (legal = true →
     ∀ (queue : GeneratorFake T) (n : nat), length (upcoming queue) < n →
       move n queue b p q = Throw EmptyQueue ∨
       ∃ r queue', move n queue b p q = Ret (r, queue') ∧
                   same_shape b (board r) ∧ moveEffects r ≠ []).
Proof.
  intros Hwf. destruct (wf_IsMoveLegal b p q Hwf) as [legal Hl]. exists legal.
  split; [done|]. split; [|split].
  - intros ->. unfold move. by rewrite Hl.
  - intros r g' [(Hill & -> & _)|(Hleg & boards & Hne & Hlog & _ & Hsh & _)]%move_log.
    + split; [done|]. simpl. split; [congruence | done].
    + split; [done|]. rewrite Hlog. split; [|congruence].
      by intros ?%passes_nil.
  - intros -> queue n Hn.
    destruct (move n queue b p q) as [[r queue']|e|] eqn:Hm.
    + right. exists r, queue'. split; [done|].
      apply move_log in Hm as [(Hill & _)|(_ & boards & Hne & Hlog & _ & Hsh & _)];
        [congruence|].
      split; [done|]. rewrite Hlog. by intros ?%passes_nil.
    + left. unfold move in Hm. rewrite Hl in Hm. simpl in Hm.
      apply IsMoveLegal_true in Hl as (b1 & Hs & _). rewrite Hs in Hm. simpl in Hm.
      apply SwapPieces_same_shape in Hs.
      pose proof (CheckBoard_terminates n queue b1 [] (same_shape_wf _ _ Hs Hwf) Hn) as Hc.
      destruct (CheckBoard n b1 queue [] MatchValuesRemoved) as [[[b2 g2] effs]|e'|];
        simpl in Hm; [done| |done]. congruence.
    + exfalso. unfold move in Hm. rewrite Hl in Hm. simpl in Hm.
      apply IsMoveLegal_true in Hl as (b1 & Hs & _). rewrite Hs in Hm. simpl in Hm.
      apply SwapPieces_same_shape in Hs.
      pose proof (CheckBoard_terminates n queue b1 [] (same_shape_wf _ _ Hs Hwf) Hn) as Hc.
      by destruct (CheckBoard n b1 queue [] MatchValuesRemoved) as [[[b2 g2] effs]|e'|].
Qed.

(** C2, as the code has it: on a board built by [create], with a legal swap
    and a finite queue of [n] values as supplier, [move] given more than [n]
    units of fuel does not run out of them: it either stops on the supplier's
    "Empty queue" error, or returns a board of the same shape on which
    neither the row scan nor the column scan reports a match. *)
Theorem move_terminates_on_finite_supplier fuel (g : GeneratorFake T) b p q :
  wf b → canMove b p q = Ret (true, b) → length (upcoming g) < fuel →
  move fuel g b p q = Throw EmptyQueue ∨
  ∃ r g', move fuel g b p q = Ret (r, g') ∧ same_shape b (board r) ∧
          matches (FindAllRowMatches (board r)) = [] ∧
          matches (FindAllColumnMatches (board r)) = [].
Proof.
  intros Hwf Hlegal Hfuel. unfold move. unfold canMove in Hlegal. rewrite Hlegal. simpl.
  apply IsMoveLegal_true in Hlegal as (b1 & Hs & _). rewrite Hs. simpl.
  apply SwapPieces_same_shape in Hs.
  assert (Hwf1 : wf b1) by by eapply same_shape_wf.
  pose proof (CheckBoard_terminates fuel g b1 [] Hwf1 Hfuel) as Hc.
  destruct (CheckBoard fuel b1 g [] MatchValuesRemoved) as [[[b2 g2] effs]|e|]; simpl.
  - right. destruct Hc as [Hsh [Hr Hcol]]. exists {| board := b2; moveEffects := effs |}, g2.
    split; [done|]. split; [by eapply same_shape_trans | done].
  - left. by rewrite Hc.
  - done.
Qed.

End Theory.

(** ** The class variant *)

Section ClassVariant.
Context {T : Type} `{EqDecision T}.
Implicit Types (b : Board T) (p q : Position).

Lemma OO_IsPositionWithinBoard b p : OO.IsPositionWithinBoard b p = IsPositionOutsideBoard b p.
Proof.
  unfold OO.IsPositionWithinBoard, IsPositionOutsideBoard.
  repeat case_bool_decide; try done; lia.
Qed.

(** The class's [piece] is the functional [tilePiece]. *)
Lemma OO_piece b p : OO.piece b p = tilePiece b p.
Proof. unfold OO.piece, tilePiece. by rewrite OO_IsPositionWithinBoard. Qed.

Lemma swapProperties_comm (l : list (TilePiece T)) (i j : option nat) :
  swapProperties l i j = swapProperties l j i.
Proof.
  unfold swapProperties. destruct i as [i|], j as [j|]; simpl; try done.
  - destruct (l !! i) as [ti|] eqn:Hi, (l !! j) as [tj|] eqn:Hj; try done.
    f_equal. destruct (decide (i = j)) as [->|Hne].
    + by replace tj with ti by congruence.
    + by apply list_alter_alter_ne.
  - by destruct (l !! i).
  - by destruct (l !! j).
Qed.

Lemma SwapPieces_comm b p q : SwapPieces b p q = SwapPieces b q p.
Proof. unfold SwapPieces. by rewrite swapProperties_comm. Qed.

(** The class's validator also fails closed on the inputs of C3 ... *)
Lemma OO_canMove_fails_closed b p q :
  p = q ∨ (row p ≠ row q ∧ col p ≠ col q) ∨ ¬ in_bounds b p ∨ ¬ in_bounds b q →
  OO.canMove b p q = Ret (false, b).
Proof.
  intros Hc. unfold OO.canMove, OO.IsMoveLegal, OO.IsSameTile, OO.IsTileSameRowOrColumn.
  rewrite !OO_IsPositionWithinBoard.
  repeat case_bool_decide; simpl; try done.
  destruct (IsPositionOutsideBoard b p) eqn:Hp; [|done].
  destruct (IsPositionOutsideBoard b q) eqn:Hq; [|done].
  apply IsPositionOutsideBoard_spec in Hp, Hq. exfalso.
  destruct Hc as [->|[[??]|[?|?]]]; tauto.
Qed.

(** ... and undoes its trial swap, as C4 says. *)
Lemma OO_canMove_leaves_board b p q legal b' :
  OO.canMove b p q = Ret (legal, b') → b' = b.
Proof.
  unfold OO.canMove, OO.IsMoveLegal, OO.MoveResultInMatches. intros Hm.
  repeat case_match; simplify_eq; try done.
  inv_bind Hm. inv_bind Hm. injection Hm as _ <-.
  apply SwapPieces_involutive in Hx. rewrite SwapPieces_comm in Hx0. congruence.
Qed.

End ClassVariant.

(** On the row A,A,A,B,A,A,A the class's row scan, which skips a tile only if
    that very tile was matched already, reports both runs. *)
Lemma OO_FindRowMatches_reports_both_runs :
  (λ x : Ref string, position x.2) <$> OO.FindRowMatches rowAAABAAA =
    [at_ 0 0; at_ 0 1; at_ 0 2; at_ 0 4; at_ 0 5; at_ 0 6].
Proof. by vm_compute. Qed.

(** ** Fuel *)

Section Fuel.
Context {T : Type} `{EqDecision T} {G : Type} `{!Generator T G}.

Lemma CheckBoard_S fuel (b : Board T) (g : G) effs rm :
  CheckBoard (S fuel) b g effs rm =
  if negb (bool_decide (length (matches (FindAllRowMatches b)) = 0))
     || negb (bool_decide (length (matches (FindAllColumnMatches b)) = 0))
  then UpdateBoard (CheckBoard fuel)
         (rm b (matches (FindAllRowMatches b)) (matches (FindAllColumnMatches b))) g
         ((effs ++ boardEffects (FindAllRowMatches b))
            ++ boardEffects (FindAllColumnMatches b))
  else Ret (b, g, (effs ++ boardEffects (FindAllRowMatches b))
                    ++ boardEffects (FindAllColumnMatches b)).
Proof. done. Qed.

(** More fuel does not change a returned result. *)
Lemma CheckBoard_mono n m (b : Board T) (g : G) effs rm res :
  n ≤ m → CheckBoard n b g effs rm = Ret res → CheckBoard m b g effs rm = Ret res.
Proof.
  revert m b g effs rm. induction n as [|n IH]; intros m b g effs rm Hle Hc; [done|].
  destruct m as [|m]; [lia|]. rewrite CheckBoard_S in *.
  destruct (negb _ || negb _); [|done]. unfold UpdateBoard in *.
  destruct (UpdateBoard_loops _ g) as [[b1 g1]|e|]; simpl in *; [|done|done].
  apply IH; [lia | done].
Qed.

Lemma move_mono n m (g : G) (b : Board T) p q res :
  n ≤ m → move n g b p q = Ret res → move m g b p q = Ret res.
Proof.
  unfold move. intros Hle Hm.
  destruct (IsMoveLegal b p q) as [[[] b0]|e|]; simpl in *; try done.
  destruct (SwapPieces b0 p q) as [b1|e|]; simpl in *; try done.
  destruct (CheckBoard n b1 g [] MatchValuesRemoved) as [res1| |] eqn:Hc; simpl in *; try done.
  by rewrite (CheckBoard_mono n m _ _ _ _ res1 Hle Hc).
Qed.

End Fuel.

(** ** Instances on the fixtures *)

Lemma created_wf tiles w h b g :
  create {| upcoming := tiles |} w h = Ret (b, g) → wf (created tiles w h).
Proof. intros Hc. unfold created. rewrite Hc. by apply create_wf in Hc as [? _]. Qed.

(** C9: the 3 wide, 4 high board filled row by row with A,B,A / D,B,C /
    D,A,C / C,D,D; the swap of (0,1) and (2,1) is legal; with B, C, D queued
    next, [move] returns the board B,C,D / D,B,C / D,B,C / C,D,D and a log
    whose last effect is [Refill]. *)
Theorem scenario_3x4 :
  ∃ b0 g0,
    create {| upcoming := ["A";"B";"A"; "D";"B";"C"; "D";"A";"C"; "C";"D";"D"] |} 3 4
      = Ret (b0, g0) ∧
    canMove b0 (at_ 0 1) (at_ 2 1) = Ret (true, b0) ∧
    ∀ k, ∃ r g1,
      move (2 + k) (prepare g0 ["B";"C";"D"]) b0 (at_ 0 1) (at_ 2 1) = Ret (r, g1) ∧
      values (board r) = Some <$> ["B";"C";"D"; "D";"B";"C"; "D";"B";"C"; "C";"D";"D"] ∧
      last (moveEffects r) = Some RefillEffect.
Proof.
  exists board3x4, {| upcoming := [] |}. split; [by vm_compute|]. split; [by vm_compute|].
  intros k.
  destruct (move 2 (prepare {| upcoming := [] |} ["B";"C";"D"]) board3x4 (at_ 0 1) (at_ 2 1))
    as [[r g1]| |] eqn:Hm; [|by vm_compute in Hm..].
  exists r, g1. split; [by apply (move_mono 2); [lia|]|].
  vm_compute in Hm. injection Hm as <- <-. by vm_compute.
Qed.

(** C5, at the row A,A,A,B,A,A,A: the row scan reports the first run of A and
    nothing else; the value A is marked as checked at column 0, so the tiles
    of the second run are skipped. *)
Theorem FindAllRowMatches_skips_later_run :
  boardEffects (FindAllRowMatches rowAAABAAA) =
    [MatchEffect {| matched := Some "A"; positions := [at_ 0 0; at_ 0 1; at_ 0 2] |}] ∧
  (λ x : Ref string, position x.2) <$> matches (FindAllRowMatches rowAAABAAA) =
    [at_ 0 0; at_ 0 1; at_ 0 2].
Proof. by vm_compute. Qed.

(** The same defect seen through [move]: after the legal swap of (0,6) and
    (0,7) on A,B,A,A,C,C,D,C the three C are replaced by A, E, F; the row
    A,B,A,A,A,E,F,D is returned as final although columns 2 to 4 hold A,A,A. *)
Lemma move_leaves_unreported_run :
  ∃ r g, move 2 {| upcoming := ["A";"E";"F"] |} row1x8 (at_ 0 6) (at_ 0 7) = Ret (r, g) ∧
         values (board r) = Some <$> ["A";"B";"A";"A";"A";"E";"F";"D"] ∧
         kind <$> moveEffects r = ["Match"; "Refill"].
Proof.
  destruct (move 2 {| upcoming := ["A";"E";"F"] |} row1x8 (at_ 0 6) (at_ 0 7))
    as [[r g]| |] eqn:Hm; [|by vm_compute in Hm..].
  exists r, g. split; [done|]. vm_compute in Hm. injection Hm as <- <-. by vm_compute.
Qed.

Lemma CheckBoard_boardAAA fuel effs :
  CheckBoard fuel boardAAA cyclicA effs MatchValuesRemoved = OutOfFuel.
Proof.
  revert effs. induction fuel as [|fuel IH]; intros effs; [done|].
  rewrite CheckBoard_S.
  replace (negb (bool_decide (length (matches (FindAllRowMatches boardAAA)) = 0))
           || negb (bool_decide (length (matches (FindAllColumnMatches boardAAA)) = 0)))
    with true by by vm_compute.
  unfold UpdateBoard.
  replace (UpdateBoard_loops
             (MatchValuesRemoved boardAAA (matches (FindAllRowMatches boardAAA))
                (matches (FindAllColumnMatches boardAAA))) cyclicA)
    with (Ret (boardAAA, cyclicA)) by by vm_compute.
  simpl. apply IH.
Qed.

(** C2 as stated fails for a deterministic supplier that never runs dry: the
    3 by 1 board filled by [CyclicGenerator('A')] is A,A,A, the swap of (0,0)
    and (0,1) is legal, and every pass clears the row and refills it with A;
    no amount of fuel lets [move] return. *)
Lemma move_cascades_forever :
  create cyclicA 3 1 = Ret (boardAAA, cyclicA) ∧
  canMove boardAAA (at_ 0 0) (at_ 0 1) = Ret (true, boardAAA) ∧
  ∀ fuel, move fuel cyclicA boardAAA (at_ 0 0) (at_ 0 1) = OutOfFuel.
Proof.
  split; [by vm_compute|]. split; [by vm_compute|]. intros fuel. unfold move.
  replace (IsMoveLegal boardAAA (at_ 0 0) (at_ 0 1)) with (Ret (true, boardAAA))
    by by vm_compute.
  simpl.
  replace (SwapPieces boardAAA (at_ 0 0) (at_ 0 1)) with (Ret boardAAA) by by vm_compute.
  simpl. by rewrite CheckBoard_boardAAA.
Qed.

Lemma canMove_fails_closed_witness :
  canMove board4x4 (at_ 3 3) (at_ (-1) 3) = Ret (false, board4x4).
Proof.
  apply (canMove_fails_closed board4x4 (at_ 3 3) (at_ (-1) 3)).
  right. right. right. unfold in_bounds. simpl. lia.
Defined.

Lemma canMove_leaves_board_witness :
  ∃ legal, canMove board4x4 (at_ 2 1) (at_ 0 1) = Ret (legal, board4x4).
Proof. apply (canMove_leaves_board board4x4 (at_ 2 1) (at_ 0 1)). reflexivity. Defined.

Lemma tilePiece_total_witness :
  tilePiece board4x4 (at_ 0 (-1)) = Ret None ∧
  tilePiece board4x4 (at_ 1 2) = Ret (Some "A").
Proof.
  destruct (tilePiece_total board4x4 (at_ 0 (-1))) as [Hout _]; [reflexivity|].
  destruct (tilePiece_total board4x4 (at_ 1 2)) as [_ Hin]; [reflexivity|].
  split; [apply Hout; simpl; lia|].
  destruct Hin as (t & Ht & _ & ->); [simpl; lia|].
  vm_compute in Ht. by injection Ht as <-.
Defined.

Lemma move_log_empty_iff_illegal_witness :
  ∃ legal, canMove board3x4 (at_ 0 1) (at_ 2 1) = Ret (legal, board3x4) ∧
    (legal = false →
     move 2 queueBCD board3x4 (at_ 0 1) (at_ 2 1)
       = Ret ({| board := board3x4; moveEffects := [] |}, queueBCD)) ∧
    (∀ r g', move 2 queueBCD board3x4 (at_ 0 1) (at_ 2 1) = Ret (r, g') →
       same_shape board3x4 (board r) ∧ (moveEffects r = [] ↔ legal = false)) ∧
    (legal = true →
     ∀ (queue : GeneratorFake string) (n : nat), length (upcoming queue) < n →
       move n queue board3x4 (at_ 0 1) (at_ 2 1) = Throw EmptyQueue ∨
       ∃ r queue', move n queue board3x4 (at_ 0 1) (at_ 2 1) = Ret (r, queue') ∧
                   same_shape board3x4 (board r) ∧ moveEffects r ≠ []).
Proof.
  apply (move_log_empty_iff_illegal 2 queueBCD board3x4 (at_ 0 1) (at_ 2 1)).
  by vm_compute.
Defined.

Lemma move_terminates_on_finite_supplier_witness :
  move 4 queueBCD board3x4 (at_ 0 1) (at_ 2 1) = Throw EmptyQueue ∨
  ∃ r g', move 4 queueBCD board3x4 (at_ 0 1) (at_ 2 1) = Ret (r, g') ∧
          same_shape board3x4 (board r) ∧
          matches (FindAllRowMatches (board r)) = [] ∧
          matches (FindAllColumnMatches (board r)) = [].
Proof.
  apply (move_terminates_on_finite_supplier 4 queueBCD board3x4 (at_ 0 1) (at_ 2 1)).
  - by vm_compute.
  - by vm_compute.
  - simpl. lia.
Defined.

Lemma move_effect_order_witness :
  ∃ boards,
    ((canMove board3x4 (at_ 0 1) (at_ 2 1) = Ret (false, board3x4) ∧ boards = []) ∨
     (∃ b1, canMove board3x4 (at_ 0 1) (at_ 2 1) = Ret (true, board3x4) ∧
            SwapPieces board3x4 (at_ 0 1) (at_ 2 1) = Ret b1 ∧
            head boards = Some b1 ∧
            passes b1 queueBCD boards (board result3x4) {| upcoming := [] |})) ∧
    moveEffects result3x4 =
      boards ≫= (λ bi, boardEffects (FindAllRowMatches bi)
                        ++ boardEffects (FindAllColumnMatches bi) ++ [RefillEffect]) ∧
    Forall (λ bi, same_shape board3x4 bi ∧ ¬ quiescent bi ∧
                  Forall is_match (boardEffects (FindAllRowMatches bi)) ∧
                  Forall is_match (boardEffects (FindAllColumnMatches bi))) boards ∧
    (moveEffects result3x4 ≠ [] → last (moveEffects result3x4) = Some RefillEffect).
Proof.
  apply (move_effect_order 2 queueBCD board3x4 (at_ 0 1) (at_ 2 1) result3x4
           {| upcoming := [] |}).
  by vm_compute.
Defined.

Lemma FindAllColumnMatches_extra_column_witness :
  FindAllTilePiecesInColumn board4x4 (width board4x4) = [] ∧
  FindAllColumnMatches board4x4 = FindAllColumnMatches_valid board4x4.
Proof. apply (FindAllColumnMatches_extra_column board4x4). by vm_compute. Defined.

Lemma move_matches_are_runs_witness :
  (∃ boards,
     ((canMove board3x4 (at_ 0 1) (at_ 2 1) = Ret (false, board3x4) ∧ boards = []) ∨
      (∃ b1, canMove board3x4 (at_ 0 1) (at_ 2 1) = Ret (true, board3x4) ∧
             SwapPieces board3x4 (at_ 0 1) (at_ 2 1) = Ret b1 ∧
             head boards = Some b1 ∧
             passes b1 queueBCD boards (board result3x4) {| upcoming := [] |})) ∧
     moveEffects result3x4 = boards ≫= pass_log ∧
     Forall (λ bi, same_shape board3x4 bi ∧
                   Forall (good_match RIGHT bi) (boardEffects (FindAllRowMatches bi)) ∧
                   Forall (good_match DOWN bi) (boardEffects (FindAllColumnMatches bi)))
       boards) ∧
  (∀ bi k pre e post,
     same_shape board3x4 bi → FindAllTilePiecesInRow bi k = pre ++ e :: post →
     value e.2 ∉ (λ x : Ref string, value x.2) <$> pre → walk bi e LEFT = []) ∧
  (∀ bi k pre e post,
     same_shape board3x4 bi → FindAllTilePiecesInColumn bi k = pre ++ e :: post →
     value e.2 ∉ (λ x : Ref string, value x.2) <$> pre → walk bi e UP = []).
Proof.
  apply (move_matches_are_runs 2 queueBCD board3x4 (at_ 0 1) (at_ 2 1) result3x4
           {| upcoming := [] |}).
  - by vm_compute.
  - by vm_compute.
Defined.

(** * Further properties of the grid store, the resolver and the scans *)

Section GridStore.
Context {T : Type} `{EqDecision T}.
Implicit Types (b : Board T) (p q : Position) (t : TilePiece T) (x : Ref T).

(** On a board built by [create] the public read is the view [valueAt]. *)
Lemma wf_tilePiece_valueAt b p : wf b → tilePiece b p = Ret (valueAt b p).
Proof.
  intros Hwf. unfold tilePiece, valueAt.
  destruct (IsPositionOutsideBoard b p) eqn:Hp; simpl.
  - apply IsPositionOutsideBoard_spec in Hp.
    by destruct (wf_Find_in b p Hwf Hp) as (x & -> & _).
  - rewrite wf_Find_out; [done|done|]. intros Hin%IsPositionOutsideBoard_spec. congruence.
Qed.

Lemma valueAt_lookup b i t :
  wf b → tilePieces b !! i = Some t → valueAt b (position t) = value t.
Proof. intros Hwf Hi. unfold valueAt. by rewrite (wf_Find_lookup b i t). Qed.

(** Two boards of one shape are read alike wherever their tiles agree. *)
Lemma valueAt_same_index b b' p :
  wf b → same_shape b b' →
  (∀ i t, tilePieces b !! i = Some t → position t = p →
          value <$> tilePieces b' !! i = Some (value t)) →
  valueAt b' p = valueAt b p.
Proof.
  intros Hwf Hsh Hagree. unfold valueAt.
  pose proof (Find_same_shape b b' p Hsh) as Hidx. unfold indexOf in Hidx.
  destruct (FindTilePieceOnPosition b p) as [[i t]|] eqn:Hf,
           (FindTilePieceOnPosition b' p) as [[i' t']|] eqn:Hf'; simpl in Hidx; try done.
  injection Hidx as <-. apply Find_Some in Hf as [Hi Hp], Hf' as [Hi' _]. simpl in *.
  specialize (Hagree i t Hi Hp). rewrite Hi' in Hagree. simpl in Hagree. congruence.
Qed.

Lemma SwapPieces_tiles b b' p q i j ti tj :
  FindTilePieceOnPosition b p = Some (i, ti) →
  FindTilePieceOnPosition b q = Some (j, tj) →
  SwapPieces b p q = Ret b' →
  tilePieces b' = alter (setValue (value ti)) j (alter (setValue (value tj)) i (tilePieces b)).
Proof.
  intros Hp Hq. unfold SwapPieces, swapProperties. rewrite Hp, Hq. simpl.
  apply Find_Some in Hp as [Hp1 _], Hq as [Hq1 _]. simpl in Hp1, Hq1.
  rewrite Hp1, Hq1. simpl. by intros [= <-].
Qed.

Lemma SwapPieces_valueAt b p q :
  wf b → in_bounds b p → in_bounds b q →
  ∃ b', SwapPieces b p q = Ret b' ∧ same_shape b b' ∧
        valueAt b' p = valueAt b q ∧ valueAt b' q = valueAt b p ∧
        ∀ r, r ≠ p → r ≠ q → valueAt b' r = valueAt b r.
Proof.
  intros Hwf Hp Hq.
  destruct (wf_SwapPieces b p q Hwf Hp Hq) as [b' Hs]. exists b'. split; [done|].
  pose proof (SwapPieces_same_shape _ _ _ _ Hs) as Hsh. split; [done|].
  destruct (wf_Find_in b p Hwf Hp) as ([i ti] & Hfp & _).
  destruct (wf_Find_in b q Hwf Hq) as ([j tj] & Hfq & _).
  pose proof (SwapPieces_tiles _ _ _ _ _ _ _ _ Hfp Hfq Hs) as Htiles.
  apply Find_Some in Hfp as Hp'. apply Find_Some in Hfq as Hq'. simpl in *.
  destruct Hp' as [Hi Hpi], Hq' as [Hj Hpj].
  assert (Hwf' : wf b') by by eapply same_shape_wf.
  assert (Hread : ∀ k t, tilePieces b !! k = Some t →
            valueAt b' (position t) =
            if decide (k = j) then value ti else if decide (k = i) then value tj else value t).
  { intros k t Hk.
    assert (Hk' : ∃ t', tilePieces b' !! k = Some t' ∧ position t' = position t ∧
              value t' = if decide (k = j) then value ti
                         else if decide (k = i) then value tj else value t).
    { rewrite Htiles, !list_lookup_alter.
      repeat case_decide; simplify_eq; repeat match goal with Hl : tilePieces b !! _ = Some _ |- _ => rewrite Hl end; simpl; eexists; (split; [reflexivity|]); simpl; done. }
    destruct Hk' as (t' & Hk' & Hpos & Hval).
    by rewrite <- Hpos, (valueAt_lookup b' k t' Hwf' Hk'). }
  assert (Hvi : valueAt b p = value ti) by (rewrite <- Hpi; by eapply valueAt_lookup).
  assert (Hvj : valueAt b q = value tj) by (rewrite <- Hpj; by eapply valueAt_lookup).
  rewrite Hvi, Hvj. split; [|split].
  - rewrite <- Hpi, (Hread i ti Hi). case_decide; [|by rewrite decide_True].
    subst. replace tj with ti by congruence. done.
  - rewrite <- Hpj, (Hread j tj Hj). by rewrite decide_True.
  - intros r Hrp Hrq. apply (valueAt_same_index b b' r Hwf Hsh). intros k t Hk Hpos.
    rewrite Htiles, !list_lookup_alter, Hk.
    assert (k ≠ i) by (intros ->; congruence). assert (k ≠ j) by (intros ->; congruence).
    by rewrite !decide_False by done.
Qed.

(** X1: on a board built by [create], swapping two cells of the board
    exchanges what the public read returns at the two positions and leaves
    every other read as it was. *)
Theorem SwapPieces_exchanges b p q :
  wf b → in_bounds b p → in_bounds b q →
  ∃ b', SwapPieces b p q = Ret b' ∧ wf b' ∧
        tilePiece b' p = tilePiece b q ∧ tilePiece b' q = tilePiece b p ∧
        ∀ r, r ≠ p → r ≠ q → tilePiece b' r = tilePiece b r.
Proof.
  intros Hwf Hp Hq.
  destruct (SwapPieces_valueAt b p q Hwf Hp Hq) as (b' & Hs & Hsh & Hpq & Hqp & Hr).
  assert (Hwf' : wf b') by by eapply same_shape_wf.
  exists b'. rewrite !wf_tilePiece_valueAt by done. split; [done|]. split; [done|].
  split; [by rewrite Hpq|]. split; [by rewrite Hqp|].
  intros r ??. rewrite !wf_tilePiece_valueAt by done. by rewrite Hr.
Qed.

(** X2: a swap that names a position outside the board throws a [TypeError]
    (the lookup finds no tile, [indexOf] answers -1 and the read through
    [pieces[-1]] fails) before anything is written. *)
Theorem SwapPieces_outside_throws b p q :
  wf b → ¬ in_bounds b p ∨ ¬ in_bounds b q → SwapPieces b p q = Throw TypeError.
Proof.
  intros Hwf Hout. unfold SwapPieces, swapProperties.
  destruct Hout as [Hout|Hout]; rewrite (wf_Find_out b _ Hwf Hout); simpl; [done|].
  by repeat case_match.
Qed.

(** X3: swapping is symmetric in its two positions, and a second swap of the
    same two positions, in either order, restores the board. *)
Theorem SwapPieces_round_trip b b' p q :
  SwapPieces b p q = Ret b' →
  SwapPieces b q p = Ret b' ∧ SwapPieces b' p q = Ret b ∧ SwapPieces b' q p = Ret b.
Proof.
  intros Hs. split; [by rewrite SwapPieces_comm|].
  apply SwapPieces_involutive in Hs. split; [done | by rewrite SwapPieces_comm].
Qed.

(** X4: the validator and [move] do not depend on the order in which the two
    positions are given. *)
Theorem move_symmetric `{!Generator T G} fuel (g : G) b p q :
  canMove b p q = canMove b q p ∧ move fuel g b p q = move fuel g b q p.
Proof.
  assert (Hlegal : IsMoveLegal b p q = IsMoveLegal b q p).
  { unfold IsMoveLegal. rewrite (SwapPieces_comm b p q).
    destruct (IsPositionOutsideBoard b p), (IsPositionOutsideBoard b q); simpl; try done.
    repeat case_bool_decide; simpl; try done; try congruence.
    all: destruct (SwapPieces b q p) as [b1| |]; simpl; try done.
    all: by rewrite (SwapPieces_comm b1 p q). }
  split; [done|]. unfold move. rewrite Hlegal.
  destruct (IsMoveLegal b q p) as [[[] b0]| |]; simpl; try done.
  by rewrite (SwapPieces_comm b0 p q).
Qed.

End GridStore.

Section Gravity.
Context {T : Type} `{EqDecision T}.
Implicit Types (b : Board T) (p q : Position) (t : TilePiece T) (x : Ref T).

Lemma ShiftElementsInColumn_S b (n : nat) c :
  ShiftElementsInColumn b (Z.of_nat (S n)) c =
  b1 ← SwapPieces b {| row := Z.of_nat (S n); col := c |}
                    {| row := Z.of_nat (S n) - 1; col := c |};
  ShiftElementsInColumn b1 (Z.of_nat n) c.
Proof.
  unfold ShiftElementsInColumn. rewrite seqZ_S, reverse_snoc.
  replace (1 + Z.of_nat n)%Z with (Z.of_nat (S n)) by lia. done.
Qed.

Lemma ShiftElementsInColumn_valueAt (n : nat) b c :
  wf b → (Z.of_nat n < height b)%Z → (0 ≤ c < width b)%Z →
  ∃ b', ShiftElementsInColumn b (Z.of_nat n) c = Ret b' ∧ same_shape b b' ∧
        valueAt b' {| row := 0; col := c |} = valueAt b {| row := Z.of_nat n; col := c |} ∧
        (∀ k, (1 ≤ k ≤ Z.of_nat n)%Z →
              valueAt b' {| row := k; col := c |} = valueAt b {| row := k - 1; col := c |}) ∧
        (∀ q, col q ≠ c ∨ (Z.of_nat n < row q)%Z ∨ (row q < 0)%Z →
              valueAt b' q = valueAt b q).
Proof.
  revert b. induction n as [|n IH]; intros b Hwf Hn Hc.
  - exists b. split; [done|]. split; [done|]. split; [done|]. split; [|done].
    intros k Hk. lia.
  - rewrite ShiftElementsInColumn_S.
    destruct (SwapPieces_valueAt b {| row := Z.of_nat (S n); col := c |}
                {| row := Z.of_nat (S n) - 1; col := c |} Hwf)
      as (b1 & -> & Hsh1 & Hhi & Hlo & Hother).
    { unfold in_bounds. simpl. lia. }
    { unfold in_bounds. simpl. lia. }
    simpl. destruct (IH b1) as (b' & Hs & Hsh & H0 & Hdown & Hrest).
    { by eapply same_shape_wf. }
    { destruct Hsh1 as (_ & <- & _). lia. }
    { destruct Hsh1 as (<- & _). lia. }
    replace {| row := Z.of_nat (S n) - 1; col := c |}
      with {| row := Z.of_nat n; col := c |} in * by (f_equal; lia).
    exists b'. split; [done|]. split; [by eapply same_shape_trans|]. split; [|split].
    + by rewrite H0, Hlo.
    + intros k Hk. destruct (decide (k = Z.of_nat (S n))) as [->|Hne].
      * rewrite Hrest by (simpl; lia). rewrite Hhi. f_equal. f_equal. lia.
      * rewrite Hdown by lia. apply Hother; intros [=]; lia.
    + intros q Hq. rewrite Hrest by lia. apply Hother; intros ->; simpl in Hq; lia.
Qed.

(** X5: [ShiftElementsInColumn(board, r, c)] on a board built by [create], for
    a cell (r, c) of the board: what was read at (r, c) is read at the top of
    the column, what was read at rows 0 to r-1 of the column is read one row
    lower, and every other read is as it was. *)
Theorem ShiftElementsInColumn_slides b r c :
  wf b → (0 ≤ r < height b)%Z → (0 ≤ c < width b)%Z →
  ∃ b', ShiftElementsInColumn b r c = Ret b' ∧ wf b' ∧
        tilePiece b' {| row := 0; col := c |} = tilePiece b {| row := r; col := c |} ∧
        (∀ k, (1 ≤ k ≤ r)%Z →
              tilePiece b' {| row := k; col := c |} = tilePiece b {| row := k - 1; col := c |}) ∧
        (∀ q, col q ≠ c ∨ (r < row q)%Z →
              tilePiece b' q = tilePiece b q).
Proof.
  intros Hwf Hr Hc.
  destruct (ShiftElementsInColumn_valueAt (Z.to_nat r) b c Hwf) as
    (b' & Hs & Hsh & H0 & Hdown & Hrest); [lia|done|].
  rewrite Z2Nat.id in * by lia.
  assert (Hwf' : wf b') by by eapply same_shape_wf.
  exists b'. split; [done|]. split; [done|]. split; [|split].
  - by rewrite !wf_tilePiece_valueAt, H0.
  - intros k Hk. by rewrite !wf_tilePiece_valueAt, Hdown.
  - intros q Hq. rewrite !wf_tilePiece_valueAt by done. rewrite Hrest; [done | tauto].
Qed.

Lemma count_ext {A : Type} (P Q : A → Prop) `{!∀ a, Decision (P a), !∀ a, Decision (Q a)}
    (l : list A) :
  (∀ a, a ∈ l → P a ↔ Q a) → length (filter P l) = length (filter Q l).
Proof.
  induction l as [|a l IH]; intros Hext; [done|].
  rewrite !filter_cons.
  assert (Ha : P a ↔ Q a) by (apply Hext, elem_of_cons; by left).
  assert (IH' : length (filter P l) = length (filter Q l)).
  { apply IH. intros a' Ha'. apply Hext, elem_of_cons. by right. }
  destruct (decide (P a)), (decide (Q a)); simpl; try tauto; by rewrite ?IH'.
Qed.

Lemma count_fmap {A B : Type} (f : A → B) (P : B → Prop) `{!∀ y, Decision (P y)}
    (l : list A) :
  length (filter P (f <$> l)) = length (filter (λ a, P (f a)) l).
Proof.
  induction l as [|a l IH]; [done|]. rewrite fmap_cons, !filter_cons.
  case_decide; simpl; by rewrite IH.
Qed.

(** Holes counted over tiles are holes counted over the cells of the grid. *)
Lemma holes_grid b :
  wf b → holes b = length (filter (λ q, valueAt b q = None) (grid (width b) (height b))).
Proof.
  intros Hwf. unfold holes. rewrite <- Hwf, count_fmap. apply count_ext.
  intros t [i Hi]%list_elem_of_lookup_1. by rewrite (valueAt_lookup b i t).
Qed.

Lemma holes_0_filled b :
  wf b → (∀ q, q ∈ grid (width b) (height b) → valueAt b q ≠ None) → holes b = 0.
Proof.
  intros Hwf Hall. rewrite holes_grid by done.
  destruct (filter _ _) as [|q l] eqn:Hf; [done|]. exfalso.
  assert (Hq : q ∈ filter (λ q, valueAt b q = None) (grid (width b) (height b)))
    by (rewrite Hf; set_solver).
  apply list_elem_of_filter in Hq as [Hnone Hq]. by apply (Hall q).
Qed.

Lemma valueAt_set b p x v :
  wf b → FindTilePieceOnPosition b p = Some x →
  let b2 := {| width := width b; height := height b;
               tilePieces := alter (setValue v) x.1 (tilePieces b) |} in
  same_shape b b2 ∧ valueAt b2 p = v ∧ ∀ q, q ≠ p → valueAt b2 q = valueAt b q.
Proof.
  intros Hwf Hf b2. apply Find_Some in Hf as [Hx Hp].
  assert (Hsh : same_shape b b2).
  { split; [done|]. split; [done|]. simpl. by rewrite position_alter_setValue. }
  assert (Hwf2 : wf b2) by by eapply same_shape_wf.
  split; [done|]. split.
  - assert (Hx2 : tilePieces b2 !! x.1 = Some (setValue v x.2)).
    { simpl. by rewrite list_lookup_alter_eq, Hx. }
    rewrite <- Hp. apply (valueAt_lookup b2 _ _ Hwf2 Hx2).
  - intros q Hq. apply (valueAt_same_index b b2 q Hwf Hsh). intros i t Hi Hpos. simpl.
    rewrite list_lookup_alter_ne, Hi; [done|]. intros <-. congruence.
Qed.

(** *** Columns *)

Lemma column_ext b b2 c :
  height b2 = height b →
  (∀ r, valueAt b2 {| row := r; col := c |} = valueAt b {| row := r; col := c |}) →
  column b2 c = column b c.
Proof.
  intros Hh Hext. unfold column. rewrite Hh. apply list_fmap_ext. intros _ r _. apply Hext.
Qed.

(** A hole at row [r] of a column replaced by a value at the top: the values
    of the column keep their order, the new value comes first. *)
Lemma column_hole_filled b b2 p v :
  height b2 = height b → (0 ≤ row p < height b)%Z → valueAt b p = None →
  valueAt b2 {| row := 0; col := col p |} = Some v →
  (∀ k, (1 ≤ k ≤ row p)%Z →
        valueAt b2 {| row := k; col := col p |} = valueAt b {| row := k - 1; col := col p |}) →
  (∀ k, (row p < k)%Z →
        valueAt b2 {| row := k; col := col p |} = valueAt b {| row := k; col := col p |}) →
  omap id (column b2 (col p)) = v :: omap id (column b (col p)).
Proof.
  intros Hh Hr Hnone Htop Hdown Hbelow. unfold column. rewrite Hh.
  replace (height b) with (row p + (1 + (height b - row p - 1)))%Z at 2 by lia.
  replace (height b) with (1 + (row p + (height b - row p - 1)))%Z at 1 by lia.
  rewrite !seqZ_app by lia. rewrite !fmap_app, !omap_app.
  rewrite (seqZ_cons 0 1), (seqZ_cons (0 + row p) 1) by lia.
  rewrite (seqZ_nil (Z.succ 0)), (seqZ_nil (Z.succ (0 + row p))) by lia.
  cbn [fmap list_fmap omap list_omap app]. rewrite Htop.
  replace {| row := 0 + row p; col := col p |} with p by (destruct p; simpl; f_equal; lia).
  rewrite Hnone. cbn [id]. f_equal. f_equal.
  - replace (0 + 1)%Z with (1 + 0)%Z by lia.
    rewrite <- (fmap_add_seqZ 1 0), <- list_fmap_compose. f_equal.
    apply list_fmap_ext. intros i k Hk. apply lookup_seqZ in Hk. simpl.
    rewrite Hdown by lia. do 2 f_equal. lia.
  - rewrite app_nil_l. f_equal. replace (0 + 1 + row p)%Z with (0 + row p + 1)%Z by lia.
    apply list_fmap_ext. intros i k Hk. apply lookup_seqZ in Hk. apply Hbelow. lia.
Qed.



Section Refill.
Context {G : Type} `{!Generator T G}.
Implicit Types (g : G).

(** One cell of the refill loop, when the cells above it in its column hold
    values: a cell holding a value is passed over; a hole is moved to the top
    of its column and filled with the next value of the supplier. *)
Lemma UpdateBoard_cell_step b g p :
  wf b → in_bounds b p →
  (∀ k, (0 ≤ k < row p)%Z → valueAt b {| row := k; col := col p |} ≠ None) →
  (valueAt b p ≠ None ∧ UpdateBoard_cell (b, g) (row p) (col p) = Ret (b, g)) ∨
  (valueAt b p = None ∧
   match next g with
   | Ret (v, g1) =>
       ∃ b2, UpdateBoard_cell (b, g) (row p) (col p) = Ret (b2, g1) ∧ same_shape b b2 ∧
             (∀ k, (0 ≤ k ≤ row p)%Z → valueAt b2 {| row := k; col := col p |} ≠ None) ∧
             (∀ q, col q ≠ col p ∨ (row p < row q)%Z ∨ (row q < 0)%Z →
                   valueAt b2 q = valueAt b q) ∧
             valueAt b2 {| row := 0; col := col p |} = Some v ∧
             (∀ k, (1 ≤ k ≤ row p)%Z →
                   valueAt b2 {| row := k; col := col p |}
                   = valueAt b {| row := k - 1; col := col p |})
   | Throw e => UpdateBoard_cell (b, g) (row p) (col p) = Throw e
   | OutOfFuel => UpdateBoard_cell (b, g) (row p) (col p) = OutOfFuel
   end).
Proof.
  intros Hwf Hin Habove. unfold UpdateBoard_cell.
  replace {| row := row p; col := col p |} with p by by destruct p.
  destruct (wf_Find_in b p Hwf Hin) as (x & Hf & _).
  assert (Hv : valueAt b p = value x.2) by (unfold valueAt; by rewrite Hf).
  rewrite Hf. apply Find_Some in Hf as [_ Hpos]. rewrite Hpos.
  destruct (decide (value x.2 = None)) as [Hnone|Hsome]; [right|left; by rewrite Hv].
  split; [by rewrite Hv|]. destruct Hin as [Hr Hc].
  destruct (ShiftElementsInColumn_valueAt (Z.to_nat (row p)) b (col p) Hwf)
    as (b1 & Hs & Hsh1 & _ & Hdown & Hrest); [lia|done|].
  rewrite Z2Nat.id in Hs, Hdown, Hrest by lia. rewrite Hs. simpl.
  assert (Hwf1 : wf b1) by by eapply same_shape_wf.
  destruct (wf_Find_in b1 {| row := 0; col := col p |} Hwf1) as (top & Htop & _).
  { apply (same_shape_in_bounds b); [done|]. unfold in_bounds. simpl. lia. }
  rewrite Htop. destruct (next g) as [[v g1]|e|]; simpl; [|done|done].
  destruct (valueAt_set b1 _ top (Some v) Hwf1 Htop) as (Hsh2 & Hnew & Hold).
  eexists. split; [done|]. split; [by eapply same_shape_trans|].
  split; [|split; [|split]].
  - intros k Hk. destruct (decide (k = 0%Z)) as [->|Hk0]; [by rewrite Hnew|].
    rewrite Hold by (intros [=]; lia). rewrite Hdown by lia. apply Habove. lia.
  - intros q Hq. rewrite Hold by (intros ->; simpl in Hq; lia). by apply Hrest.
  - exact Hnew.
  - intros k Hk. rewrite Hold by (intros [=]; lia). apply Hdown. lia.
Qed.

Lemma grid_split_index w h (pre post : list Position) p :
  grid w h = pre ++ p :: post →
  (0 ≤ row p < h)%Z ∧ (0 ≤ col p < w)%Z ∧ Z.of_nat (length pre) = (row p * w + col p)%Z.
Proof.
  intros Hg. apply grid_lookup. rewrite Hg. by apply list_lookup_middle.
Qed.

Lemma grid_split_before w h (pre post : list Position) p q :
  grid w h = pre ++ p :: post →
  (0 ≤ row q < h)%Z → (0 ≤ col q < w)%Z → (row q * w + col q < row p * w + col p)%Z →
  q ∈ pre.
Proof.
  intros Hg Hr Hc Hlt. destruct (grid_split_index w h pre post p Hg) as (_ & _ & Hlen).
  assert (Hq : grid w h !! Z.to_nat (row q * w + col q) = Some q).
  { apply grid_lookup. split; [done|]. split; [done|]. rewrite Z2Nat.id; [done|nia]. }
  rewrite Hg, lookup_app_l in Hq by nia. by eapply list_elem_of_lookup_2.
Qed.

Lemma grid_split_after w h (pre post : list Position) p q :
  grid w h = pre ++ p :: post → q ∈ post →
  (0 ≤ row q < h)%Z ∧ (0 ≤ col q < w)%Z ∧ (row p * w + col p < row q * w + col q)%Z.
Proof.
  intros Hg [j Hj]%list_elem_of_lookup_1.
  destruct (grid_split_index w h pre post p Hg) as (_ & _ & Hlen).
  assert (Hq : grid w h !! (length pre + S j) = Some q).
  { rewrite Hg, lookup_app_r by lia. by replace (length pre + S j - length pre) with (S j) by lia. }
  apply grid_lookup in Hq as (? & ? & Hidx). split; [done|]. split; [done|]. lia.
Qed.

Lemma UpdateBoard_cells_fill (post pre : list Position) b g :
  grid (width b) (height b) = pre ++ post → wf b →
  (∀ q, q ∈ pre → valueAt b q ≠ None) →
  match draw (length (filter (λ q, valueAt b q = None) post)) g with
  | Ret (vs, g') =>
      ∃ b', for_each (λ st p, UpdateBoard_cell st (row p) (col p)) (b, g) post = Ret (b', g') ∧
            same_shape b b' ∧ (∀ q, q ∈ pre ++ post → valueAt b' q ≠ None) ∧
            ∀ c, ∃ news, omap id (column b' c) = news ++ omap id (column b c) ∧
                         ∀ v, v ∈ news → v ∈ vs
  | Throw e => for_each (λ st p, UpdateBoard_cell st (row p) (col p)) (b, g) post = Throw e
  | OutOfFuel => for_each (λ st p, UpdateBoard_cell st (row p) (col p)) (b, g) post = OutOfFuel
  end.
Proof.
  revert pre b g. induction post as [|p post IH]; intros pre b g Hg Hwf Hpre.
  - simpl. exists b. split; [done|]. split; [done|]. split; [by rewrite app_nil_r|].
    intros c. exists []. split; [done|]. intros v Hv. by apply elem_of_nil in Hv.
  - destruct (grid_split_index _ _ _ _ _ Hg) as (Hr & Hc & Hlen).
    assert (Hg' : grid (width b) (height b) = (pre ++ [p]) ++ post)
      by by rewrite <- app_assoc.
    assert (Habove : ∀ k, (0 ≤ k < row p)%Z → valueAt b {| row := k; col := col p |} ≠ None).
    { intros k Hk. apply Hpre. apply (grid_split_before _ _ _ _ _ _ Hg); simpl; [lia|lia|nia]. }
    cbn [for_each]. rewrite filter_cons.
    destruct (UpdateBoard_cell_step b g p Hwf (conj Hr Hc) Habove)
      as [[Hsome ->]|[Hnone Hstep]].
    + rewrite decide_False by done. simpl.
      assert (Hpre' : ∀ q, q ∈ pre ++ [p] → valueAt b q ≠ None).
      { intros q [?|Hq%list_elem_of_singleton]%elem_of_app; [by apply Hpre | by subst]. }
      specialize (IH (pre ++ [p]) b g Hg' Hwf Hpre').
      destruct (draw _ g) as [[vs g']|e|]; [|done..].
      destruct IH as (b' & Hf & Hsh & Hall & Hcols).
      exists b'. split; [done|]. split; [done|]. split; [|done].
      by rewrite <- app_assoc in Hall.
    + rewrite decide_True by done. cbn [length draw].
      destruct (next g) as [[v g1]|e|]; [|by rewrite Hstep..].
      destruct Hstep as (b2 & -> & Hsh2 & Hcol & Hother & Htop & Hdown).
      change (Ret (b2, g1) ≫= ?f) with (f (b2, g1)). cbn beta.
      change (Ret (v, g1) ≫= ?f) with (f (v, g1)). cbn beta iota.
      assert (Hwf2 : wf b2) by by eapply same_shape_wf.
      assert (Hcount : length (filter (λ q, valueAt b q = None) post)
                       = length (filter (λ q, valueAt b2 q = None) post)).
      { apply count_ext. intros q Hq. rewrite Hother; [done|].
        destruct (grid_split_after _ _ _ _ _ _ Hg Hq) as (? & ? & ?).
        destruct (decide (col q = col p)); [right; left; nia | by left]. }
      rewrite Hcount.
      assert (Hg2 : grid (width b2) (height b2) = (pre ++ [p]) ++ post).
      { destruct Hsh2 as (<- & <- & _). done. }
      assert (Hpre2 : ∀ q, q ∈ pre ++ [p] → valueAt b2 q ≠ None).
      { intros q Hq.
        assert (Hqb : (0 ≤ row q)%Z).
        { assert (Hqg : q ∈ grid (width b) (height b)) by (rewrite Hg'; apply elem_of_app; by left).
          apply list_elem_of_lookup_1 in Hqg as [j Hj]. apply grid_lookup in Hj. lia. }
        destruct (decide (col q = col p ∧ (row q ≤ row p)%Z)) as [[Hcq Hrq]|Hno].
        - replace q with {| row := row q; col := col p |}
            by (destruct q; simpl in *; by subst).
          apply Hcol. lia.
        - apply elem_of_app in Hq as [Hq|Hq%list_elem_of_singleton]; [|subst; lia].
          rewrite Hother; [by apply Hpre|]. lia. }
      specialize (IH (pre ++ [p]) b2 g1 Hg2 Hwf2 Hpre2).
      destruct (draw _ g1) as [[vs g']|e|]; simpl; [|done..].
      destruct IH as (b' & Hf & Hsh & Hall & Hcols).
      exists b'. split; [done|]. split; [by eapply same_shape_trans|].
      split; [by rewrite <- app_assoc in Hall|].
      intros c. destruct (Hcols c) as (news & Hnews & Hsub).
      assert (Hh2 : height b2 = height b) by (by destruct Hsh2 as (_ & <- & _)).
      destruct (decide (c = col p)) as [->|Hcp].
      * exists (news ++ [v]). split.
        { rewrite Hnews, <- app_assoc. f_equal.
          apply (column_hole_filled b b2 p v Hh2 Hr Hnone Htop Hdown).
          intros k Hk. apply Hother. simpl. lia. }
        intros v' [Hv'|Hv'%list_elem_of_singleton]%elem_of_app; apply elem_of_cons;
          [right; by apply Hsub | by left].
      * exists news. split.
        { rewrite Hnews. f_equal. f_equal. apply column_ext; [done|].
          intros r0. apply Hother. by left. }
        intros v' Hv'. apply elem_of_cons. right. by apply Hsub.
Qed.

Lemma UpdateBoard_loops_draw b g :
  wf b →
  match draw (holes b) g with
  | Ret (vs, g') =>
      ∃ b', UpdateBoard_loops b g = Ret (b', g') ∧ same_shape b b' ∧ holes b' = 0
  | Throw e => UpdateBoard_loops b g = Throw e
  | OutOfFuel => UpdateBoard_loops b g = OutOfFuel
  end.
Proof.
  intros Hwf. rewrite UpdateBoard_loops_grid, holes_grid by done.
  pose proof (UpdateBoard_cells_fill (grid (width b) (height b)) [] b g eq_refl Hwf) as Hfill.
  destruct (draw _ g) as [[vs g']|e|]; [|by apply Hfill; intros q Hq; inversion Hq..].
  destruct Hfill as (b' & Hf & Hsh & Hall & _); [by intros q Hq; inversion Hq|].
  exists b'. split; [done|]. split; [done|].
  apply holes_0_filled; [by eapply same_shape_wf|].
  destruct Hsh as (<- & <- & _). done.
Qed.

(** X6: the refill loops of [UpdateBoard], on a board built by [create],
    call the supplier exactly once per hole; if every call answers, the
    loops return a board of the same shape with no hole left; the first call
    that throws ends them with that error. *)
Theorem UpdateBoard_loops_fills b g :
  wf b →
  match draw (holes b) g with
  | Ret (vs, g') =>
      ∃ b', UpdateBoard_loops b g = Ret (b', g') ∧ same_shape b b' ∧ holes b' = 0
  | Throw e => UpdateBoard_loops b g = Throw e
  | OutOfFuel => UpdateBoard_loops b g = OutOfFuel
  end.
Proof. apply UpdateBoard_loops_draw. Qed.


Lemma UpdateBoard_loops_Ret_holes b g b' g' :
  wf b → UpdateBoard_loops b g = Ret (b', g') → holes b' = 0.
Proof.
  intros Hwf Hl. pose proof (UpdateBoard_loops_draw b g Hwf) as Hfill.
  destruct (draw _ g) as [[vs g1]|e|]; [|congruence..].
  destruct Hfill as (b1 & Hl1 & _ & Hh). congruence.
Qed.

Lemma CheckBoard_holes fuel b g effs b' g' effs' :
  wf b → CheckBoard fuel b g effs MatchValuesRemoved = Ret (b', g', effs') →
  b' = b ∨ holes b' = 0.
Proof.
  revert b g effs. induction fuel as [|fuel IH]; intros b g effs Hwf Hc; [by simpl in Hc|].
  rewrite CheckBoard_S in Hc. destruct (negb _ || negb _).
  - unfold UpdateBoard in Hc. inv_bind Hc. destruct x as [b1 g1]. right.
    assert (Hwfm : wf (MatchValuesRemoved b (matches (FindAllRowMatches b))
                         (matches (FindAllColumnMatches b)))).
    { eapply same_shape_wf; [apply MatchValuesRemoved_same_shape | done]. }
    pose proof (UpdateBoard_loops_Ret_holes _ _ _ _ Hwfm Hx) as Hh.
    apply UpdateBoard_loops_same_shape in Hx.
    apply IH in Hc as [->|?]; [done|done|]. by eapply same_shape_wf.
  - left. by injection Hc as <- _ _.
Qed.

(** X7: [move] leaves no hole behind.  On a board built by [create], a
    returned [move] that produced effects returns a board all of whose tiles
    hold a value; one that produced none returns the board it was given. *)
Theorem move_leaves_no_hole fuel g b p q r g' :
  wf b → move fuel g b p q = Ret (r, g') →
  (moveEffects r ≠ [] → holes (board r) = 0) ∧
  (moveEffects r = [] → board r = b) ∧
  (holes b = 0 → holes (board r) = 0).
Proof.
  intros Hwf Hm.
  assert (Hcases : (board r = b ∧ moveEffects r = []) ∨
                   (holes (board r) = 0 ∧ moveEffects r ≠ [])).
  { apply move_log in Hm as Hlog. destruct Hlog as [(_ & -> & _)|(Hleg & boards & Hne & Hlog & _)].
    - by left.
    - right. split; [|rewrite Hlog; by intros ?%passes_nil].
      unfold move in Hm. rewrite Hleg in Hm. simpl in Hm. inv_bind Hm. inv_bind Hm.
      destruct x0 as [[b2 g2] effs]. injection Hm as <- <-. simpl in *.
      apply IsMoveLegal_true in Hleg as (b1 & Hs & Hnq). rewrite Hs in Hx. injection Hx as <-.
      apply SwapPieces_same_shape in Hs.
      apply CheckBoard_holes in Hx0 as Hh; [|by eapply same_shape_wf].
      destruct Hh as [->|?]; [|done].
      apply CheckBoard_log in Hx0 as (_ & _ & _ & _ & Hq & _). done. }
  destruct Hcases as [[-> ->]|[Hh Hne]]; repeat split; try done; congruence.
Qed.

Lemma draw_length k g vs g' : draw k g = Ret (vs, g') → length vs = k.
Proof.
  revert g vs. induction k as [|k IH]; intros g vs Hd; [by injection Hd as <- _|].
  simpl in Hd. inv_bind Hd. destruct x as [v g1]. inv_bind Hd. destruct x as [vs1 g2].
  injection Hd as <- <-. simpl. f_equal. by eapply IH.
Qed.

Lemma Init_cells (cells : list Position) (pieces : list (TilePiece T)) g :
  match draw (length cells) g with
  | Ret (vs, g') =>
      for_each (λ (st : list (TilePiece T) * G) p,
          let '(pieces, generator) := st in
          '(v, generator) ← next generator;
          Ret (pieces ++ [{| value := Some v; position := {| row := row p; col := col p |} |}],
               generator)) (pieces, g) cells
      = Ret (pieces ++ zip_with (λ p v, {| position := p; value := Some v |}) cells vs, g')
  | Throw e =>
      for_each (λ (st : list (TilePiece T) * G) p,
          let '(pieces, generator) := st in
          '(v, generator) ← next generator;
          Ret (pieces ++ [{| value := Some v; position := {| row := row p; col := col p |} |}],
               generator)) (pieces, g) cells = Throw e
  | OutOfFuel =>
      for_each (λ (st : list (TilePiece T) * G) p,
          let '(pieces, generator) := st in
          '(v, generator) ← next generator;
          Ret (pieces ++ [{| value := Some v; position := {| row := row p; col := col p |} |}],
               generator)) (pieces, g) cells = OutOfFuel
  end.
Proof.
  revert pieces g. induction cells as [|p cells IH]; intros pieces g.
  - simpl. by rewrite app_nil_r.
  - cbn [length draw for_each]. destruct (next g) as [[v g1]|e|]; simpl; [|done..].
    specialize (IH (pieces ++ [{| position := {| row := row p; col := col p |};
                                  value := Some v |}]) g1).
    destruct (draw (length cells) g1) as [[vs g']|e|]; simpl; [|done..].
    rewrite IH, <- app_assoc. simpl. by destruct p.
Qed.

Lemma grid_length w h : length (grid w h) = Z.to_nat w * Z.to_nat h.
Proof.
  unfold grid. rewrite <- (length_seqZ 0 w), <- (length_seqZ 0 h).
  generalize (seqZ 0 h), (seqZ 0 w). intros rs cs.
  induction rs as [|r rs IH]; [simpl; lia|]. rewrite bind_cons, length_app, IH.
  assert (Hblock : length (cs ≫= λ c, [{| row := r; col := c |}]) = length cs).
  { clear. induction cs as [|c cs IHc]; [done|]. rewrite bind_cons. simpl. by rewrite IHc. }
  rewrite Hblock. simpl. lia.
Qed.

(** X8: [create] calls the supplier once per cell, [width * height] times in
    all, and gives the values to the cells row by row: if every call answers,
    the read at (row, col) returns the value of call number
    [row * width + col]; the first call that throws ends [create] with that
    error. *)
Theorem create_draws g w h :
  length (grid w h) = Z.to_nat w * Z.to_nat h ∧
  match draw (Z.to_nat w * Z.to_nat h) g with
  | Ret (vs, g') =>
      ∃ b, create g w h = Ret (b, g') ∧ wf b ∧ width b = w ∧ height b = h ∧
           value <$> tilePieces b = Some <$> vs ∧
           ∀ p, in_bounds b p →
                tilePiece b p = Ret (vs !! Z.to_nat (row p * w + col p))
  | Throw e => create g w h = Throw e
  | OutOfFuel => create g w h = OutOfFuel
  end.
Proof.
  split; [apply grid_length|]. rewrite <- grid_length. unfold create, Init.
  rewrite (for_each_grid (λ (st : list (TilePiece T) * G) r c,
      let '(pieces, generator) := st in
      '(v, generator) ← next generator;
      Ret (pieces ++ [{| value := Some v; position := {| row := r; col := c |} |}],
           generator))).
  pose proof (Init_cells (grid w h) [] g) as Hinit.
  destruct (draw (length (grid w h)) g) as [[vs g']|e|] eqn:Hd; [|by rewrite Hinit..].
  rewrite Hinit. simpl. apply draw_length in Hd.
  set (b := {| width := w; height := h;
               tilePieces := zip_with (λ p v, {| position := p; value := Some v |})
                               (grid w h) vs |}).
  assert (Hwf : wf b).
  { unfold wf. simpl. apply list_eq. intros i.
    rewrite list_lookup_fmap, lookup_zip_with.
    destruct (grid w h !! i) as [p|] eqn:Hp; simpl; [|done].
    destruct (vs !! i) as [v|] eqn:Hv; [done|].
    apply lookup_ge_None in Hv. apply lookup_lt_Some in Hp. lia. }
  exists b. split; [done|]. split; [done|]. split; [done|]. split; [done|]. split.
  - simpl. apply list_eq. intros i. rewrite !list_lookup_fmap, lookup_zip_with.
    destruct (vs !! i) as [v|] eqn:Hv; simpl.
    + destruct (grid w h !! i) as [p|] eqn:Hp; [done|].
      apply lookup_ge_None in Hp. apply lookup_lt_Some in Hv. lia.
    + by destruct (grid w h !! i).
  - intros p Hin. rewrite wf_tilePiece_valueAt by done.
    destruct (wf_Find_in b p Hwf Hin) as ([i t] & Hf & Hi). unfold valueAt. rewrite Hf.
    apply Find_Some in Hf as [Ht _]. simpl in *. rewrite <- Hi, Nat2Z.id.
    rewrite lookup_zip_with in Ht.
    destruct (grid w h !! i), (vs !! i); simpl in Ht; try done. by injection Ht as <-.
Qed.

(** X9: [create] with a width or a height that is not positive builds a board
    with no tile and does not call the supplier. *)
Theorem create_without_cells g w h :
  (w ≤ 0)%Z ∨ (h ≤ 0)%Z →
  create g w h = Ret ({| width := w; height := h; tilePieces := [] |}, g).
Proof.
  intros Hdim. unfold create, Init.
  rewrite (for_each_grid (λ (st : list (TilePiece T) * G) r c,
      let '(pieces, generator) := st in
      '(v, generator) ← next generator;
      Ret (pieces ++ [{| value := Some v; position := {| row := r; col := c |} |}],
           generator))).
  assert (Hnil : grid w h = []).
  { apply length_zero_iff_nil. rewrite grid_length. lia. }
  by rewrite Hnil.
Qed.

End Refill.

End Gravity.

Section MatchFinder.
Context {T : Type} `{EqDecision T}.
Implicit Types (b : Board T) (p q : Position) (t : TilePiece T) (x e : Ref T).

Lemma clear_lookup_other (ms : list (Ref T)) (l : list (TilePiece T)) i :
  i ∉ fst <$> ms →
  foldl (λ pieces (m : Ref T), alter (setValue None) m.1 pieces) l ms !! i = l !! i.
Proof.
  revert l. induction ms as [|m ms IH]; intros l Hi; [done|]. cbn [foldl].
  rewrite fmap_cons in Hi. apply not_elem_of_cons in Hi as [Hne Hi].
  rewrite IH by done. by rewrite list_lookup_alter_ne.
Qed.

(** X10: [MatchValuesRemoved] clears the tiles its two lists refer to and no
    other: afterwards the read at a position returns [undefined] if a listed
    tile sits there, and what it returned before otherwise.  A tile listed
    twice, in both lists or in one, is cleared all the same. *)
Theorem MatchValuesRemoved_clears b rs cs :
  wf b → Forall (valid_ref b) rs → Forall (valid_ref b) cs →
  wf (MatchValuesRemoved b rs cs) ∧
  ∀ p, tilePiece (MatchValuesRemoved b rs cs) p =
       if decide (p ∈ (λ x : Ref T, position x.2) <$> (rs ++ cs)) then Ret None
       else tilePiece b p.
Proof.
  intros Hwf Hrs Hcs.
  pose proof (MatchValuesRemoved_same_shape b rs cs) as Hsh.
  assert (Hwf' : wf (MatchValuesRemoved b rs cs)) by by eapply same_shape_wf.
  split; [done|]. intros p. rewrite !wf_tilePiece_valueAt by done.
  assert (Hidx : ∀ x, x ∈ rs ++ cs → valid_ref b x).
  { intros x [?|?]%elem_of_app; [rewrite Forall_forall in Hrs | rewrite Forall_forall in Hcs];
      auto. }
  unfold valueAt at 2. destruct (FindTilePieceOnPosition b p) as [[i t]|] eqn:Hf.
  - apply Find_Some in Hf as [Hi Hp]. simpl in *. subst p.
    destruct (clear_lookup rs (tilePieces b) i t Hi) as (t1 & Ht1 & Hn1).
    destruct (clear_lookup cs _ i t1 Ht1) as (t2 & Ht2 & Hn2).
    rewrite <- (valueAt_lookup b i t Hwf Hi).
    change (foldl _ (foldl _ (tilePieces b) rs) cs)
      with (tilePieces (MatchValuesRemoved b rs cs)) in Ht2.
    assert (Hpos : position t2 = position t).
    { destruct Hsh as (_ & _ & Hpos). apply (f_equal (.!! i)) in Hpos.
      rewrite !list_lookup_fmap, Hi, Ht2 in Hpos. by injection Hpos. }
    rewrite <- Hpos, (valueAt_lookup _ i t2 Hwf' Ht2), Hpos.
    case_decide as Hin.
    + f_equal. apply list_elem_of_fmap in Hin as (x & Hx & Hin).
      assert (x.1 = i).
      { pose proof (wf_Find_lookup b x.1 x.2 Hwf (Hidx x Hin)) as Hfx.
        rewrite <- Hx, (wf_Find_lookup b i t Hwf Hi) in Hfx. by injection Hfx. }
      apply elem_of_app in Hin as [Hin|Hin].
      * apply Hn2. left. apply Hn1. right. apply list_elem_of_fmap. by exists x.
      * apply Hn2. right. apply list_elem_of_fmap. by exists x.
    + f_equal. rewrite (valueAt_lookup b i t Hwf Hi).
      assert (Hnot : ∀ ms : list (Ref T), (∀ x, x ∈ ms → x ∈ rs ++ cs) → i ∉ fst <$> ms).
      { intros ms Hsub (x & -> & Hx)%list_elem_of_fmap. apply Hin.
        apply list_elem_of_fmap. exists x. split; [|by apply Hsub].
        pose proof (Hidx x (Hsub x Hx)) as Hv. unfold valid_ref in Hv. congruence. }
      simpl in Ht2. rewrite !clear_lookup_other in Ht2.
      * congruence.
      * apply Hnot. intros x ?. apply elem_of_app. by left.
      * apply Hnot. intros x ?. apply elem_of_app. by right.
  - rewrite decide_False.
    + f_equal. unfold valueAt.
      pose proof (Find_same_shape b _ p Hsh) as Hi. rewrite Hf in Hi. simpl in Hi.
      by destruct (FindTilePieceOnPosition (MatchValuesRemoved b rs cs) p).
    + intros (x & -> & Hx)%list_elem_of_fmap.
      rewrite (wf_Find_lookup b x.1 x.2 Hwf (Hidx x Hx)) in Hf. done.
Qed.

Lemma CheckNeighbours_stops fuel b p (acc : list (Ref T)) v d :
  tilesAhead b d p ≤ fuel →
  ∃ run, CheckNeighbours fuel b (FindTilePieceOnPosition b p) acc v d = acc ++ run ∧
         ¬ holds b (advance d p (Z.of_nat (length run))) v.
Proof.
  revert p acc. induction fuel as [|fuel IH]; intros p acc Hfuel;
    destruct (FindTilePieceOnPosition b p) as [piece|] eqn:Hf.
  - apply tilesAhead_step with (d := d) in Hf. lia.
  - exists []. rewrite app_nil_r, advance_0. split; [done|].
    intros (x & Hx & _). congruence.
  - simpl. destruct (decide (value piece.2 = v)) as [Hv|Hv].
    + apply tilesAhead_step with (d := d) in Hf as Hlt.
      destruct (IH (FindNextPiecePosition piece d) (acc ++ [piece])) as (run & -> & Hstop);
        [lia|].
      exists (piece :: run). split; [by rewrite <- app_assoc|].
      apply Find_Some in Hf as [_ Hp].
      rewrite FindNextPiecePosition_advance, Hp, advance_advance in Hstop.
      by replace (Z.of_nat (length (piece :: run))) with (1 + Z.of_nat (length run))%Z
        by (simpl; lia).
    + exists []. rewrite app_nil_r, advance_0. split; [done|].
      intros (x & Hx & Hxv). congruence.
  - exists []. rewrite app_nil_r, advance_0. split; [by destruct fuel|].
    intros (x & Hx & _). congruence.
Qed.

Lemma walk_stops_at b e d :
  ¬ holds b (advance d (position e.2) (1 + Z.of_nat (length (walk b e d)))) (value e.2).
Proof.
  unfold walk.
  destruct (CheckNeighbours_stops (length (tilePieces b)) b (FindNextPiecePosition e d) []
              (value e.2) d) as (run & -> & Hstop); [apply length_filter|].
  simpl. by rewrite FindNextPiecePosition_advance, advance_advance in Hstop.
Qed.

(** X11: the neighbour walk from a tile, in any direction and on any board,
    collects the whole run of equal tiles next to it and nothing else: the
    tiles found at the positions one, two, ... cells further, in that order,
    each holding the start tile's value, up to the first position where there
    is no tile or one of another value. *)
Theorem walk_is_the_run b e d :
  Forall (λ x, valid_ref b x ∧ value x.2 = value e.2) (walk b e d) ∧
  (λ x : Ref T, position x.2) <$> walk b e d =
    (λ n : nat, advance d (position e.2) (1 + Z.of_nat n)) <$> seq 0 (length (walk b e d)) ∧
  ¬ holds b (advance d (position e.2) (1 + Z.of_nat (length (walk b e d)))) (value e.2).
Proof.
  destruct (walk_run b e d) as [Hall Hpos]. split; [done|]. split; [|apply walk_stops_at].
  rewrite Hpos. apply list_fmap_ext. intros _ n _. simpl.
  by rewrite FindNextPiecePosition_advance, advance_advance.
Qed.

(** *** Runs of three *)

Lemma advance_add d p (m n : Z) : advance d (advance d p m) n = advance d p (m + n).
Proof. destruct d, p; simpl; f_equal; lia. Qed.

Lemma advance_back back forth p (n : Z) :
  axis back forth → advance back p n = advance forth p (- n).
Proof. intros [[-> ->]|[-> ->]]; destruct p; simpl; f_equal; lia. Qed.

Lemma wf_holds_valid b x : wf b → valid_ref b x → holds b (position x.2) (value x.2).
Proof.
  intros Hwf Hx. exists x. split; [|done]. destruct x as [i t]. by apply wf_Find_lookup.
Qed.

Lemma walk_holds b e d (n : nat) :
  wf b → n < length (walk b e d) →
  holds b (advance d (position e.2) (1 + Z.of_nat n)) (value e.2).
Proof.
  intros Hwf Hn. destruct (walk_run b e d) as [Hall Hpos].
  destruct (lookup_lt_is_Some_2 _ _ Hn) as [x Hx].
  destruct (Forall_lookup_1 _ _ _ _ Hall Hx) as [Hvalid Hv].
  apply (f_equal (.!! n)) in Hpos.
  rewrite !list_lookup_fmap, Hx, lookup_seq_lt in Hpos by done. simpl in Hpos.
  injection Hpos as Hpos.
  rewrite FindNextPiecePosition_advance, advance_advance in Hpos.
  rewrite <- Hpos, <- Hv. by apply wf_holds_valid.
Qed.

(** A neighbour check that reports a match has found three equal tiles in a
    line. *)
Lemma neighbourCheck_sound back forth b e :
  wf b → valid_ref b e → axis back forth →
  matches (neighbourCheck back forth b e) ≠ [] → has_run3 b forth.
Proof.
  intros Hwf He Hax Hne.
  destruct (neighbourCheck_cases back forth b e) as [Hno|[Hlen _]]; [by rewrite Hno in Hne|].
  rewrite !length_app in Hlen. simpl in Hlen.
  set (m := length (walk b e back)) in *. set (k := length (walk b e forth)) in *.
  assert (Hrun : ∀ j : Z, (- Z.of_nat m ≤ j ≤ Z.of_nat k)%Z →
                          holds b (advance forth (position e.2) j) (value e.2)).
  { intros j Hj. destruct (Z.lt_trichotomy j 0) as [Hneg|[->|Hpos]].
    - replace j with (- (1 + Z.of_nat (Z.to_nat (- j - 1))))%Z by lia.
      rewrite <- (advance_back back forth) by done. apply walk_holds; [done|]. fold m. lia.
    - rewrite advance_0. by apply wf_holds_valid.
    - replace j with (1 + Z.of_nat (Z.to_nat (j - 1)))%Z by lia.
      apply walk_holds; [done|]. fold k. lia. }
  exists (advance forth (position e.2) (- Z.of_nat m)), (value e.2).
  rewrite !advance_add. split; [|split]; apply Hrun; lia.
Qed.

(** A neighbour check started on the first of three equal tiles in a line
    reports a match. *)
Lemma neighbourCheck_complete back forth b p e :
  FindTilePieceOnPosition b p = Some e →
  holds b (advance forth p 1) (value e.2) → holds b (advance forth p 2) (value e.2) →
  matches (neighbourCheck back forth b e) ≠ [].
Proof.
  intros Hf H1 H2. apply Find_Some in Hf as [_ Hp].
  pose proof (walk_stops_at b e forth) as Hstop. rewrite Hp in Hstop.
  assert (Hlen : 2 ≤ length (walk b e forth)).
  { destruct (length (walk b e forth)) as [|[|n]]; [done|done|lia]. }
  unfold neighbourCheck. rewrite bool_decide_eq_true_2 by lia. simpl.
  by destruct (walk b e back).
Qed.

Lemma scan_sound back forth b (lines : list (list (Ref T))) :
  wf b → axis back forth →
  (∀ line e, line ∈ lines → e ∈ line → valid_ref b e) →
  matches (scanLines (neighbourCheck back forth b) lines) ≠ [] → has_run3 b forth.
Proof.
  intros Hwf Hax Hvalid.
  apply (scanLines_ind (λ acc, matches acc ≠ [] → has_run3 b forth)); [done|].
  intros acc line pre e post Hline -> _ IH Hne. simpl in Hne.
  destruct (matches acc) as [|]; [|by apply IH].
  apply (neighbourCheck_sound back forth b e); [done| |done|done].
  apply (Hvalid _ e Hline). apply elem_of_app. right. apply elem_of_cons. by left.
Qed.

Lemma row_lines_valid b line e :
  line ∈ FindAllTilePiecesInRow b <$> seqZ 0 (height b) → e ∈ line → valid_ref b e.
Proof. intros (k & -> & _)%list_elem_of_fmap He. by eapply line_valid. Qed.

Lemma column_lines_valid b line e :
  line ∈ FindAllTilePiecesInColumn b <$> reverse (seqZ 0 (width b + 1)) → e ∈ line →
  valid_ref b e.
Proof. intros (k & -> & _)%list_elem_of_fmap He. by eapply line_valid. Qed.

Lemma FindAllRowMatches_sound b :
  wf b → matches (FindAllRowMatches b) ≠ [] → has_run3 b RIGHT.
Proof.
  intros Hwf. unfold FindAllRowMatches. rewrite AllNeighboursInRowCheck_eq.
  apply scan_sound; [done | by left | apply row_lines_valid].
Qed.

Lemma FindAllColumnMatches_sound b :
  wf b → matches (FindAllColumnMatches b) ≠ [] → has_run3 b DOWN.
Proof.
  intros Hwf. unfold FindAllColumnMatches. rewrite AllNeighboursInColCheck_eq.
  apply scan_sound; [done | by right | apply column_lines_valid].
Qed.

Lemma IsMoveLegal_true_run b p q :
  wf b → canMove b p q = Ret (true, b) →
  ∃ b1, SwapPieces b p q = Ret b1 ∧ (has_run3 b1 RIGHT ∨ has_run3 b1 DOWN).
Proof.
  intros Hwf Hlegal. unfold canMove, IsMoveLegal in Hlegal.
  repeat case_match; simplify_eq. inv_bind Hlegal. inv_bind Hlegal.
  exists x. split; [done|].
  assert (Hwf1 : wf x) by (eapply same_shape_wf; [by eapply SwapPieces_same_shape | done]).
  destruct (bool_decide (length (matches (FindAllRowMatches x)) = 0)) eqn:Hr.
  - destruct (bool_decide (length (matches (FindAllColumnMatches x)) = 0)) eqn:Hc;
      [done|]. right. apply bool_decide_eq_false in Hc.
    apply FindAllColumnMatches_sound; [done|]. intros Hnil. by rewrite Hnil in Hc.
  - left. apply bool_decide_eq_false in Hr.
    apply FindAllRowMatches_sound; [done|]. intros Hnil. by rewrite Hnil in Hr.
Qed.

(** X12: the functional validator never calls a swap legal that makes no run:
    when [canMove] answers [true] on a board built by [create], the board
    with the two values swapped holds three equal tiles side by side in a row
    or one below the other in a column. *)
Theorem canMove_true_makes_run b p q :
  wf b → canMove b p q = Ret (true, b) →
  ∃ b1, SwapPieces b p q = Ret b1 ∧ (has_run3 b1 RIGHT ∨ has_run3 b1 DOWN).
Proof. apply IsMoveLegal_true_run. Qed.

(** *** The class's scans *)

Lemma OO_AllNeighboursInRowCheck_eq b e :
  OO.AllNeighboursInRowCheck b e = matches (neighbourCheck LEFT RIGHT b e).
Proof. unfold OO.AllNeighboursInRowCheck, neighbourCheck. by case_bool_decide. Qed.

Lemma OO_AllNeighboursInColCheck_eq b e :
  OO.AllNeighboursInColCheck b e = matches (neighbourCheck UP DOWN b e).
Proof. unfold OO.AllNeighboursInColCheck, neighbourCheck. by case_bool_decide. Qed.

Lemma OO_FindRowMatches_scan b :
  OO.FindRowMatches b =
  OO_scan (OO.AllNeighboursInRowCheck b) (FindAllTilePiecesInRow b <$> seqZ 0 (height b)).
Proof. unfold OO.FindRowMatches, OO_scan. by rewrite foldl_fmap. Qed.

Lemma OO_FindColMatches_scan b :
  OO.FindColMatches b =
  OO_scan (OO.AllNeighboursInColCheck b)
    (FindAllTilePiecesInColumn b <$> reverse (seqZ 0 (width b + 1))).
Proof. unfold OO.FindColMatches, OO_scan. by rewrite foldl_fmap. Qed.

Lemma OO_line_grows (check : Ref T → list (Ref T)) (line found : list (Ref T)) :
  found ≠ [] →
  foldl (λ found tilePiece,
      if negb (OO.includes found tilePiece) then found ++ check tilePiece else found)
    found line ≠ [].
Proof.
  revert found. induction line as [|e line IH]; intros found Hne; [done|]. simpl.
  apply IH. destruct (negb _); [|done]. by destruct found.
Qed.

Lemma OO_line_hit (check : Ref T → list (Ref T)) (line found : list (Ref T)) e :
  e ∈ line → check e ≠ [] →
  foldl (λ found tilePiece,
      if negb (OO.includes found tilePiece) then found ++ check tilePiece else found)
    found line ≠ [].
Proof.
  revert found. induction line as [|e' line IH]; intros found He Hc.
  - by apply elem_of_nil in He.
  - simpl. apply elem_of_cons in He as [<-|He]; [|by apply IH].
    apply OO_line_grows. unfold OO.includes. case_bool_decide as Hin; simpl.
    + intros ->. by apply elem_of_nil in Hin.
    + intros [_ ?]%app_eq_nil. done.
Qed.

Lemma OO_scan_complete (check : Ref T → list (Ref T)) (lines : list (list (Ref T))) line e :
  line ∈ lines → e ∈ line → check e ≠ [] → OO_scan check lines ≠ [].
Proof.
  intros Hline He Hc. unfold OO_scan.
  assert (Hgrow : ∀ ls found, found ≠ [] →
    foldl (λ found line,
        foldl (λ found tilePiece,
            if negb (OO.includes found tilePiece) then found ++ check tilePiece else found)
          found line) found ls ≠ []).
  { intros ls. induction ls as [|l' ls IHl]; intros found Hne; [done|]. simpl.
    by apply IHl, OO_line_grows. }
  assert (Hhit : ∀ ls found, line ∈ ls →
    foldl (λ found line,
        foldl (λ found tilePiece,
            if negb (OO.includes found tilePiece) then found ++ check tilePiece else found)
          found line) found ls ≠ []).
  { intros ls. induction ls as [|l ls IH]; intros found Hin; [by apply elem_of_nil in Hin|].
    simpl. apply elem_of_cons in Hin as [<-|Hin]; [|by apply IH].
    by apply Hgrow, (OO_line_hit check line found e). }
  by apply Hhit.
Qed.

Lemma OO_scan_sound (check : Ref T → list (Ref T)) (lines : list (list (Ref T))) :
  OO_scan check lines ≠ [] → ∃ line e, line ∈ lines ∧ e ∈ line ∧ check e ≠ [].
Proof.
  unfold OO_scan.
  assert (Hline : ∀ line found,
    foldl (λ found tilePiece,
        if negb (OO.includes found tilePiece) then found ++ check tilePiece else found)
      found line ≠ [] → found ≠ [] ∨ ∃ e, e ∈ line ∧ check e ≠ []).
  { intros line. induction line as [|e line IH]; intros found Hne; [by left|].
    simpl in Hne. apply IH in Hne as [Hne|(e' & ? & ?)].
    - destruct (negb _); [|by left]. destruct found as [|]; [|by left].
      right. exists e. split; [apply elem_of_cons; by left | done].
    - right. exists e'. split; [apply elem_of_cons; by right | done]. }
  assert (Hlines : ∀ ls found,
    foldl (λ found line,
        foldl (λ found tilePiece,
            if negb (OO.includes found tilePiece) then found ++ check tilePiece else found)
          found line) found ls ≠ [] →
    found ≠ [] ∨ ∃ line e, line ∈ ls ∧ e ∈ line ∧ check e ≠ []).
  { intros ls. induction ls as [|l ls IH]; intros found Hne; [by left|].
    simpl in Hne. apply IH in Hne as [Hne|(line & e & ? & ? & ?)].
    - apply Hline in Hne as [?|(e & ? & ?)]; [by left|].
      right. exists l, e. split; [apply elem_of_cons; by left | done].
    - right. exists line, e. split; [apply elem_of_cons; by right | done]. }
  intros Hne. by apply Hlines in Hne as [?|?].
Qed.

Lemma OO_FindRowMatches_exact b :
  wf b → OO.FindRowMatches b ≠ [] ↔ has_run3 b RIGHT.
Proof.
  intros Hwf. rewrite OO_FindRowMatches_scan. split.
  - intros (line & e & Hline & He & Hc)%OO_scan_sound.
    rewrite OO_AllNeighboursInRowCheck_eq in Hc.
    apply (neighbourCheck_sound LEFT RIGHT b e); [done| |by left|done].
    by eapply row_lines_valid.
  - intros (p & v & (e & Hf & Hv) & H1 & H2). subst v.
    apply Find_Some in Hf as Hfe. destruct Hfe as [He Hp].
    destruct (wf_lookup b _ _ Hwf He) as [[Hr _] _]. rewrite Hp in Hr.
    apply (OO_scan_complete _ _ (FindAllTilePiecesInRow b (row p)) e).
    + apply list_elem_of_fmap. exists (row p). split; [done|]. apply elem_of_seqZ. lia.
    + apply list_elem_of_filter. split; [by rewrite Hp|].
      destruct e as [i t]. by apply (elem_of_lookup_imap_2 pair).
    + rewrite OO_AllNeighboursInRowCheck_eq. by eapply neighbourCheck_complete.
Qed.

Lemma OO_FindColMatches_exact b :
  wf b → OO.FindColMatches b ≠ [] ↔ has_run3 b DOWN.
Proof.
  intros Hwf. rewrite OO_FindColMatches_scan. split.
  - intros (line & e & Hline & He & Hc)%OO_scan_sound.
    rewrite OO_AllNeighboursInColCheck_eq in Hc.
    apply (neighbourCheck_sound UP DOWN b e); [done| |by right|done].
    by eapply column_lines_valid.
  - intros (p & v & (e & Hf & Hv) & H1 & H2). subst v.
    apply Find_Some in Hf as Hfe. destruct Hfe as [He Hp].
    destruct (wf_lookup b _ _ Hwf He) as [[_ Hc] _]. rewrite Hp in Hc.
    apply (OO_scan_complete _ _ (FindAllTilePiecesInColumn b (col p)) e).
    + apply list_elem_of_fmap. exists (col p). split; [done|].
      apply elem_of_reverse, elem_of_seqZ. lia.
    + apply list_elem_of_filter. split; [by rewrite Hp|].
      destruct e as [i t]. by apply (elem_of_lookup_imap_2 pair).
    + rewrite OO_AllNeighboursInColCheck_eq. by eapply neighbourCheck_complete.
Qed.

Lemma OO_IsAnyMatch_iff b :
  wf b → OO.IsAnyMatch b = true ↔ has_run3 b RIGHT ∨ has_run3 b DOWN.
Proof.
  intros Hwf. rewrite <- OO_FindRowMatches_exact, <- OO_FindColMatches_exact by done.
  unfold OO.IsAnyMatch. rewrite <- !length_zero_iff_nil.
  repeat case_bool_decide; simpl; split; try done; try tauto; intros [?|?]; done.
Qed.

(** X13: the class's scans are exact.  On a board built by its constructor,
    [IsAnyMatch] answers [true] if and only if the board holds three equal
    tiles side by side in a row or one below the other in a column. *)
Theorem OO_IsAnyMatch_exact b :
  wf b → OO.IsAnyMatch b = true ↔ has_run3 b RIGHT ∨ has_run3 b DOWN.
Proof. apply OO_IsAnyMatch_iff. Qed.

Lemma OO_IsMoveLegal_exact b p q :
  wf b → in_bounds b p → in_bounds b q → p ≠ q → row p = row q ∨ col p = col q →
  ∃ b1 legal, SwapPieces b p q = Ret b1 ∧ OO.canMove b p q = Ret (legal, b) ∧
              (legal = true ↔ has_run3 b1 RIGHT ∨ has_run3 b1 DOWN).
Proof.
  intros Hwf Hp Hq Hne Hline.
  destruct (wf_SwapPieces b p q Hwf Hp Hq) as [b1 Hs].
  assert (Hwf1 : wf b1) by (eapply same_shape_wf; [by eapply SwapPieces_same_shape | done]).
  exists b1, (OO.IsAnyMatch b1). split; [done|]. split; [|by apply OO_IsAnyMatch_iff].
  unfold OO.canMove, OO.IsMoveLegal, OO.IsSameTile, OO.IsTileSameRowOrColumn.
  rewrite !OO_IsPositionWithinBoard.
  apply IsPositionOutsideBoard_spec in Hp, Hq. rewrite Hp, Hq.
  rewrite bool_decide_eq_false_2 by (intros [??]; apply Hne; by apply Position_eq).
  rewrite bool_decide_eq_false_2 by tauto. simpl.
  unfold OO.MoveResultInMatches. rewrite Hs. simpl.
  rewrite SwapPieces_comm, (SwapPieces_involutive _ _ _ _ Hs). done.
Qed.

(** X14: the class's validator is exact.  For two distinct cells of the board
    that share a row or a column, [canMove] returns, leaves the board as it
    was, and answers [true] if and only if the board with the two values
    swapped holds a run of three. *)
Theorem OO_canMove_exact b p q :
  wf b → in_bounds b p → in_bounds b q → p ≠ q → row p = row q ∨ col p = col q →
  ∃ b1 legal, SwapPieces b p q = Ret b1 ∧ OO.canMove b p q = Ret (legal, b) ∧
              (legal = true ↔ has_run3 b1 RIGHT ∨ has_run3 b1 DOWN).
Proof. apply OO_IsMoveLegal_exact. Qed.

(** X15: what the functional validator accepts, the class's validator
    accepts too. *)
Theorem canMove_true_OO_canMove_true b p q :
  wf b → canMove b p q = Ret (true, b) → OO.canMove b p q = Ret (true, b).
Proof.
  intros Hwf Hlegal.
  assert (Hguards : in_bounds b p ∧ in_bounds b q ∧ p ≠ q ∧ (row p = row q ∨ col p = col q)).
  { unfold canMove, IsMoveLegal in Hlegal.
    destruct (IsPositionOutsideBoard b p) eqn:Hp; [|done].
    destruct (IsPositionOutsideBoard b q) eqn:Hq; [|done].
    apply IsPositionOutsideBoard_spec in Hp, Hq. simpl in Hlegal.
    repeat case_bool_decide; simpl in Hlegal; try done;
      (split; [done|]; split; [done|]; split; [congruence | tauto]). }
  destruct Hguards as (Hp & Hq & Hne & Hline).
  destruct (OO_IsMoveLegal_exact b p q Hwf Hp Hq Hne Hline) as (b1 & legal & Hs & Hoo & Hiff).
  destruct (IsMoveLegal_true_run b p q Hwf Hlegal) as (b1' & Hs' & Hrun).
  rewrite Hs in Hs'. injection Hs' as <-. apply Hiff in Hrun. by subst legal.
Qed.

End MatchFinder.

Section Lines.
Context {T : Type} `{EqDecision T}.
Implicit Types (b : Board T) (p q : Position).

Lemma positions_filter_imap (P : Position → Prop) `{!∀ q, Decision (P q)}
    (l : list (TilePiece T)) (k : nat) :
  (λ x : Ref T, position x.2)
    <$> filter (λ x : Ref T, P (position x.2)) (imap (λ i, pair (k + i)) l)
  = filter P (position <$> l).
Proof.
  revert k. induction l as [|t l IH]; intros k; [done|].
  assert (Htail : imap ((λ i, pair (k + i)) ∘ S) l = imap (λ i, pair (S k + i)) l).
  { apply imap_ext. intros i x _. simpl. f_equal. lia. }
  rewrite imap_cons, Htail, (fmap_cons position), !filter_cons.
  destruct (decide (P (position t))) as [HP|HP].
  - rewrite decide_True by done. by rewrite fmap_cons, IH.
  - rewrite decide_False by done. by rewrite IH.
Qed.

Lemma positions_filter_line (P : Position → Prop) `{!∀ q, Decision (P q)}
    (l : list (TilePiece T)) :
  (λ x : Ref T, position x.2) <$> filter (λ x : Ref T, P (position x.2)) (imap pair l)
  = filter P (position <$> l).
Proof.
  by rewrite <- (positions_filter_imap P l 0).
Qed.

Lemma filter_bind {A B : Type} (P : B → Prop) `{!∀ y, Decision (P y)} (f : A → list B)
    (l : list A) :
  filter P (l ≫= f) = l ≫= λ a, filter P (f a).
Proof.
  induction l as [|a l IH]; [done|]. by rewrite !bind_cons, filter_app, IH.
Qed.

Lemma bind_select {A B : Type} `{EqDecision A} (r : A) (f : A → list B) (rs : list A) :
  NoDup rs → (rs ≫= λ r', if decide (r' = r) then f r' else []) = if decide (r ∈ rs) then f r else [].
Proof.
  induction rs as [|r' rs IH]; intros Hnd; [done|].
  apply NoDup_cons in Hnd as [Hnotin Hnd]. rewrite bind_cons, IH by done.
  destruct (decide (r' = r)) as [->|Hne].
  - rewrite decide_False by done. rewrite decide_True by (apply elem_of_cons; by left).
    by rewrite app_nil_r.
  - simpl. destruct (decide (r ∈ rs)) as [Hin|Hin].
    + by rewrite decide_True by (apply elem_of_cons; by right).
    + rewrite decide_False; [done|]. intros [?|?]%elem_of_cons; congruence.
Qed.

Lemma bind_singleton_fmap {A B : Type} (f : A → B) (l : list A) :
  (l ≫= λ a, [f a]) = f <$> l.
Proof. induction l as [|a l IH]; [done|]. by rewrite bind_cons, IH. Qed.

Lemma grid_row w h (k : Z) :
  filter (λ q, row q = k) (grid w h) =
  if decide (0 ≤ k < h)%Z then (λ c, {| row := k; col := c |}) <$> seqZ 0 w else [].
Proof.
  unfold grid. rewrite filter_bind.
  rewrite (list_bind_ext _ (λ r', if decide (r' = k)
                                  then (λ r, (λ c, {| row := r; col := c |}) <$> seqZ 0 w) r'
                                  else []) _ (seqZ 0 h)); [|intros r'|done].
  - rewrite bind_select by apply NoDup_seqZ.
    repeat case_decide; try done; exfalso;
      match goal with Hin : context [_ ∈ seqZ _ _] |- _ => rewrite elem_of_seqZ in Hin end; lia.
  - rewrite <- bind_singleton_fmap. generalize (seqZ 0 w). intros cs.
    induction cs as [|c cs IH]; [by case_decide|].
    rewrite !bind_cons, filter_app, IH. simpl. rewrite filter_cons. simpl.
    repeat case_decide; simpl; try done; congruence.
Qed.

Lemma grid_column w h (k : Z) :
  filter (λ q, col q = k) (grid w h) =
  if decide (0 ≤ k < w)%Z then (λ r, {| row := r; col := k |}) <$> seqZ 0 h else [].
Proof.
  unfold grid. rewrite filter_bind.
  rewrite (list_bind_ext _ (λ r, if decide (k ∈ seqZ 0 w) then [{| row := r; col := k |}]
                                 else []) _ (seqZ 0 h)); [|intros r|done].
  - destruct (decide (k ∈ seqZ 0 w)) as [Hin|Hin]; rewrite elem_of_seqZ in Hin.
    + rewrite decide_True by lia. apply bind_singleton_fmap.
    + rewrite decide_False by lia. generalize (seqZ 0 h). intros rs.
      induction rs as [|r rs IH]; [done|]. by rewrite bind_cons, IH.
  - rewrite filter_bind.
    rewrite (list_bind_ext _ (λ c', if decide (c' = k)
                                    then (λ c, [{| row := r; col := c |}]) c' else [])
               _ (seqZ 0 w)); [|intros c'|done].
    + by rewrite bind_select by apply NoDup_seqZ.
    + rewrite filter_cons. simpl. by repeat case_decide.
Qed.

(** X16: on a board built by [create], [FindAllTilePiecesInRow(board, k)]
    lists the tiles of row [k] by increasing column, and
    [FindAllTilePiecesInColumn(board, k)] the tiles of column [k] by
    increasing row; an index that names no row (no column) of the board gives
    the empty list. *)
Theorem lines_in_order b (k : Z) :
  wf b →
  (λ x : Ref T, position x.2) <$> FindAllTilePiecesInRow b k =
    (if decide (0 ≤ k < height b)%Z
     then (λ c, {| row := k; col := c |}) <$> seqZ 0 (width b) else []) ∧
  (λ x : Ref T, position x.2) <$> FindAllTilePiecesInColumn b k =
    (if decide (0 ≤ k < width b)%Z
     then (λ r, {| row := r; col := k |}) <$> seqZ 0 (height b) else []) ∧
  Forall (valid_ref b) (FindAllTilePiecesInRow b k) ∧
  Forall (valid_ref b) (FindAllTilePiecesInColumn b k).
Proof.
  intros Hwf. unfold FindAllTilePiecesInRow, FindAllTilePiecesInColumn.
  split; [|split; [|split]].
  - etrans; [apply (@positions_filter_line (λ q, row q = k)
                     (λ q, decide_rel (=) (row q) k) (tilePieces b))|].
    rewrite Hwf. apply grid_row.
  - etrans; [apply (@positions_filter_line (λ q, col q = k)
                     (λ q, decide_rel (=) (col q) k) (tilePieces b))|].
    rewrite Hwf. apply grid_column.
  - apply Forall_forall. intros x Hx. by eapply line_valid.
  - apply Forall_forall. intros x Hx. by eapply line_valid.
Qed.

End Lines.

(** ** The events of the class's scans *)

Section ClassEvents.
Context {T : Type} `{EqDecision T}.
Implicit Types (b : Board T) (p q : Position) (x y z e : Ref T).

Lemma valid_same_position b x y :
  wf b → valid_ref b x → valid_ref b y → position x.2 = position y.2 → x = y.
Proof.
  intros Hwf Hx Hy Hpos.
  pose proof (wf_Find_lookup b _ _ Hwf Hx) as Hfx.
  pose proof (wf_Find_lookup b _ _ Hwf Hy) as Hfy.
  rewrite Hpos, Hfy in Hfx. destruct x, y. simpl in *. congruence.
Qed.

Lemma includes_valid b (found : list (Ref T)) x :
  Forall (valid_ref b) found → valid_ref b x → OO.includes found x = true ↔ x ∈ found.
Proof.
  intros Hall Hx. unfold OO.includes. rewrite bool_decide_eq_true. split.
  - intros (y & Hy1 & Hy)%list_elem_of_fmap.
    rewrite Forall_forall in Hall. specialize (Hall y Hy).
    unfold valid_ref in Hx, Hall. rewrite Hy1, Hall in Hx.
    destruct x, y. simpl in *. by simplify_eq.
  - intros Hin. apply list_elem_of_fmap. by exists x.
Qed.

(** The length of a walk is the number of cells next to the start tile that
    hold its value without a gap. *)
Lemma walk_length_unique b e d (n : nat) :
  wf b →
  (∀ i : nat, i < n → holds b (advance d (position e.2) (1 + Z.of_nat i)) (value e.2)) →
  ¬ holds b (advance d (position e.2) (1 + Z.of_nat n)) (value e.2) →
  length (walk b e d) = n.
Proof.
  intros Hwf Hall Hstop.
  destruct (Nat.lt_trichotomy (length (walk b e d)) n) as [Hlt|[Heq|Hgt]]; [|done|].
  - exfalso. by apply (walk_stops_at b e d), Hall.
  - exfalso. by apply Hstop, walk_holds.
Qed.

(** A tile and its neighbour of the same value: the walk from the neighbour
    towards the tile is one longer than the walk from the tile on. *)
Lemma walk_length_next b d x y :
  wf b → valid_ref b x → valid_ref b y →
  position x.2 = advance d (position y.2) 1 → value x.2 = value y.2 →
  length (walk b y d) = S (length (walk b x d)).
Proof.
  intros Hwf Hx Hy Hpos Hv. apply walk_length_unique; [done| |].
  - intros i Hi. rewrite <- advance_add, <- Hpos, <- Hv. destruct i as [|i].
    + rewrite advance_0. by apply wf_holds_valid.
    + replace (Z.of_nat (S i)) with (1 + Z.of_nat i)%Z by lia.
      apply walk_holds; [done|lia].
  - rewrite <- advance_add, <- Hpos, <- Hv.
    replace (Z.of_nat (S (length (walk b x d)))) with (1 + Z.of_nat (length (walk b x d)))%Z
      by lia.
    apply walk_stops_at.
Qed.

(** A tile with the walk from it is closed in the direction of the walk: the
    next tile after one of them, if it holds the same value, is one of them. *)
Lemma run_closed b e d y z :
  wf b → valid_ref b e → y ∈ e :: walk b e d → valid_ref b z →
  position z.2 = advance d (position y.2) 1 → value z.2 = value y.2 →
  z ∈ walk b e d.
Proof.
  intros Hwf He Hy Hz Hpos Hv.
  destruct (walk_run b e d) as [Hall Hwalk]. rewrite Forall_forall in Hall.
  assert (Hk : ∃ k : nat, k ≤ length (walk b e d) ∧
                 position y.2 = advance d (position e.2) (Z.of_nat k) ∧
                 value y.2 = value e.2).
  { apply elem_of_cons in Hy as [->|Hy].
    - exists 0. split; [lia|]. by rewrite advance_0.
    - destruct (Hall y Hy) as [_ Hvy].
      assert (Hp : position y.2 ∈ (λ x : Ref T, position x.2) <$> walk b e d)
        by (apply list_elem_of_fmap; by exists y).
      rewrite Hwalk in Hp. apply list_elem_of_fmap in Hp as (n & Hn & Hin).
      apply elem_of_seq in Hin. exists (S n). split; [lia|]. split; [|done].
      rewrite Hn, FindNextPiecePosition_advance, advance_add. f_equal. lia. }
  destruct Hk as (k & Hk & Hyp & Hyv).
  assert (Hzp : position z.2 = advance d (position e.2) (1 + Z.of_nat k)).
  { rewrite Hpos, Hyp, advance_add. f_equal. lia. }
  assert (Hlt : k < length (walk b e d)).
  { destruct (decide (k = length (walk b e d))) as [->|]; [exfalso|lia].
    apply (walk_stops_at b e d). rewrite <- Hzp, <- Hyv, <- Hv. by apply wf_holds_valid. }
  destruct (lookup_lt_is_Some_2 (walk b e d) k Hlt) as [w Hw].
  assert (Hwp : position w.2 = position z.2).
  { pose proof (f_equal (λ l, l !! k) Hwalk) as Hl. simpl in Hl.
    rewrite !list_lookup_fmap, Hw, lookup_seq_lt in Hl by done. simpl in Hl.
    injection Hl as Hl. rewrite Hl, Hzp, FindNextPiecePosition_advance, advance_add.
    done. }
  apply list_elem_of_lookup_2 in Hw as Hwin.
  destruct (Hall w Hwin) as [Hwv _].
  by rewrite <- (valid_same_position b w z Hwf Hwv Hz Hwp).
Qed.

Lemma addResult_noMatch (acc : MatchResult T) : addResult acc noMatch = acc.
Proof. destruct acc. unfold addResult. simpl. by rewrite !app_nil_r. Qed.

Lemma foldl_ext_all {A B : Type} (f f' : A → B → A) (l : list B) (a : A) :
  (∀ a v, f a v = f' a v) → foldl f a l = foldl f' a l.
Proof.
  intros Hf. revert a. induction l as [|v l IH]; intros a; [done|].
  cbn [foldl]. by rewrite Hf, IH.
Qed.

Lemma OO_scan_log_matches (check : Ref T → MatchResult T) (lines : list (list (Ref T))) :
  matches (OO_scan_log check lines) = OO_scan (λ x, matches (check x)) lines.
Proof.
  unfold OO_scan_log, OO_scan. change (@nil (Ref T)) with (matches (@noMatch T)).
  generalize (@noMatch T). induction lines as [|line lines IH]; intros acc; [done|].
  cbn [foldl]. rewrite IH. f_equal. clear IH. revert acc.
  induction line as [|x line IH]; intros acc; [done|].
  cbn [foldl]. rewrite IH. f_equal. by destruct (negb _).
Qed.

Lemma OO_scan_log_coherent (check : Ref T → MatchResult T) (lines : list (list (Ref T))) :
  (∀ x, coherent (check x)) → coherent (OO_scan_log check lines).
Proof.
  intros Hcheck. unfold OO_scan_log.
  assert (Hacc : coherent (@noMatch T)) by apply coherent_noMatch.
  revert Hacc. generalize (@noMatch T).
  induction lines as [|line lines IH]; intros acc Hacc; [done|].
  cbn [foldl]. apply IH. clear IH. revert acc Hacc.
  induction line as [|x line IH]; intros acc Hacc; [done|].
  cbn [foldl]. apply IH. destruct (negb _); [|done]. by apply coherent_addResult.
Qed.

Lemma OO_rows_matches b : matches (OO_rows b) = OO.FindRowMatches b.
Proof.
  unfold OO_rows. rewrite OO_scan_log_matches, OO_FindRowMatches_scan. unfold OO_scan.
  apply foldl_ext_all. intros found line. apply foldl_ext_all. intros found' e.
  by rewrite OO_AllNeighboursInRowCheck_eq.
Qed.

Lemma OO_columns_matches b : matches (OO_columns b) = OO.FindColMatches b.
Proof.
  unfold OO_columns. rewrite OO_scan_log_matches, OO_FindColMatches_scan. unfold OO_scan.
  apply foldl_ext_all. intros found line. apply foldl_ext_all. intros found' e.
  by rewrite OO_AllNeighboursInColCheck_eq.
Qed.

(** *** Every event of a scan is a run *)

Section Axis.
Variables (b : Board T) (back forth : DIRECTION) (key : Position → Z).
Hypothesis Hwf : wf b.
Hypothesis Hax : axis back forth.
Hypothesis Hkey : ∀ p, key (advance back p 1) = key p.

Lemma scanned_tile (k : Z) (pre post : list (Ref T)) x acc :
  filter (λ e : Ref T, key (position e.2) = k) (imap pair (tilePieces b)) = pre ++ x :: post →
  scanned b back forth pre acc →
  scanned b back forth (pre ++ [x])
    (if negb (OO.includes (matches acc) x)
     then addResult acc (neighbourCheck back forth b x) else acc).
Proof.
  intros Hline (Hvalid & Hclosed & Hpre & Hgood).
  assert (Hxl : x ∈ filter (λ e : Ref T, key (position e.2) = k) (imap pair (tilePieces b))).
  { rewrite Hline. apply elem_of_app. right. apply elem_of_cons. by left. }
  assert (Hx : valid_ref b x) by by eapply line_valid.
  apply list_elem_of_filter in Hxl as [Hkx _].
  destruct (OO.includes (matches acc) x) eqn:Hinc; cbn [negb].
  { apply (includes_valid b) in Hinc; [|done..].
    split; [done|]. split; [done|]. split; [|done].
    intros y [Hy|Hy%list_elem_of_singleton]%elem_of_app; [by apply Hpre | left; by subst]. }
  assert (Hout : x ∉ matches acc).
  { intros Hin. apply (includes_valid b) in Hin; [congruence|done..]. }
  destruct (decide (3 ≤ length (walk b x back) + length (walk b x forth) + 1)) as [Hsize|Hsize].
  - assert (Hback : walk b x back = []).
    { apply walk_stops. intros y Hf Hv. apply Find_Some in Hf as [Hy Hpos].
      rewrite FindNextPiecePosition_advance in Hpos.
      assert (Hxy : position x.2 = advance forth (position y.2) 1).
      { rewrite Hpos, (advance_back back forth _ _ Hax), advance_add.
        by rewrite Z.add_opp_diag_l, advance_0. }
      assert (Hy_pre : y ∈ pre).
      { apply (line_before (λ e : Ref T, key (position e.2) = k) b pre x post);
          [done|done| |].
        - simpl. by rewrite Hpos, Hkey.
        - destruct (wf_lookup b _ _ Hwf Hy) as [_ Hiy].
          destruct (wf_lookup b _ _ Hwf Hx) as [[_ Hc] Hix].
          rewrite Hpos in Hiy.
          destruct Hax as [[-> _]|[-> _]]; simpl in Hiy; nia. }
      destruct (Hpre y Hy_pre) as [Hin|Hsmall].
      - apply Hout. by apply (Hclosed y x).
      - pose proof (walk_length_next b forth x y Hwf Hx Hy Hxy (eq_sym Hv)) as Hf.
        pose proof (walk_length_next b back y x Hwf Hy Hx Hpos Hv) as Hb. lia. }
    pose proof (neighbourCheck_good back forth b x Hwf Hx Hback) as Hgx.
    pose proof (neighbourCheck_valid back forth b x Hx) as Hvx.
    assert (Hm : matches (neighbourCheck back forth b x) = x :: walk b x forth).
    { unfold neighbourCheck. rewrite bool_decide_eq_true_2 by done. simpl. by rewrite Hback. }
    unfold scanned, addResult. cbn [matches boardEffects]. rewrite Hm in Hvx |- *.
    split; [by apply Forall_app|]. split; [|split; [|by apply Forall_app]].
    + intros y z [Hy|Hy]%elem_of_app Hz Hzp Hzv; apply elem_of_app.
      * left. by apply (Hclosed y z).
      * right. apply elem_of_cons. right. by apply (run_closed b x forth y z).
    + intros y [Hy|Hy%list_elem_of_singleton]%elem_of_app.
      * destruct (Hpre y Hy) as [?|?]; [left; apply elem_of_app; by left | by right].
      * left. subst y. apply elem_of_app. right. apply elem_of_cons. by left.
  - assert (Hno : neighbourCheck back forth b x = noMatch).
    { unfold neighbourCheck. by rewrite bool_decide_eq_false_2. }
    rewrite Hno, addResult_noMatch.
    split; [done|]. split; [done|]. split; [|done].
    intros y [Hy|Hy%list_elem_of_singleton]%elem_of_app; [by apply Hpre|].
    right. subst y. lia.
Qed.

Lemma scanned_line (k : Z) (post pre : list (Ref T)) acc :
  filter (λ e : Ref T, key (position e.2) = k) (imap pair (tilePieces b)) = pre ++ post →
  scanned b back forth pre acc →
  scanned b back forth (pre ++ post)
    (foldl (λ acc tilePiece,
         if negb (OO.includes (matches acc) tilePiece)
         then addResult acc (neighbourCheck back forth b tilePiece) else acc)
       acc post).
Proof.
  revert pre acc. induction post as [|x post IH]; intros pre acc Hline Hacc.
  - by rewrite app_nil_r.
  - cbn [foldl]. rewrite cons_middle, app_assoc. apply IH.
    + by rewrite <- app_assoc.
    + by apply (scanned_tile k pre post).
Qed.

Lemma scanned_lines (idxs : list Z) :
  scanned b back forth []
    (OO_scan_log (neighbourCheck back forth b)
       ((λ k, filter (λ e : Ref T, key (position e.2) = k) (imap pair (tilePieces b)))
          <$> idxs)).
Proof.
  unfold OO_scan_log.
  assert (Hacc : scanned b back forth [] (@noMatch T)).
  { split; [constructor|]. split; [intros y z Hy; by apply elem_of_nil in Hy|].
    split; [intros y Hy; by apply elem_of_nil in Hy | constructor]. }
  revert Hacc. generalize (@noMatch T).
  induction idxs as [|k idxs IH]; intros acc Hacc; [done|].
  rewrite fmap_cons. cbn [foldl]. apply IH.
  destruct (scanned_line k _ [] acc eq_refl Hacc) as (H1 & H2 & _ & H4).
  split; [done|]. split; [done|]. split; [|done].
  intros y Hy. by apply elem_of_nil in Hy.
Qed.

End Axis.

Lemma OO_rows_good b : wf b → Forall (good_match RIGHT b) (boardEffects (OO_rows b)).
Proof.
  intros Hwf.
  by destruct (scanned_lines b LEFT RIGHT row Hwf (or_introl (conj eq_refl eq_refl))
                 (λ p, eq_refl) (seqZ 0 (height b))) as (_ & _ & _ & Hgood).
Qed.

Lemma OO_columns_good b : wf b → Forall (good_match DOWN b) (boardEffects (OO_columns b)).
Proof.
  intros Hwf.
  by destruct (scanned_lines b UP DOWN col Hwf (or_intror (conj eq_refl eq_refl))
                 (λ p, eq_refl) (reverse (seqZ 0 (width b + 1)))) as (_ & _ & _ & Hgood).
Qed.

End ClassEvents.

(** ** The class as an object: scans, validator and resolver *)

Section ClassObject.
Context {T : Type} `{EqDecision T} {G : Type} `{!Generator T G}.
Implicit Types (o : OOBoard.Object T G) (b : Board T) (p q : Position) (x : Ref T).

Lemma hears_nil o : hears o [] = o.
Proof. destruct o. unfold hears. simpl. by rewrite app_nil_r. Qed.

Lemma hears_app o (l1 l2 : list (BoardEffect T)) : hears (hears o l1) l2 = hears o (l1 ++ l2).
Proof. unfold hears. simpl. by rewrite <- app_assoc. Qed.

Lemma OOBoard_AllNeighboursInRowCheck_spec o x :
  OOBoard.AllNeighboursInRowCheck o x =
  (matches (neighbourCheck LEFT RIGHT (OOBoard.tiles o) x),
   hears o (if OOBoard.isEventsEnabled o
            then boardEffects (neighbourCheck LEFT RIGHT (OOBoard.tiles o) x) else [])).
Proof.
  unfold OOBoard.AllNeighboursInRowCheck, neighbourCheck. case_bool_decide; simpl.
  - by destruct (OOBoard.isEventsEnabled o); [|rewrite hears_nil].
  - by destruct (OOBoard.isEventsEnabled o); rewrite hears_nil.
Qed.

Lemma OOBoard_AllNeighboursInColCheck_spec o x :
  OOBoard.AllNeighboursInColCheck o x =
  (matches (neighbourCheck UP DOWN (OOBoard.tiles o) x),
   hears o (if OOBoard.isEventsEnabled o
            then boardEffects (neighbourCheck UP DOWN (OOBoard.tiles o) x) else [])).
Proof.
  unfold OOBoard.AllNeighboursInColCheck, neighbourCheck. case_bool_decide; simpl.
  - by destruct (OOBoard.isEventsEnabled o); [|rewrite hears_nil].
  - by destruct (OOBoard.isEventsEnabled o); rewrite hears_nil.
Qed.

Section Scan.
Variable check : OOBoard.Object T G → Ref T → list (Ref T) * OOBoard.Object T G.
Variable result : Board T → Ref T → MatchResult T.
Hypothesis check_result : ∀ o x,
  check o x = (matches (result (OOBoard.tiles o) x),
               hears o (if OOBoard.isEventsEnabled o
                        then boardEffects (result (OOBoard.tiles o) x) else [])).

Lemma OOBoard_scanTile_log o (acc : MatchResult T) x :
  OOBoard.scanTile check
    (matches acc, hears o (if OOBoard.isEventsEnabled o then boardEffects acc else [])) x =
  let acc' := if negb (OO.includes (matches acc) x)
              then addResult acc (result (OOBoard.tiles o) x) else acc in
  (matches acc', hears o (if OOBoard.isEventsEnabled o then boardEffects acc' else [])).
Proof.
  unfold OOBoard.scanTile. cbn [fst snd].
  destruct (negb (OO.includes (matches acc) x)); [|done].
  rewrite check_result, hears_app. cbn [hears OOBoard.tiles OOBoard.isEventsEnabled].
  by destruct (OOBoard.isEventsEnabled o).
Qed.

Lemma OOBoard_scanLine_log o (line : list (Ref T)) (acc : MatchResult T) :
  foldl (OOBoard.scanTile check)
    (matches acc, hears o (if OOBoard.isEventsEnabled o then boardEffects acc else [])) line =
  let acc' := foldl (λ acc tilePiece,
                  if negb (OO.includes (matches acc) tilePiece)
                  then addResult acc (result (OOBoard.tiles o) tilePiece) else acc)
                acc line in
  (matches acc', hears o (if OOBoard.isEventsEnabled o then boardEffects acc' else [])).
Proof.
  revert acc. induction line as [|x line IH]; intros acc; [done|].
  cbn [foldl]. rewrite OOBoard_scanTile_log. cbn zeta. by rewrite IH.
Qed.

Lemma OOBoard_scan_log {I : Type} (line : Board T → I → list (Ref T)) (idxs : list I) o :
  foldl (λ st i, foldl (OOBoard.scanTile check) st (line (OOBoard.tiles st.2) i))
    ([], o) idxs =
  (matches (OO_scan_log (result (OOBoard.tiles o)) (line (OOBoard.tiles o) <$> idxs)),
   hears o (if OOBoard.isEventsEnabled o
            then boardEffects (OO_scan_log (result (OOBoard.tiles o))
                                 (line (OOBoard.tiles o) <$> idxs))
            else [])).
Proof.
  unfold OO_scan_log. rewrite foldl_fmap.
  assert (Hstart : ([], o) =
            (matches (@noMatch T),
             hears o (if OOBoard.isEventsEnabled o then boardEffects (@noMatch T) else []))).
  { cbn [noMatch matches boardEffects]. destruct (OOBoard.isEventsEnabled o);
      by rewrite hears_nil. }
  rewrite Hstart. generalize (@noMatch T).
  induction idxs as [|i idxs IH]; intros acc; [done|].
  cbn [foldl snd hears OOBoard.tiles]. rewrite OOBoard_scanLine_log. cbn zeta. by rewrite IH.
Qed.

End Scan.

(** The class's scans on an object: the tiles matched are those of the scan
    [canMove] runs; the object is as it was, but that with the flag on its
    listeners have heard the events of the scan. *)
Lemma OOBoard_FindRowMatches_log o :
  OOBoard.FindRowMatches o =
  (OO.FindRowMatches (OOBoard.tiles o),
   hears o (if OOBoard.isEventsEnabled o
            then boardEffects (OO_rows (OOBoard.tiles o)) else [])).
Proof.
  unfold OOBoard.FindRowMatches.
  rewrite (OOBoard_scan_log _ _ OOBoard_AllNeighboursInRowCheck_spec FindAllTilePiecesInRow).
  by rewrite <- OO_rows_matches.
Qed.

Lemma OOBoard_FindColMatches_log o :
  OOBoard.FindColMatches o =
  (OO.FindColMatches (OOBoard.tiles o),
   hears o (if OOBoard.isEventsEnabled o
            then boardEffects (OO_columns (OOBoard.tiles o)) else [])).
Proof.
  unfold OOBoard.FindColMatches.
  rewrite (OOBoard_scan_log _ _ OOBoard_AllNeighboursInColCheck_spec FindAllTilePiecesInColumn).
  by rewrite <- OO_columns_matches.
Qed.

Lemma OO_rows_coherent b : coherent (OO_rows b).
Proof. apply OO_scan_log_coherent, coherent_neighbourCheck. Qed.

Lemma OO_columns_coherent b : coherent (OO_columns b).
Proof. apply OO_scan_log_coherent, coherent_neighbourCheck. Qed.

Lemma OOBoard_FindRowMatches_heard o :
  ∃ new, OOBoard.FindRowMatches o = (OO.FindRowMatches (OOBoard.tiles o), hears o new) ∧
         scan_heard (OOBoard.isEventsEnabled o) (OO.FindRowMatches (OOBoard.tiles o)) new.
Proof.
  rewrite OOBoard_FindRowMatches_log. eexists. split; [done|].
  destruct (OO_rows_coherent (OOBoard.tiles o)) as [Hiff Hall].
  rewrite OO_rows_matches in Hiff.
  destruct (OOBoard.isEventsEnabled o); [|by repeat split].
  split; [done|]. split; [|done]. intros _. by symmetry.
Qed.

Lemma OOBoard_FindColMatches_heard o :
  ∃ new, OOBoard.FindColMatches o = (OO.FindColMatches (OOBoard.tiles o), hears o new) ∧
         scan_heard (OOBoard.isEventsEnabled o) (OO.FindColMatches (OOBoard.tiles o)) new.
Proof.
  rewrite OOBoard_FindColMatches_log. eexists. split; [done|].
  destruct (OO_columns_coherent (OOBoard.tiles o)) as [Hiff Hall].
  rewrite OO_columns_matches in Hiff.
  destruct (OOBoard.isEventsEnabled o); [|by repeat split].
  split; [done|]. split; [|done]. intros _. by symmetry.
Qed.

(** *** The validator *)

Lemma setTiles_tiles o : OOBoard.setTiles o (OOBoard.tiles o) = o.
Proof. by destruct o. Qed.

Lemma OOBoard_IsAnyMatch_silent o :
  OOBoard.isEventsEnabled o = false →
  OOBoard.IsAnyMatch o = (OO.IsAnyMatch (OOBoard.tiles o), o).
Proof.
  intros Hoff. unfold OOBoard.IsAnyMatch, OO.IsAnyMatch.
  rewrite OOBoard_FindRowMatches_log, Hoff, hears_nil.
  rewrite OOBoard_FindColMatches_log, Hoff, hears_nil.
  by destruct (_ && _).
Qed.

Lemma OOBoard_IsMoveLegal_silent o p q :
  OOBoard.isEventsEnabled o = false →
  OOBoard.IsMoveLegal o p q =
  match OO.IsMoveLegal (OOBoard.tiles o) p q with
  | Ret (legal, b) => Ret (legal, OOBoard.setTiles o b)
  | Throw e => Throw e
  | OutOfFuel => OutOfFuel
  end.
Proof.
  intros Hoff. unfold OOBoard.IsMoveLegal, OO.IsMoveLegal.
  destruct (OO.IsSameTile p q); [by rewrite setTiles_tiles|].
  destruct (negb (OO.IsTileSameRowOrColumn p q)); [by rewrite setTiles_tiles|].
  destruct (negb _ || negb _); [by rewrite setTiles_tiles|].
  unfold OOBoard.MoveResultInMatches, OO.MoveResultInMatches, OOBoard.SwapTilePieces.
  destruct (SwapPieces (OOBoard.tiles o) p q) as [b1| |]; [|done..]. simpl.
  rewrite OOBoard_IsAnyMatch_silent by done. simpl.
  by destruct (SwapPieces b1 q p).
Qed.

Lemma OO_IsMoveLegal_total b p q :
  wf b → ∃ legal, OO.IsMoveLegal b p q = Ret (legal, b).
Proof.
  intros Hwf.
  destruct (decide (p = q)) as [->|Hne];
    [exists false; apply OO_canMove_fails_closed; by left|].
  destruct (decide (row p = row q ∨ col p = col q)) as [Hline|Hline];
    [|exists false; apply OO_canMove_fails_closed; right; left; tauto].
  destruct (IsPositionOutsideBoard b p) eqn:Hp.
  - destruct (IsPositionOutsideBoard b q) eqn:Hq.
    + apply IsPositionOutsideBoard_spec in Hp, Hq.
      destruct (OO_IsMoveLegal_exact b p q Hwf Hp Hq Hne Hline) as (_ & legal & _ & Hl & _).
      by exists legal.
    + exists false. apply OO_canMove_fails_closed. right. right. right.
      intros Hin%IsPositionOutsideBoard_spec. congruence.
  - exists false. apply OO_canMove_fails_closed. right. right. left.
    intros Hin%IsPositionOutsideBoard_spec. congruence.
Qed.

Lemma OOBoard_IsMoveLegal_observes o p q :
  wf (OOBoard.tiles o) → OOBoard.isEventsEnabled o = false →
  ∃ legal, OOBoard.IsMoveLegal o p q = Ret (legal, o) ∧
           OO.canMove (OOBoard.tiles o) p q = Ret (legal, OOBoard.tiles o).
Proof.
  intros Hwf Hoff. destruct (OO_IsMoveLegal_total (OOBoard.tiles o) p q Hwf) as [legal Hl].
  exists legal. split; [|done].
  by rewrite OOBoard_IsMoveLegal_silent, Hl, setTiles_tiles.
Qed.

(** X20: the class's [canMove] is an observer.  On an object built by the
    constructor, between two moves (where [isEventsEnabled] is off),
    [canMove] always answers, calls no listener and leaves every field of
    the object as it was; its answer is that of the validator run on the
    tiles alone. *)
Theorem OOBoard_canMove_observes o p q :
  wf (OOBoard.tiles o) → OOBoard.isEventsEnabled o = false →
  ∃ legal, OOBoard.canMove o p q = Ret (legal, o) ∧
           OO.canMove (OOBoard.tiles o) p q = Ret (legal, OOBoard.tiles o).
Proof. apply OOBoard_IsMoveLegal_observes. Qed.

Lemma OO_IsMoveLegal_true b p q b' :
  OO.IsMoveLegal b p q = Ret (true, b') →
  ∃ b1, SwapPieces b p q = Ret b1 ∧ OO.IsAnyMatch b1 = true.
Proof.
  unfold OO.IsMoveLegal. destruct (OO.IsSameTile p q); [done|].
  destruct (negb (OO.IsTileSameRowOrColumn p q)); [done|].
  destruct (negb _ || negb _); [done|].
  unfold OO.MoveResultInMatches. intros Hm. inv_bind Hm. inv_bind Hm.
  exists x. split; [done|]. congruence.
Qed.

(** *** The resolver *)

Lemma OOBoard_CheckBoard_settles fuel o o' :
  wf (OOBoard.tiles o) → OOBoard.isEventsEnabled o = true →
  OOBoard.CheckBoard fuel o = Ret o' →
  same_shape (OOBoard.tiles o) (OOBoard.tiles o') ∧ OOBoard.isEventsEnabled o' = true ∧
  ¬ has_run3 (OOBoard.tiles o') RIGHT ∧ ¬ has_run3 (OOBoard.tiles o') DOWN ∧
  ∃ new, OOBoard.heard o' = OOBoard.heard o ++ new ∧
         (new = [] ↔ ¬ (has_run3 (OOBoard.tiles o) RIGHT ∨ has_run3 (OOBoard.tiles o) DOWN)) ∧
         (new = [] → o' = o) ∧
         (new ≠ [] → last new = Some RefillEffect ∧ holes (OOBoard.tiles o') = 0).
Proof.
  revert o. induction fuel as [|fuel IH]; intros o Hwf Hon Hc; [done|].
  cbn [OOBoard.CheckBoard] in Hc.
  destruct (OOBoard_FindRowMatches_heard o) as (n1 & Hrows & _ & Hn1 & _).
  destruct (OOBoard_FindColMatches_heard (hears o n1)) as (n2 & Hcols & _ & Hn2 & _).
  rewrite Hrows, Hcols, hears_app in Hc.
  cbn [hears OOBoard.tiles OOBoard.isEventsEnabled] in Hc, Hn2.
  specialize (Hn1 Hon). specialize (Hn2 Hon).
  pose proof (OO_FindRowMatches_exact (OOBoard.tiles o) Hwf) as Hrun_r.
  pose proof (OO_FindColMatches_exact (OOBoard.tiles o) Hwf) as Hrun_c.
  destruct (negb _ || negb _) eqn:Htest.
  - assert (Hrun : has_run3 (OOBoard.tiles o) RIGHT ∨ has_run3 (OOBoard.tiles o) DOWN).
    { apply orb_true_iff in Htest as [Ht|Ht]; apply negb_true_iff, bool_decide_eq_false in Ht;
        [left; apply Hrun_r | right; apply Hrun_c]; intros Hnil; by rewrite Hnil in Ht. }
    unfold OOBoard.UpdateBoard in Hc.
    cbn [OOBoard.DestroyMatchedTilePieces OOBoard.setTiles OOBoard.notify hears
         OOBoard.tiles OOBoard.boardGenerator OOBoard.isEventsEnabled OOBoard.heard] in Hc.
    inv_bind Hc. destruct x as [b2 g2].
    assert (Hwfm : wf (MatchValuesRemoved (OOBoard.tiles o)
                         (OO.FindRowMatches (OOBoard.tiles o))
                         (OO.FindColMatches (OOBoard.tiles o)))).
    { eapply same_shape_wf; [apply MatchValuesRemoved_same_shape | done]. }
    pose proof (UpdateBoard_loops_Ret_holes _ _ _ _ Hwfm Hx) as Hfull.
    apply UpdateBoard_loops_same_shape in Hx as Hsh2.
    assert (Hsh : same_shape (OOBoard.tiles o) b2).
    { eapply same_shape_trans; [apply MatchValuesRemoved_same_shape | done]. }
    apply IH in Hc as (Hsh' & Hon' & Hnr & Hnc & new2 & Hheard & _ & Hsame & Hlast);
      [|by eapply same_shape_wf | done].
    cbn [OOBoard.tiles OOBoard.heard] in Hsh', Hheard.
    split; [by eapply same_shape_trans|]. split; [done|]. split; [done|]. split; [done|].
    exists ((n1 ++ n2) ++ [RefillEffect] ++ new2).
    split; [by rewrite Hheard, <- !app_assoc|].
    split; [split; [intros Hnil; by destruct (n1 ++ n2) | tauto]|].
    split; [intros Hnil; by destruct (n1 ++ n2)|]. intros _.
    destruct new2 as [|e new2].
    + rewrite (Hsame eq_refl). cbn [OOBoard.tiles]. split; [|done].
      by rewrite app_nil_r, last_snoc.
    + destruct Hlast as [Hl Hh]; [done|]. split; [|done].
      rewrite !app_assoc, last_app, Hl. done.
  - apply orb_false_iff in Htest as [Hr Hcl].
    apply negb_false_iff, bool_decide_eq_true, length_zero_iff_nil in Hr, Hcl.
    rewrite (proj2 Hn1 Hr), (proj2 Hn2 Hcl), hears_nil in Hc. injection Hc as <-.
    split; [done|]. split; [done|].
    split; [intros Hrun%Hrun_r; by rewrite Hr in Hrun|].
    split; [intros Hrun%Hrun_c; by rewrite Hcl in Hrun|].
    exists []. split; [by rewrite app_nil_r|]. split; [|done]. split; [|done].
    intros _ [Hrun%Hrun_r|Hrun%Hrun_c]; [by rewrite Hr in Hrun | by rewrite Hcl in Hrun].
Qed.

(** What the listeners hear during a cascade, pass by pass. *)
Lemma OOBoard_CheckBoard_log fuel o o' :
  OOBoard.isEventsEnabled o = true → OOBoard.CheckBoard fuel o = Ret o' →
  ∃ boards, OOBoard.heard o' = OOBoard.heard o ++ (boards ≫= OO_pass_log) ∧
            Forall (same_shape (OOBoard.tiles o)) boards ∧
            OO_passes (OOBoard.tiles o) (OOBoard.boardGenerator o) boards
              (OOBoard.tiles o') (OOBoard.boardGenerator o').
Proof.
  revert o. induction fuel as [|fuel IH]; intros o Hon Hc; [done|].
  cbn [OOBoard.CheckBoard] in Hc.
  rewrite OOBoard_FindRowMatches_log, OOBoard_FindColMatches_log, hears_app in Hc.
  cbn [hears OOBoard.tiles OOBoard.isEventsEnabled] in Hc. rewrite Hon in Hc.
  destruct (negb _ || negb _) eqn:Htest.
  - unfold OOBoard.UpdateBoard in Hc.
    cbn [OOBoard.DestroyMatchedTilePieces OOBoard.setTiles OOBoard.notify hears
         OOBoard.tiles OOBoard.boardGenerator OOBoard.isEventsEnabled OOBoard.heard] in Hc.
    inv_bind Hc. destruct x as [b2 g2].
    apply UpdateBoard_loops_same_shape in Hx as Hsh2.
    assert (Hsh : same_shape (OOBoard.tiles o) b2).
    { eapply same_shape_trans; [apply MatchValuesRemoved_same_shape | done]. }
    assert (Hne : ¬ (OO.FindRowMatches (OOBoard.tiles o) = []
                     ∧ OO.FindColMatches (OOBoard.tiles o) = [])).
    { intros [Hr Hcl]. by rewrite Hr, Hcl in Htest. }
    apply IH in Hc as (boards & Hheard & Hall & Hpass); [|done].
    cbn [OOBoard.tiles OOBoard.heard OOBoard.boardGenerator] in Hheard, Hall, Hpass.
    exists (OOBoard.tiles o :: boards). split; [|split].
    + rewrite Hheard, bind_cons. unfold OO_pass_log at 2. by rewrite <- !app_assoc.
    + constructor; [done|]. eapply Forall_impl; [done|]. intros bi.
      by apply same_shape_trans.
    + by eapply (cascade_pass _ _ (OOBoard.tiles o) (OOBoard.boardGenerator o) b2 g2).
  - apply orb_false_iff in Htest as [Hr Hcl].
    apply negb_false_iff, bool_decide_eq_true, length_zero_iff_nil in Hr, Hcl.
    assert (Hrest : OO_passes (OOBoard.tiles o) (OOBoard.boardGenerator o) []
                      (OOBoard.tiles o) (OOBoard.boardGenerator o))
      by by apply cascade_rest.
    rewrite <- OO_rows_matches in Hr. rewrite <- OO_columns_matches in Hcl.
    apply (proj1 (OO_rows_coherent _)) in Hr. apply (proj1 (OO_columns_coherent _)) in Hcl.
    rewrite Hr, Hcl, hears_nil in Hc. injection Hc as <-.
    exists []. split; [by rewrite app_nil_r|]. split; [constructor | done].
Qed.

(** X21: the class's [move] settles the board.  On an object built by the
    constructor, between two moves, a [move] that returns leaves the board
    with its shape and the flag off again.  Its listeners hear nothing
    exactly when the validator rejects the swap, and then no field of the
    object has changed.  Otherwise the last thing they hear is a [Refill],
    and the board is left with a value on every tile and without three
    equal tiles in a line, in any row or column. *)
Theorem OOBoard_move_settles fuel o p q o' :
  wf (OOBoard.tiles o) → OOBoard.isEventsEnabled o = false →
  OOBoard.move fuel o p q = Ret o' →
  same_shape (OOBoard.tiles o) (OOBoard.tiles o') ∧ OOBoard.isEventsEnabled o' = false ∧
  ∃ new, OOBoard.heard o' = OOBoard.heard o ++ new ∧
         (new = [] ↔ OO.canMove (OOBoard.tiles o) p q = Ret (false, OOBoard.tiles o)) ∧
         (new = [] → o' = o) ∧
         (new ≠ [] → last new = Some RefillEffect ∧ holes (OOBoard.tiles o') = 0 ∧
                     ¬ has_run3 (OOBoard.tiles o') RIGHT ∧
                     ¬ has_run3 (OOBoard.tiles o') DOWN).
Proof.
  intros Hwf Hoff Hm. unfold OOBoard.move in Hm.
  destruct (OOBoard_IsMoveLegal_observes o p q Hwf Hoff) as (legal & Hl & Hcan).
  rewrite Hl in Hm. cbn in Hm. destruct legal.
  - apply OO_IsMoveLegal_true in Hcan as Hrun. destruct Hrun as (b1 & Hs & Hany).
    unfold OOBoard.SwapTilePieces in Hm. cbn [OOBoard.setEventsEnabled OOBoard.tiles] in Hm.
    rewrite Hs in Hm. cbn in Hm. inv_bind Hm. injection Hm as <-.
    apply SwapPieces_same_shape in Hs as Hsh1.
    assert (Hwf1 : wf b1) by by eapply same_shape_wf.
    apply OOBoard_CheckBoard_settles in Hx
      as (Hsh & Hon & Hnr & Hnc & new & Hheard & Hiff & _ & Hlast); [|done..].
    cbn [OOBoard.tiles OOBoard.heard OOBoard.setTiles] in Hsh, Hheard, Hiff.
    cbn [OOBoard.setEventsEnabled OOBoard.tiles OOBoard.isEventsEnabled OOBoard.heard].
    split; [by eapply same_shape_trans|]. split; [done|].
    assert (Hne : new ≠ []).
    { intros Hnil%Hiff. apply Hnil. by apply OO_IsAnyMatch_iff. }
    exists new. split; [done|]. split; [split; [done|intros Heq; congruence]|].
    split; [done|]. intros _. destruct (Hlast Hne) as [??]. done.
  - injection Hm as <-. split; [done|]. split; [done|].
    exists []. split; [by rewrite app_nil_r|]. done.
Qed.

(** X22: what a listener of the class hears during a [move].  On an object
    built by the constructor, between two moves, the events of a returned
    [move] are those of its passes, one after the other.  The passes are
    those the cascade runs from the swapped board with the object's
    supplier, the first of them on the swapped board itself; a rejected swap
    has none.  Each pass gives the [Match] events of its row scan, those of
    its column scan, and one [Refill].  On the board of its pass every event
    of a row scan lists three or more neighbouring positions of a row by
    increasing column, each holding the matched value, and every event of a
    column scan three or more neighbouring positions of a column by
    increasing row. *)
Theorem OOBoard_move_matches_are_runs fuel o p q o' :
  wf (OOBoard.tiles o) → OOBoard.isEventsEnabled o = false →
  OOBoard.move fuel o p q = Ret o' →
  ∃ boards,
    ((OO.canMove (OOBoard.tiles o) p q = Ret (false, OOBoard.tiles o) ∧ boards = []) ∨
     (∃ b1, OO.canMove (OOBoard.tiles o) p q = Ret (true, OOBoard.tiles o) ∧
            SwapPieces (OOBoard.tiles o) p q = Ret b1 ∧ head boards = Some b1 ∧
            OO_passes b1 (OOBoard.boardGenerator o) boards
              (OOBoard.tiles o') (OOBoard.boardGenerator o'))) ∧
    OOBoard.heard o' =
      OOBoard.heard o ++
      (boards ≫= (λ bi, boardEffects (OO_rows bi) ++ boardEffects (OO_columns bi)
                         ++ [RefillEffect])) ∧
    Forall (λ bi, same_shape (OOBoard.tiles o) bi ∧
                  (has_run3 bi RIGHT ∨ has_run3 bi DOWN) ∧
                  Forall (good_match RIGHT bi) (boardEffects (OO_rows bi)) ∧
                  Forall (good_match DOWN bi) (boardEffects (OO_columns bi)))
      boards.
Proof.
  intros Hwf Hoff Hm. unfold OOBoard.move in Hm.
  destruct (OOBoard_IsMoveLegal_observes o p q Hwf Hoff) as (legal & Hl & Hcan).
  rewrite Hl in Hm. cbn in Hm. destruct legal.
  - apply OO_IsMoveLegal_true in Hcan as Hrun. destruct Hrun as (b1 & Hs & Hany).
    unfold OOBoard.SwapTilePieces in Hm. cbn [OOBoard.setEventsEnabled OOBoard.tiles] in Hm.
    rewrite Hs in Hm. cbn in Hm. inv_bind Hm. injection Hm as <-.
    apply SwapPieces_same_shape in Hs as Hsh1.
    assert (Hwf1 : wf b1) by by eapply same_shape_wf.
    apply OOBoard_CheckBoard_log in Hx as (boards & Hheard & _ & Hpass); [|done].
    cbn [OOBoard.tiles OOBoard.heard OOBoard.boardGenerator OOBoard.setTiles
         OOBoard.setEventsEnabled] in Hheard, Hpass |- *.
    destruct (cascade_boards _ _ _ _ _ _ _ Hpass) as (Hall & _ & _ & _ & Hhead).
    exists boards. split; [|split; [done|]].
    + right. exists b1. split; [done|]. split; [done|]. split; [|done].
      apply Hhead. intros [Hr Hcl].
      apply (OO_IsAnyMatch_iff b1 Hwf1) in Hany as [Hrun|Hrun].
      * by apply (OO_FindRowMatches_exact b1 Hwf1) in Hrun.
      * by apply (OO_FindColMatches_exact b1 Hwf1) in Hrun.
    + eapply Forall_impl; [done|]. intros bi [Hbi Hne].
      assert (Hsh : same_shape (OOBoard.tiles o) bi) by by eapply same_shape_trans.
      assert (Hwfi : wf bi) by by eapply same_shape_wf.
      split; [done|]. split; [|split; [by apply OO_rows_good | by apply OO_columns_good]].
      destruct (decide (OO.FindRowMatches bi = [])) as [Hr|Hr].
      * right. apply (OO_FindColMatches_exact bi Hwfi). intros Hcl. by apply Hne.
      * left. by apply (OO_FindRowMatches_exact bi Hwfi).
  - injection Hm as <-. exists []. split; [by left|].
    split; [by rewrite app_nil_r | constructor].
Qed.

End ClassObject.

(** *** Termination on a finite supplier *)

Section ClassTermination.
Context {T : Type} `{EqDecision T}.
Implicit Types (o : OOBoard.Object T (GeneratorFake T)) (b : Board T) (p q : Position).

Lemma OO_scan_valid b (check : Ref T → list (Ref T)) (lines : list (list (Ref T))) :
  (∀ line e, line ∈ lines → e ∈ line → valid_ref b e) →
  (∀ e, valid_ref b e → Forall (valid_ref b) (check e)) →
  Forall (valid_ref b) (OO_scan check lines).
Proof.
  intros Hlines Hcheck. unfold OO_scan.
  assert (Hline : ∀ (line found : list (Ref T)),
    Forall (valid_ref b) line → Forall (valid_ref b) found →
    Forall (valid_ref b)
      (foldl (λ found tilePiece,
           if negb (OO.includes found tilePiece) then found ++ check tilePiece else found)
         found line)).
  { induction line as [|e line IH]; intros found Hl Hf; [done|].
    apply Forall_cons in Hl as [He Hl]. cbn [foldl]. apply IH; [done|].
    destruct (negb _); [|done]. apply Forall_app. split; [done | by apply Hcheck]. }
  assert (Hnil : Forall (valid_ref b) (@nil (Ref T))) by constructor.
  revert Hnil. generalize (@nil (Ref T)).
  induction lines as [|line lines IH]; intros found Hf; [done|].
  cbn [foldl]. apply IH.
  - intros line' e Hl He. apply (Hlines line'); [|done]. apply elem_of_cons. by right.
  - apply Hline; [|done]. apply Forall_forall. intros e He.
    apply (Hlines line); [|done]. apply elem_of_cons. by left.
Qed.

Lemma OO_FindRowMatches_valid b : Forall (valid_ref b) (OO.FindRowMatches b).
Proof.
  rewrite OO_FindRowMatches_scan. apply OO_scan_valid.
  - apply row_lines_valid.
  - intros e He. rewrite OO_AllNeighboursInRowCheck_eq. by apply neighbourCheck_valid.
Qed.

Lemma OO_FindColMatches_valid b : Forall (valid_ref b) (OO.FindColMatches b).
Proof.
  rewrite OO_FindColMatches_scan. apply OO_scan_valid.
  - apply column_lines_valid.
  - intros e He. rewrite OO_AllNeighboursInColCheck_eq. by apply neighbourCheck_valid.
Qed.

(** With [n] values left in the queue, [n + 1] units of fuel are enough for
    the class's cascade too. *)
Lemma OOBoard_CheckBoard_terminates fuel o :
  wf (OOBoard.tiles o) → length (upcoming (OOBoard.boardGenerator o)) < fuel →
  match OOBoard.CheckBoard fuel o with
  | Ret o' => True
  | Throw e => e = EmptyQueue
  | OutOfFuel => False
  end.
Proof.
  revert o. induction fuel as [|fuel IH]; intros o Hwf Hfuel; [lia|].
  cbn [OOBoard.CheckBoard].
  rewrite OOBoard_FindRowMatches_log, OOBoard_FindColMatches_log, hears_app.
  cbn [hears OOBoard.tiles OOBoard.isEventsEnabled].
  destruct (negb _ || negb _) eqn:Htest; [|done].
  destruct (MatchValuesRemoved_hole (OOBoard.tiles o) (OO.FindRowMatches (OOBoard.tiles o))
              (OO.FindColMatches (OOBoard.tiles o))) as (i & t & Hi & Hv);
    [apply OO_FindRowMatches_valid | apply OO_FindColMatches_valid | |].
  { intros [Hr Hc]. rewrite Hr, Hc in Htest. done. }
  assert (Hwfm : wf (MatchValuesRemoved (OOBoard.tiles o)
                       (OO.FindRowMatches (OOBoard.tiles o))
                       (OO.FindColMatches (OOBoard.tiles o)))).
  { eapply same_shape_wf; [apply MatchValuesRemoved_same_shape | done]. }
  pose proof (UpdateBoard_loops_progress (OOBoard.boardGenerator o) _ i t Hwfm Hi Hv) as Hloop.
  unfold OOBoard.UpdateBoard.
  cbn [OOBoard.DestroyMatchedTilePieces OOBoard.setTiles OOBoard.notify hears
       OOBoard.tiles OOBoard.boardGenerator OOBoard.isEventsEnabled OOBoard.heard].
  destruct (UpdateBoard_loops _ (OOBoard.boardGenerator o)) as [[b2 g2]| |]; simpl;
    [|done..].
  destruct Hloop as [Hsh2 Hlt]. apply IH; simpl; [by eapply same_shape_wf | lia].
Qed.

(** X23: with a finite queue of [n] values as supplier, the class's [move]
    given more than [n] units of fuel does not run out of them: it returns,
    or stops on the supplier's "Empty queue" error. *)
Theorem OOBoard_move_terminates fuel o p q :
  wf (OOBoard.tiles o) → OOBoard.isEventsEnabled o = false →
  length (upcoming (OOBoard.boardGenerator o)) < fuel →
  OOBoard.move fuel o p q = Throw EmptyQueue ∨ ∃ o', OOBoard.move fuel o p q = Ret o'.
Proof.
  intros Hwf Hoff Hfuel. unfold OOBoard.move.
  destruct (OOBoard_IsMoveLegal_observes o p q Hwf Hoff) as (legal & -> & Hcan).
  cbn. destruct legal; [|right; by eexists].
  apply OO_IsMoveLegal_true in Hcan as (b1 & Hs & _).
  unfold OOBoard.SwapTilePieces. cbn [OOBoard.setEventsEnabled OOBoard.tiles].
  rewrite Hs. cbn.
  apply SwapPieces_same_shape in Hs.
  pose proof (OOBoard_CheckBoard_terminates fuel
                (OOBoard.setTiles (OOBoard.setEventsEnabled o true) b1)) as Hc.
  cbn [OOBoard.setTiles OOBoard.setEventsEnabled OOBoard.tiles OOBoard.boardGenerator] in Hc.
  destruct (OOBoard.CheckBoard fuel _) as [o2|e|]; simpl.
  - right. by eexists.
  - left. rewrite Hc; [done | by eapply same_shape_wf | done].
  - exfalso. apply Hc; [by eapply same_shape_wf | done].
Qed.

End ClassTermination.

(** ** The suppliers of the test suite *)

(** X17: [GeneratorFake] hands out its queue from the front: [k] calls return
    the first [k] values and leave the rest queued; with fewer than [k]
    values in the queue the calls end in "Empty queue". *)
Theorem GeneratorFake_draw {T : Type} (k : nat) (l : list T) :
  draw k {| upcoming := l |} =
  if decide (k ≤ length l) then Ret (take k l, {| upcoming := drop k l |})
  else Throw EmptyQueue.
Proof.
  revert l. induction k as [|k IH]; intros l.
  - by rewrite decide_True by lia.
  - destruct l as [|v l]; [by rewrite decide_False by (simpl; lia)|].
    cbn [draw]. unfold next at 1.
    change (GeneratorFake_next {| upcoming := v :: l |}) with (Ret (v, {| upcoming := l |})).
    change (Ret (v, {| upcoming := l |}) ≫= ?f) with (f (v, {| upcoming := l |})).
    cbn beta iota. rewrite IH.
    destruct (decide (k ≤ length l)).
    + by rewrite decide_True by (simpl; lia).
    + by rewrite decide_False by (simpl; lia).
Qed.

(** X18: [CyclicGenerator] never throws, and call number [i] (from 0) returns
    the character of the sequence at [(index + i) mod length]; afterwards the
    index has advanced by the number of calls, modulo the length. *)
Theorem CyclicGenerator_draw (k : nat) (g : CyclicGenerator) :
  index g < String.length (sequence g) →
  draw k g =
  Ret ((λ i, charAt (sequence g) ((index g + i) `mod` String.length (sequence g)))
         <$> seq 0 k,
       {| sequence := sequence g;
          index := (index g + k) `mod` String.length (sequence g) |}).
Proof.
  revert g. induction k as [|k IH]; intros [sq idx] Hidx; cbn [sequence index] in *.
  - cbn [draw seq fmap list_fmap]. by rewrite Nat.add_0_r, Nat.mod_small.
  - cbn [draw]. unfold next at 1.
    change (CyclicGenerator_next {| sequence := sq; index := idx |})
      with (Ret (charAt sq idx,
                 {| sequence := sq; index := (idx + 1) `mod` String.length sq |})).
    change (Ret (?a, ?g1) ≫= ?f) with (f (a, g1)). cbn beta iota.
    rewrite IH by (cbn [sequence index]; apply Nat.mod_upper_bound; lia).
    cbn [sequence index].
    change (Ret (?a, ?g1) ≫= ?f) with (f (a, g1)). cbn beta iota.
    f_equal. f_equal.
    + cbn [seq]. rewrite fmap_cons. f_equal.
      * by rewrite Nat.add_0_r, Nat.mod_small.
      * rewrite <- fmap_S_seq, <- list_fmap_compose. apply list_fmap_ext. intros _ i _.
        simpl. f_equal. rewrite Nat.Div0.add_mod_idemp_l. f_equal. lia.
    + f_equal. rewrite Nat.Div0.add_mod_idemp_l. f_equal. lia.
Qed.

(** ** Instances of the further properties on the fixtures *)

Lemma SwapPieces_exchanges_witness :
  ∃ b', SwapPieces board4x4 (at_ 0 0) (at_ 0 1) = Ret b' ∧ wf b' ∧
        tilePiece b' (at_ 0 0) = tilePiece board4x4 (at_ 0 1) ∧
        tilePiece b' (at_ 0 1) = tilePiece board4x4 (at_ 0 0) ∧
        ∀ r, r ≠ at_ 0 0 → r ≠ at_ 0 1 → tilePiece b' r = tilePiece board4x4 r.
Proof.
  apply (SwapPieces_exchanges board4x4 (at_ 0 0) (at_ 0 1)).
  - by vm_compute.
  - unfold in_bounds. simpl. lia.
  - unfold in_bounds. simpl. lia.
Defined.

Lemma SwapPieces_outside_throws_witness :
  SwapPieces board4x4 (at_ (-1) 0) (at_ 0 0) = Throw TypeError.
Proof.
  apply (SwapPieces_outside_throws board4x4 (at_ (-1) 0) (at_ 0 0)).
  - by vm_compute.
  - left. unfold in_bounds. simpl. lia.
Defined.

Lemma SwapPieces_round_trip_witness :
  SwapPieces board4x4 (at_ 0 1) (at_ 0 0) = Ret swapped4x4 ∧
  SwapPieces swapped4x4 (at_ 0 0) (at_ 0 1) = Ret board4x4 ∧
  SwapPieces swapped4x4 (at_ 0 1) (at_ 0 0) = Ret board4x4.
Proof.
  apply (SwapPieces_round_trip board4x4 swapped4x4 (at_ 0 0) (at_ 0 1)). by vm_compute.
Defined.

Lemma ShiftElementsInColumn_slides_witness :
  ∃ b', ShiftElementsInColumn board3x4 2 1 = Ret b' ∧ wf b' ∧
        tilePiece b' {| row := 0; col := 1 |} = tilePiece board3x4 {| row := 2; col := 1 |} ∧
        (∀ k, (1 ≤ k ≤ 2)%Z →
              tilePiece b' {| row := k; col := 1 |}
              = tilePiece board3x4 {| row := k - 1; col := 1 |}) ∧
        (∀ q, col q ≠ 1%Z ∨ (2 < row q)%Z → tilePiece b' q = tilePiece board3x4 q).
Proof.
  apply (ShiftElementsInColumn_slides board3x4 2 1).
  - by vm_compute.
  - simpl. lia.
  - simpl. lia.
Defined.

Lemma UpdateBoard_loops_fills_witness :
  match draw (holes holed3x4) queueBCD with
  | Ret (vs, g') =>
      ∃ b', UpdateBoard_loops holed3x4 queueBCD = Ret (b', g') ∧ same_shape holed3x4 b' ∧
            holes b' = 0
  | Throw e => UpdateBoard_loops holed3x4 queueBCD = Throw e
  | OutOfFuel => UpdateBoard_loops holed3x4 queueBCD = OutOfFuel
  end.
Proof. apply (UpdateBoard_loops_fills holed3x4 queueBCD). by vm_compute. Defined.

Lemma move_leaves_no_hole_witness :
  (moveEffects result3x4 ≠ [] → holes (board result3x4) = 0) ∧
  (moveEffects result3x4 = [] → board result3x4 = board3x4) ∧
  (holes board3x4 = 0 → holes (board result3x4) = 0).
Proof.
  apply (move_leaves_no_hole 2 queueBCD board3x4 (at_ 0 1) (at_ 2 1) result3x4
           {| upcoming := [] |}).
  - by vm_compute.
  - by vm_compute.
Defined.

Lemma create_without_cells_witness :
  create queueBCD 0 3 = Ret ({| width := 0; height := 3; tilePieces := [] |}, queueBCD).
Proof. apply (create_without_cells (T := string) queueBCD 0 3). left. lia. Defined.

Lemma MatchValuesRemoved_clears_witness :
  wf (MatchValuesRemoved board3x4 topRow3x4 []) ∧
  ∀ p, tilePiece (MatchValuesRemoved board3x4 topRow3x4 []) p =
       if decide (p ∈ (λ x : Ref string, position x.2) <$> (topRow3x4 ++ [])) then Ret None
       else tilePiece board3x4 p.
Proof.
  apply (MatchValuesRemoved_clears board3x4 topRow3x4 []).
  - by vm_compute.
  - by repeat constructor.
  - constructor.
Defined.

Lemma canMove_true_makes_run_witness :
  ∃ b1, SwapPieces board3x4 (at_ 0 1) (at_ 2 1) = Ret b1 ∧
        (has_run3 b1 RIGHT ∨ has_run3 b1 DOWN).
Proof.
  apply (canMove_true_makes_run board3x4 (at_ 0 1) (at_ 2 1)).
  - by vm_compute.
  - by vm_compute.
Defined.

Lemma OO_IsAnyMatch_exact_witness :
  OO.IsAnyMatch rowAAABAAA = true ↔ has_run3 rowAAABAAA RIGHT ∨ has_run3 rowAAABAAA DOWN.
Proof. apply (OO_IsAnyMatch_exact rowAAABAAA). by vm_compute. Defined.

Lemma OO_canMove_exact_witness :
  ∃ b1 legal, SwapPieces board3x4 (at_ 0 1) (at_ 2 1) = Ret b1 ∧
              OO.canMove board3x4 (at_ 0 1) (at_ 2 1) = Ret (legal, board3x4) ∧
              (legal = true ↔ has_run3 b1 RIGHT ∨ has_run3 b1 DOWN).
Proof.
  apply (OO_canMove_exact board3x4 (at_ 0 1) (at_ 2 1)).
  - by vm_compute.
  - unfold in_bounds. simpl. lia.
  - unfold in_bounds. simpl. lia.
  - unfold at_. intros [=].
  - right. reflexivity.
Defined.

Lemma canMove_true_OO_canMove_true_witness :
  OO.canMove board3x4 (at_ 0 1) (at_ 2 1) = Ret (true, board3x4).
Proof.
  apply (canMove_true_OO_canMove_true board3x4 (at_ 0 1) (at_ 2 1)).
  - by vm_compute.
  - by vm_compute.
Defined.

Lemma lines_in_order_witness :
  (λ x : Ref string, position x.2) <$> FindAllTilePiecesInRow board4x4 1 =
    (if decide (0 ≤ 1 < height board4x4)%Z
     then (λ c, {| row := 1; col := c |}) <$> seqZ 0 (width board4x4) else []) ∧
  (λ x : Ref string, position x.2) <$> FindAllTilePiecesInColumn board4x4 1 =
    (if decide (0 ≤ 1 < width board4x4)%Z
     then (λ r, {| row := r; col := 1 |}) <$> seqZ 0 (height board4x4) else []) ∧
  Forall (valid_ref board4x4) (FindAllTilePiecesInRow board4x4 1) ∧
  Forall (valid_ref board4x4) (FindAllTilePiecesInColumn board4x4 1).
Proof. apply (lines_in_order board4x4 1). by vm_compute. Defined.

Lemma CyclicGenerator_draw_witness :
  draw 5 cyclicABC =
  Ret ((λ i, charAt (sequence cyclicABC)
               ((index cyclicABC + i) `mod` String.length (sequence cyclicABC)))
         <$> seq 0 5,
       {| sequence := sequence cyclicABC;
          index := (index cyclicABC + 5) `mod` String.length (sequence cyclicABC) |}).
Proof. apply (CyclicGenerator_draw 5 cyclicABC). simpl. lia. Defined.


Lemma OOBoard_canMove_observes_witness :
  ∃ legal, OOBoard.canMove object3x4 (at_ 0 1) (at_ 2 1) = Ret (legal, object3x4) ∧
           OO.canMove (OOBoard.tiles object3x4) (at_ 0 1) (at_ 2 1)
           = Ret (legal, OOBoard.tiles object3x4).
Proof.
  apply (OOBoard_canMove_observes object3x4 (at_ 0 1) (at_ 2 1)).
  - by vm_compute.
  - reflexivity.
Defined.

Lemma OOBoard_move_settles_witness :
  same_shape (OOBoard.tiles object3x4) (OOBoard.tiles moved3x4) ∧
  OOBoard.isEventsEnabled moved3x4 = false ∧
  ∃ new, OOBoard.heard moved3x4 = OOBoard.heard object3x4 ++ new ∧
         (new = [] ↔ OO.canMove (OOBoard.tiles object3x4) (at_ 0 1) (at_ 2 1)
                     = Ret (false, OOBoard.tiles object3x4)) ∧
         (new = [] → moved3x4 = object3x4) ∧
         (new ≠ [] → last new = Some RefillEffect ∧ holes (OOBoard.tiles moved3x4) = 0 ∧
                     ¬ has_run3 (OOBoard.tiles moved3x4) RIGHT ∧
                     ¬ has_run3 (OOBoard.tiles moved3x4) DOWN).
Proof.
  apply (OOBoard_move_settles 2 object3x4 (at_ 0 1) (at_ 2 1) moved3x4).
  - by vm_compute.
  - reflexivity.
  - by vm_compute.
Defined.

Lemma OOBoard_move_terminates_witness :
  OOBoard.move 4 object3x4 (at_ 0 1) (at_ 2 1) = Throw EmptyQueue ∨
  ∃ o', OOBoard.move 4 object3x4 (at_ 0 1) (at_ 2 1) = Ret o'.
Proof.
  apply (OOBoard_move_terminates 4 object3x4 (at_ 0 1) (at_ 2 1)).
  - by vm_compute.
  - reflexivity.
  - simpl. lia.
Defined.

Lemma OOBoard_move_matches_are_runs_witness :
  ∃ boards,
    ((OO.canMove (OOBoard.tiles object3x4) (at_ 0 1) (at_ 2 1)
      = Ret (false, OOBoard.tiles object3x4) ∧ boards = []) ∨
     (∃ b1, OO.canMove (OOBoard.tiles object3x4) (at_ 0 1) (at_ 2 1)
            = Ret (true, OOBoard.tiles object3x4) ∧
            SwapPieces (OOBoard.tiles object3x4) (at_ 0 1) (at_ 2 1) = Ret b1 ∧
            head boards = Some b1 ∧
            OO_passes b1 (OOBoard.boardGenerator object3x4) boards
              (OOBoard.tiles moved3x4) (OOBoard.boardGenerator moved3x4))) ∧
    OOBoard.heard moved3x4 =
      OOBoard.heard object3x4 ++
      (boards ≫= (λ bi, boardEffects (OO_rows bi) ++ boardEffects (OO_columns bi)
                         ++ [RefillEffect])) ∧
    Forall (λ bi, same_shape (OOBoard.tiles object3x4) bi ∧
                  (has_run3 bi RIGHT ∨ has_run3 bi DOWN) ∧
                  Forall (good_match RIGHT bi) (boardEffects (OO_rows bi)) ∧
                  Forall (good_match DOWN bi) (boardEffects (OO_columns bi)))
      boards.
Proof.
  apply (OOBoard_move_matches_are_runs 2 object3x4 (at_ 0 1) (at_ 2 1) moved3x4).
  - by vm_compute.
  - reflexivity.
  - by vm_compute.
Defined.
